(** * Verification of [src/nvidia/src/lib/base_utils.c]

    A shallow embedding of the utility routines of [base_utils.c]
    ([nvLogBase2], the bit-field helpers, [nvMergeSort], [nvStrToL],
    [nvMsb64], [nvU32ToStr]) and the properties of them that the
    specification states, followed by further properties read off the
    code.  [nvStringLen] is left out: the test of its loop has an
    unbalanced parenthesis in the source, which does not parse.

    Conventions of the embedding:
    - an [NvU32] (resp. [NvU64]) is a [Z] in [0, 2^32) (resp. [0, 2^64));
      every C operation that can leave the range is followed by its
      wrap-around, written [u32] (resp. [u64]);
    - a buffer reached through a pointer is a total function from cell
      index to cell content ([mem]); a byte buffer is indexed by byte
      offset, an [NvU32] array by word index.  Pointers into a buffer are
      offsets from its base and are not wrapped (pointers are 64 bits wide
      and a buffer lies inside the address space);
    - a loop is the iteration of its body, a function from the loop state
      to [Continue] or [Break]; iteration is bounded by a fuel, and a run
      that exhausts it yields [None];
    - the comparator passed to [nvMergeSort] is a function of the bytes of
      the two elements its arguments point to. *)

From Stdlib Require Import ZArith List Lia Bool Permutation Sorted.
Import ListNotations.
Local Open Scope Z_scope.

(** ** Machine integers *)

Definition u32 (x : Z) : Z := x mod 2 ^ 32.
Definition u64 (x : Z) : Z := x mod 2 ^ 64.

(** [~x] on an [NvU32] and on an [NvU64]. *)
Definition not32 (x : Z) : Z := u32 (Z.lnot x).
Definition not64 (x : Z) : Z := u64 (Z.lnot x).

(** ** Memory *)

Definition mem := Z -> Z.

(** [tab f k cnt] lists [f k], [f (k + 1)], ..., [f (k + cnt - 1)]. *)
Definition tab {A : Type} (f : Z -> A) (k cnt : Z) : list A :=
  map (fun j => f (k + Z.of_nat j)) (seq 0 (Z.to_nat cnt)).

(** The [len] cells of [m] starting at [off]. *)
Definition read (m : mem) (off len : Z) : list Z := tab m off len.

Definition store (m : mem) (a v : Z) : mem :=
  fun x => if x =? a then v else m x.

Definition mem_of_list (l : list Z) : mem :=
  fun a => nth (Z.to_nat a) l 0.

(** Modelled from the spec: [portMemCopy] is declared in a header that is
    not among the sources; the specification says elements are moved "only
    via raw byte copy".  [portMemCopy dst doff src soff len] is the
    destination buffer after the [len] bytes of [src] at [soff] were
    copied to offset [doff]; source and destination are distinct
    buffers. *)
Definition portMemCopy (dst : mem) (doff : Z) (src : mem) (soff len : Z) : mem :=
  fun a => if (doff <=? a) && (a <? doff + len)
           then src (soff + (a - doff)) else dst a.

(** ** Loops *)

Inductive ctl (S : Type) : Type :=
| Continue (s : S)
| Break (s : S).
Arguments Continue {S} s.
Arguments Break {S} s.

Fixpoint loop {S : Type} (body : S -> option (ctl S)) (fuel : nat) (s : S)
  : option S :=
  match fuel with
  | O => None
  | Datatypes.S f =>
      match body s with
      | None => None
      | Some (Break s') => Some s'
      | Some (Continue s') => loop body f s'
      end
  end.

(** Sequencing of steps that may run out of fuel. *)
Notation "x <- e ;; k" :=
  (match e with Some x => k | None => None end)
  (at level 61, e at next level, right associativity).
Notation "' pat <- e ;; k" :=
  (match e with Some pat => k | None => None end)
  (at level 61, pat pattern, e at next level, right associativity).

(** ** Bit fields *)

(** Modelled from the spec: the macros [NVBIT], [LOWESTBITIDX_32] and
    [HIGHESTBITIDX_32] come from a header that is not among the sources.
    [NVBIT b] is the 32-bit word with only bit [b] set; the other two
    replace a non-zero word by the index of its lowest, resp. highest,
    set bit (the index the documentation of [nvBitFieldLSZero] and
    [nvBitFieldMSZero] adds to the word's base index). *)
Definition NVBIT (b : Z) : Z := u32 (Z.shiftl 1 b).

Fixpoint lowest_from (t k : Z) (left : nat) : Z :=
  match left with
  | O => k
  | S left' => if Z.testbit t k then k else lowest_from t (k + 1) left'
  end.

Definition LOWESTBITIDX_32 (n32 : Z) : Z := lowest_from n32 0 32.
Definition HIGHESTBITIDX_32 (n32 : Z) : Z := Z.log2 n32.

(** State of the scanning loops: the loop variables and, once the
    function executed a [return] inside the loop, the returned value. *)
Record lsz_state := LSZ { lsz_i : Z; lsz_ret : option Z }.

Definition lsz_body (pBitField32 : mem) (count : Z) (s : lsz_state)
  : option (ctl lsz_state) :=
  let i := lsz_i s in
  if i <? count then
    let temp := not32 (pBitField32 i) in
    if negb (temp =? 0) then
      let temp := LOWESTBITIDX_32 temp in
      Some (Break (LSZ i (Some (u32 (temp + i * 4 * 8)))))
    else Some (Continue (LSZ (u32 (i + 1)) None))
  else Some (Break s).

Definition nvBitFieldLSZero (fuel : nat) (pBitField32 : mem) (count : Z)
  : option Z :=
  s <- loop (lsz_body pBitField32 count) fuel (LSZ 0 None) ;;
  match lsz_ret s with
  | Some r => Some r
  | None => Some (u32 (count * 32))
  end.

Record msz_state := MSZ { msz_j : Z; msz_i : Z; msz_ret : option Z }.

Definition msz_body (pBitField32 : mem) (count : Z) (s : msz_state)
  : option (ctl msz_state) :=
  let j := msz_j s in
  let i := msz_i s in
  let i' := u32 (i + 1) in
  if i <? count then
    let temp := not32 (pBitField32 j) in
    if negb (temp =? 0) then
      let temp := HIGHESTBITIDX_32 temp in
      Some (Break (MSZ j i' (Some (u32 (temp + j * 4 * 8)))))
    else Some (Continue (MSZ (u32 (j - 1)) i' None))
  else Some (Break (MSZ j i' None)).

Definition nvBitFieldMSZero (fuel : nat) (pBitField32 : mem) (count : Z)
  : option Z :=
  s <- loop (msz_body pBitField32 count) fuel (MSZ (u32 (count - 1)) 0 None) ;;
  match msz_ret s with
  | Some r => Some r
  | None => Some (u32 (count * 32))
  end.

Definition nvBitFieldTest (pBitField : mem) (count bit : Z) : bool :=
  if bit <? u32 (count * 32)
  then negb (Z.land (pBitField (bit / 32)) (NVBIT (bit mod 32)) =? 0)
  else false.

(** [NV_ASSERT] reports a failed condition and lets execution go on; the
    store is performed whatever [bit] is. *)
Definition nvBitFieldSet (pBitField : mem) (count bit : Z) (value : bool)
  : mem :=
  store pBitField (bit / 32)
    (Z.lor (Z.land (pBitField (bit / 32)) (not32 (NVBIT (bit mod 32))))
           (if value then NVBIT (bit mod 32) else 0)).

(** The bit of index [X] of the field, as the documentation of the source
    writes it: [pBitField[X/32] & (1<<(X%32))]. *)
Definition field_bit (pBitField : mem) (X : Z) : bool :=
  Z.testbit (pBitField (X / 32)) (X mod 32).

(** ** [nvMergeSort] *)

(** The writes of a run, most recent first.  [ScratchWrite off len] is a
    [portMemCopy] of [len] bytes to offset [off] of the scratch buffer;
    [CopyBack off len loMin hiMax] is the [portMemCopy] of [len] bytes to
    offset [off] of the array that ends the merge of the elements of
    index [loMin] to [hiMax - 1].  The trace is ghost state: no step
    reads it. *)
Inductive event : Type :=
| ScratchWrite (off len : Z)
| CopyBack (off len loMin hiMax : Z).

(** State of one merge: the indices [lo] and [hi], the pointer [dest] as
    an offset from [mergeArray], and the scratch buffer. *)
Record mstate := MState {
  lo : Z; hi : Z; dest : Z; tmp : mem; wlog : list event }.

(** State of the sort between two merges. *)
Record sstate := SState {
  array : mem; mergeArray : mem; trace : list event }.

Section MergeSortLoops.
Variable size : Z.
Variable less : list Z -> list Z -> bool.
Variable fuel : nat.
Variable n : Z.

(** The macro [EL]: the offset in [array] of the element of index [k];
    the product is computed on [NvU32]. *)
Definition EL (k : Z) : Z := u32 (k * size).

(** [portMemCopy(dest,size,EL(lo),size); lo++; dest += size] *)
Definition copy_lo (arr : mem) (s : mstate) : mstate :=
  {| lo := u32 (lo s + 1);
     hi := hi s;
     dest := dest s + size;
     tmp := portMemCopy (tmp s) (dest s) arr (EL (lo s)) size;
     wlog := ScratchWrite (dest s) size :: wlog s |}.

(** [portMemCopy(dest,size,EL(hi),size); hi++; dest += size] *)
Definition copy_hi (arr : mem) (s : mstate) : mstate :=
  {| lo := lo s;
     hi := u32 (hi s + 1);
     dest := dest s + size;
     tmp := portMemCopy (tmp s) (dest s) arr (EL (hi s)) size;
     wlog := ScratchWrite (dest s) size :: wlog s |}.

(** Body of [while(1)]: the standard merge of [lo, loMax) and
    [hi, hiMax). *)
Definition merge_body (arr : mem) (loMax hiMax : Z) (s : mstate)
  : option (ctl mstate) :=
  if less (read arr (EL (lo s)) size) (read arr (EL (hi s)) size) then
    let s' := copy_lo arr s in
    Some (if loMax <=? lo s' then Break s' else Continue s')
  else
    let s' := copy_hi arr s in
    Some (if hiMax <=? hi s' then Break s' else Continue s').

(** Bodies of [while (lo < loMax)] and [while (hi < hiMax)]. *)
Definition drain_lo_body (arr : mem) (loMax : Z) (s : mstate)
  : option (ctl mstate) :=
  if lo s <? loMax then Some (Continue (copy_lo arr s)) else Some (Break s).

Definition drain_hi_body (arr : mem) (hiMax : Z) (s : mstate)
  : option (ctl mstate) :=
  if hi s <? hiMax then Some (Continue (copy_hi arr s)) else Some (Break s).

(** Body of the loop over [i]: the merge of the two blocks at [i] and
    the copy of the merged data back over the array.  [NV_MIN], a macro
    of a header that is not among the sources, is the minimum; the length
    of the copy back is [(NvU32)(dest - mergeArray)]. *)
Definition merge_block (m i : Z) (st : sstate) : option sstate :=
  let loMin := i in
  let loMax := u32 (i + m) in
  let hiMax := Z.min n (u32 (i + 2 * m)) in
  let s0 := {| lo := loMin; hi := u32 (i + m); dest := 0;
               tmp := mergeArray st; wlog := trace st |} in
  s1 <- loop (merge_body (array st) loMax hiMax) fuel s0 ;;
  s2 <- loop (drain_lo_body (array st) loMax) fuel s1 ;;
  s3 <- loop (drain_hi_body (array st) hiMax) fuel s2 ;;
  let len := u32 (dest s3) in
  Some {| array := portMemCopy (array st) (EL loMin) (tmp s3) 0 len;
          mergeArray := tmp s3;
          trace := CopyBack (EL loMin) len loMin hiMax :: wlog s3 |}.

(** [for (i = 0; i < (n - m); i += 2 * m)] *)
Definition pass_body (m : Z) (s : Z * sstate) : option (ctl (Z * sstate)) :=
  let '(i, st) := s in
  if i <? u32 (n - m) then
    st' <- merge_block m i st ;;
    Some (Continue (u32 (i + 2 * m), st'))
  else Some (Break s).

(** [for (m = 1; m <= n; m *= 2)] *)
Definition sort_body (s : Z * sstate) : option (ctl (Z * sstate)) :=
  let '(m, st) := s in
  if m <=? n then
    '(_, st') <- loop (pass_body m) fuel (0, st) ;;
    Some (Continue (u32 (m * 2), st'))
  else Some (Break s).
End MergeSortLoops.

(** [nvMergeSort fuel array n tempBuffer size less] is the state in which
    the call returns: the array, the scratch buffer, and the writes it
    made.  [less] receives the [size] bytes of each of the two elements
    it is applied to.  No loop of the call iterates more than [fuel]
    times; [None] when one would. *)
Definition nvMergeSort (fuel : nat) (array : mem) (n : Z) (tempBuffer : mem)
  (size : Z) (less : list Z -> list Z -> bool) : option sstate :=
  '(_, st) <- loop (sort_body size less fuel n) fuel
                (1, {| array := array; mergeArray := tempBuffer; trace := [] |}) ;;
  Some st.

(** The element of index [k] of an array of [size]-byte elements, its
    [cnt] elements from index [k], and its first [n] elements. *)
Definition elem (size : Z) (m : mem) (k : Z) : list Z :=
  read m (k * size) size.

Definition slice (size : Z) (m : mem) (k cnt : Z) : list (list Z) :=
  tab (elem size m) k cnt.

Definition elems (size : Z) (m : mem) (n : Z) : list (list Z) :=
  slice size m 0 n.

(** The merge of two runs in the words of the specification: "copy from
    left when [less(left,right)] true; otherwise copy from right", then
    "drain whichever run has leftover elements". *)
Fixpoint spec_merge {A : Type} (less : A -> A -> bool) (l r : list A)
  : list A :=
  let fix go (r : list A) : list A :=
    match l, r with
    | [], _ => r
    | _, [] => l
    | a :: l', b :: r' =>
        if less a b then a :: spec_merge less l' r else b :: go r'
    end
  in go r.

(** [ascending less a]: no element of [a] is less than its predecessor. *)
Definition ascending {A : Type} (less : A -> A -> bool) (a : list A) : Prop :=
  Sorted (fun x y => less y x = false) a.

(** ** [nvMsb64] *)

Definition nvMsb64 (x : Z) : Z :=
  let x := Z.lor x (Z.shiftr x 1) in
  let x := Z.lor x (Z.shiftr x 2) in
  let x := Z.lor x (Z.shiftr x 4) in
  let x := Z.lor x (Z.shiftr x 8) in
  let x := Z.lor x (Z.shiftr x 16) in
  let x := Z.lor x (Z.shiftr x 32) in
  Z.land x (not64 (Z.shiftr x 1)).

(** ** [nvU32ToStr] *)

(** State of the loop that produces the digits, least significant first:
    [tp] is the pointer into [tmp], as an index.  The content [tmp] has
    at first is indeterminate in C and taken to be zeros here: a cell is
    written before it is read. *)
Record dstate := DState { dv : Z; dtp : Z; dtmp : mem }.

Definition digits_body (base : Z) (s : dstate) : option (ctl dstate) :=
  if negb (dv s =? 0) || (dtp s =? 0) then
    let i := dv s mod base in
    let v := dv s / base in
    let extra := if i <? 10 then 48 else 97 - 10 in
    Some (Continue {| dv := v; dtp := dtp s + 1;
                      dtmp := store (dtmp s) (dtp s) ((i + extra) mod 256) |})
  else Some (Break s).

(** State of the loop that copies the digits in reverse: [tp] again, and
    [sp] as an index into the caller's buffer. *)
Record rstate := RState { rtp : Z; rsp : Z; rstring : mem }.

Definition reverse_body (tmp : mem) (s : rstate) : option (ctl rstate) :=
  if 0 <? rtp s then
    let tp := rtp s - 1 in
    Some (Continue {| rtp := tp; rsp := rsp s + 1;
                      rstring := store (rstring s) (rsp s) (tmp tp) |})
  else Some (Break s).

(** What [nvU32ToStr] returns: the null pointer, or [string] with the
    buffer it points to. *)
Inductive strptr : Type :=
| NullPtr
| StrPtr (buf : mem).

Definition nvU32ToStr (fuel : nat) (value : Z) (string : mem) (base : Z)
  : option strptr :=
  if 36 <? base then Some NullPtr
  else if base <=? 1 then Some NullPtr
  else
    s1 <- loop (digits_body base) fuel {| dv := value; dtp := 0; dtmp := fun _ => 0 |} ;;
    s2 <- loop (reverse_body (dtmp s1)) fuel
            {| rtp := dtp s1; rsp := 0; rstring := string |} ;;
    Some (StrPtr (store (rstring s2) (rsp s2) 0)).

(** The value of a digit character and of a string of digits, most
    significant first. *)
Definition digit_value (c : Z) : Z :=
  if (48 <=? c) && (c <=? 57) then c - 48
  else if (97 <=? c) && (c <=? 122) then c - 97 + 10
  else -1.

Definition digits_value (base : Z) (cs : list Z) : Z :=
  fold_left (fun acc c => acc * base + digit_value c) cs 0.


(** ** [nvLogBase2] *)

(** Body of [for(i = 0;i < 64;i++)], with the [break] of the test
    [(1ull << i) == value]: the state is [i]. *)
Definition log2_body (value : Z) (i : Z) : option (ctl Z) :=
  if i <? 64 then
    if u64 (Z.shiftl 1 i) =? value then Some (Break i)
    else Some (Continue (u32 (i + 1)))
  else Some (Break i).

(** What a call of [nvLogBase2] yields: the value it returns, and whether
    the conditions of its two [NV_ASSERT] held ([NV_ASSERT] reports a
    failed condition and lets execution go on). *)
Record logres := LogRes { log_asserts : bool; log_ret : Z }.

Definition nvLogBase2 (fuel : nat) (value : Z) : option logres :=
  let a1 := Z.land value (u64 (value - 1)) =? 0 in
  i <- loop (log2_body value) fuel 0 ;;
  let a2 := i <? 64 in
  Some {| log_asserts := a1 && a2; log_ret := i |}.

(** ** [nvStrToL] *)

(** An [NvU32] converted to [NvS32]. *)
Definition s32 (x : Z) : Z := if x <? 2 ^ 31 then x else x - 2 ^ 32.

(** Modelled from the spec: the macro [BASE16] comes from a header that
    is not among the sources; the specification counts a hex digit "if
    base is 16". *)
Definition BASE16 : Z := 16.

(** The macro [RANGE]. *)
Definition RANGE (value low high : Z) : bool :=
  (low <=? value) && (value <=? high).

(** State of the loop that scans for the start of the number: the
    pointer [string], as an index into the buffer it points into, and
    the cell [found] points to.  The cells behind [pEndStr] and [found]
    are no part of the string. *)
Record scan_state := ScanState { sc_string : Z; sc_found : Z }.

Definition scan_body (str : mem) (base stopChar : Z) (s : scan_state)
  : option (ctl scan_state) :=
  let c := str (sc_string s) in
  if negb (c =? 0) then
    if RANGE c 48 57 then Some (Break (ScanState (sc_string s) 1))
    else if (BASE16 =? base) && RANGE c 97 102 then
      Some (Break (ScanState (sc_string s) 1))
    else if (BASE16 =? base) && RANGE c 65 70 then
      Some (Break (ScanState (sc_string s) 1))
    else if c =? stopChar then Some (Break s)
    else Some (Continue (ScanState (sc_string s + 1) (sc_found s)))
  else Some (Break s).

(** State of the loop that converts the number: [string] and [num]. *)
Record conv_state := ConvState { cv_string : Z; cv_num : Z }.

(** [num *= base; num += newnum;] on [NvU32], then [string++]. *)
Definition conv_step (base : Z) (s : conv_state) (newnum : Z) : conv_state :=
  let num := u32 (cv_num s * base) in
  let num := u32 (num + newnum) in
  ConvState (cv_string s + 1) num.

Definition conv_body (str : mem) (base : Z) (s : conv_state)
  : option (ctl conv_state) :=
  let c := str (cv_string s) in
  if negb (c =? 0) then
    if RANGE c 48 57 then Some (Continue (conv_step base s (c - 48)))
    else if (BASE16 =? base) && RANGE c 97 102 then
      Some (Continue (conv_step base s (c - 97 + 10)))
    else if (BASE16 =? base) && RANGE c 65 70 then
      Some (Continue (conv_step base s (c - 65 + 10)))
    else Some (Break s)
  else Some (Break s).

(** What a call of [nvStrToL] yields: the value it returns and what it
    stored through [pEndStr] (a pointer into the string, as an index)
    and through [found]. *)
Record strtol := StrToL { result : Z; pEndStr : Z; found : Z }.

Definition nvStrToL (fuel : nat) (str : mem) (string : Z) (base stopChar : Z)
  : option strtol :=
  s1 <- loop (scan_body str base stopChar) fuel (ScanState string 0) ;;
  s2 <- loop (conv_body str base) fuel (ConvState (sc_string s1) 0) ;;
  Some {| result := s32 (cv_num s2); pEndStr := cv_string s2; found := sc_found s1 |}.
(** ** Notions used by the statements *)

(** Bit [k] of [y] is the disjunction of the [w] bits of [x] from [k]. *)
Definition smeared (x w y : Z) : Prop :=
  forall k, 0 <= k ->
    (Z.testbit y k = true <-> exists j, k <= j < k + w /\ Z.testbit x j = true).

(** The 32 bits of a word of the field are set. *)
Definition all_ones (w : Z) : Prop :=
  forall k, 0 <= k < 32 -> Z.testbit w k = true.

(** What the scan for the lowest zero bit returns, the index not yet
    known to fit 32 bits: the first word [j] that is not all ones and
    its lowest zero bit [r], or nothing when there is no such word. *)
Definition lsz_result (pBitField32 : mem) (count : Z) (ret : option Z) : Prop :=
  match ret with
  | None => forall w, 0 <= w < count -> all_ones (pBitField32 w)
  | Some x => exists j r, x = u32 (r + j * 32) /\ 0 <= j < count /\ 0 <= r < 32
      /\ (forall w, 0 <= w < j -> all_ones (pBitField32 w))
      /\ Z.testbit (pBitField32 j) r = false
      /\ (forall r', 0 <= r' < r -> Z.testbit (pBitField32 j) r' = true)
  end.

Definition msz_result (pBitField32 : mem) (count : Z) (ret : option Z) : Prop :=
  match ret with
  | None => forall w, 0 <= w < count -> all_ones (pBitField32 w)
  | Some x => exists j r, x = u32 (r + j * 32) /\ 0 <= j < count /\ 0 <= r < 32
      /\ (forall w, j < w < count -> all_ones (pBitField32 w))
      /\ Z.testbit (pBitField32 j) r = false
      /\ (forall r', r < r' < 32 -> Z.testbit (pBitField32 j) r' = true)
  end.

(** [r] is the least, resp. greatest, index below [count*32] of a zero
    bit of the field; every bit of the field is set. *)
Definition lowest_zero (f : mem) (count r : Z) : Prop :=
  0 <= r < count * 32 /\ field_bit f r = false
  /\ forall X, 0 <= X < r -> field_bit f X = true.

Definition highest_zero (f : mem) (count r : Z) : Prop :=
  0 <= r < count * 32 /\ field_bit f r = false
  /\ forall X, r < X < count * 32 -> field_bit f X = true.

Definition all_set (f : mem) (count : Z) : Prop :=
  forall X, 0 <= X < count * 32 -> field_bit f X = true.

(** A field of [2^27 + 1] words whose only zero bits are those of its last
    word. *)
Definition wide_field : mem := fun w => if w <? 2 ^ 27 then 2 ^ 32 - 1 else 0.

(** The character [nvU32ToStr] writes for the digit [i]. *)
Definition digit_char (i : Z) : Z :=
  (i + (if i <? 10 then 48 else 97 - 10)) mod 256.

(** The digits of [v], least significant first; at most [k] of them. *)
Fixpoint lsf_digits (k : nat) (base v : Z) : list Z :=
  match k with
  | O => []
  | S k' => digit_char (v mod base)
            :: (if v / base =? 0 then [] else lsf_digits k' base (v / base))
  end.

Definition is_digit (base c : Z) : Prop :=
  (48 <= c <= 57 \/ 97 <= c <= 122) /\ 0 <= digit_value c < base.

(** [cs] is the representation of [value] in base [base]: digits
    [0-9a-z] of the base, most significant first, without a leading
    zero, and the single digit [0] when [value] is zero. *)
Definition textual (base value : Z) (cs : list Z) : Prop :=
  Forall (is_digit base) cs
  /\ digits_value base cs = value
  /\ (value <> 0 -> hd 0 cs <> 48)
  /\ (value = 0 -> cs = [48]).


(** ** Notions of the sort *)

(** [less] is a strict total order on the members of [D]. *)
Record strict_total_on {A : Type} (less : A -> A -> bool) (D : list A) : Prop := {
  sto_irrefl : forall x, In x D -> less x x = false;
  sto_trans : forall x y z, In x D -> In y D -> In z D ->
      less x y = true -> less y z = true -> less x z = true;
  sto_total : forall x y, In x D -> In y D ->
      less x y = true \/ x = y \/ less y x = true }.

Definition asym_on {A : Type} (less : A -> A -> bool) (D : list A) : Prop :=
  forall x y, In x D -> In y D -> less x y = true -> less y x = false.

(** [Runs less m l]: [l] is a sequence of ascending runs of [m] elements,
    the last of which may be shorter. [Full less m l]: all of them have
    [m] elements. *)
Inductive Runs {A : Type} (less : A -> A -> bool) (m : nat) : list A -> Prop :=
| Runs_last l : (length l <= m)%nat -> ascending less l -> Runs less m l
| Runs_cons r l : length r = m -> ascending less r -> Runs less m l ->
    Runs less m (r ++ l).

Inductive Full {A : Type} (less : A -> A -> bool) (m : nat) : list A -> Prop :=
| Full_nil : Full less m []
| Full_cons r l : length r = m -> ascending less r -> Full less m l ->
    Full less m (r ++ l).

(** The bytes a write to the scratch buffer touches lie below [n * size];
    a copy back over the array stays inside the merged range. *)
Definition scratch_in_bounds (n size : Z) (e : event) : Prop :=
  match e with
  | ScratchWrite off len => 0 <= off /\ off + len <= n * size
  | CopyBack _ _ _ _ => True
  end.

Definition copyback_in_range (n size : Z) (e : event) : Prop :=
  match e with
  | ScratchWrite _ _ => True
  | CopyBack off len loMin hiMax =>
      0 <= loMin /\ hiMax <= n /\ loMin * size <= off /\ off + len <= hiMax * size
  end.

(** The array is smaller than [2^32] bytes: no offset [EL k] wraps. *)
Definition nowrap (n size : Z) : Prop := n * size < 2 ^ 32.

(** Invariant of the three loops of a merge of [i, loMax) and
    [loMax, hiMax) whose result is to be [M]: the scratch buffer holds the
    elements merged so far, and merging what is left of the two runs
    completes [M]. *)
Definition merge_inv (size : Z) (less : list Z -> list Z -> bool) (n : Z)
  (arr : mem) (i loMax hiMax : Z) (M : list (list Z)) (s : mstate) : Prop :=
  i <= lo s <= loMax /\ loMax <= hi s <= hiMax
  /\ dest s = (lo s - i + (hi s - loMax)) * size
  /\ Forall (scratch_in_bounds n size) (wlog s)
  /\ (nowrap n size ->
      Forall (copyback_in_range n size) (wlog s)
      /\ slice size (tmp s) 0 (lo s - i + (hi s - loMax))
         ++ spec_merge less (slice size arr (lo s) (loMax - lo s))
                            (slice size arr (hi s) (hiMax - hi s)) = M).

(** What every merge keeps of the elements [els0] the array held at the
    call: they are permuted, and they do not move when they are in
    order for a strict total order. *)
Definition content_ok (less : list Z -> list Z -> bool)
  (els0 cur : list (list Z)) : Prop :=
  Permutation cur els0
  /\ (strict_total_on less els0 -> ascending less els0 -> cur = els0).

(** State of the sort between two passes: the array is made of ascending
    runs of [m] elements. *)
Definition sorted_to (size : Z) (less : list Z -> list Z -> bool) (n : Z)
  (els0 : list (list Z)) (m : Z) (st : sstate) : Prop :=
  Forall (scratch_in_bounds n size) (trace st)
  /\ (nowrap n size ->
      Forall (copyback_in_range n size) (trace st)
      /\ content_ok less els0 (elems size (array st) n)
      /\ (asym_on less els0 -> Runs less (Z.to_nat m) (elems size (array st) n))).

(** Inside a pass: runs of [2 * m] elements below [i], of [m] elements
    from [i] on. *)
Definition pass_runs (size : Z) (less : list Z -> list Z -> bool)
  (n m i : Z) (arr : mem) : Prop :=
  (i <= n /\ Full less (Z.to_nat (2 * m)) (slice size arr 0 i)
   /\ Runs less (Z.to_nat m) (slice size arr i (n - i)))
  \/ (n < i /\ Runs less (Z.to_nat (2 * m)) (elems size arr n)).

Definition pass_inv (size : Z) (less : list Z -> list Z -> bool) (n : Z)
  (els0 : list (list Z)) (m : Z) (s : Z * sstate) : Prop :=
  0 <= fst s
  /\ Forall (scratch_in_bounds n size) (trace (snd s))
  /\ (nowrap n size ->
      Forall (copyback_in_range n size) (trace (snd s))
      /\ content_ok less els0 (elems size (array (snd s)) n)
      /\ (asym_on less els0 -> pass_runs size less n m (fst s) (array (snd s)))).

(** The writes to the scratch buffer a merge can still make, in the loop
    that merges ([while(1)] makes one write even when a run is empty) and
    in the loops that copy what remains. *)
Definition drain_budget (loMax hiMax : Z) (s : mstate) : Z :=
  Z.max (loMax - lo s) 0 + Z.max (hiMax - hi s) 0.

Definition merge_budget (loMax hiMax : Z) (s : mstate) : Z :=
  drain_budget loMax hiMax s
  + Z.min 1 (Z.max 0 (1 - Z.min (loMax - lo s) (hiMax - hi s))).

(** The writes made so far lie below [n * size], and so will those that
    remain, [budget] at most. *)
Definition safe_inv (n size : Z) (budget : Z) (s : mstate) : Prop :=
  Forall (scratch_in_bounds n size) (wlog s)
  /\ 0 <= lo s /\ 0 <= hi s
  /\ exists d, dest s = d * size /\ 0 <= d /\ 0 <= budget /\ d + budget <= n.

(** ** Inputs of the examples *)

(** The comparator [integerLess] of the usage example in the source: it
    compares the elements as 32-bit integers (little-endian). *)
Definition as_u32 (e : list Z) : Z :=
  nth 0 e 0 + 256 * nth 1 e 0 + 65536 * nth 2 e 0 + 16777216 * nth 3 e 0.

Definition integerLess (a b : list Z) : bool := as_u32 a <? as_u32 b.

(** A comparator that looks at the first byte of the elements only. *)
Definition firstByteLess (a b : list Z) : bool := hd 0 a <? hd 0 b.

Definition le32 (v : Z) : list Z :=
  [v mod 256; (v / 256) mod 256; (v / 65536) mod 256; (v / 16777216) mod 256].

(** The array [5,3,1,4,2] of 4-byte integers. *)
Definition array_53142 : mem := mem_of_list (concat (map le32 [5; 3; 1; 4; 2])).

(** Two elements of [size] bytes: the bytes of the first are 1, those of
    the second 0. *)
Definition ones_then_zeros (size : Z) : mem := fun a => if a <? size then 1 else 0.

(** Three elements of [size] bytes: bytes 1, then bytes 2, then bytes 3. *)
Definition three_runs (size : Z) : mem :=
  fun a => if a <? size then 1 else if a <? 2 * size then 2 else 3.

(** Two 2-byte elements with the same first byte. *)
Definition tied_pair : mem := mem_of_list [1; 0; 1; 1].


(** ** Notions of the further properties *)

(** [value] is a power of two that fits an [NvU64]. *)
Definition pow2_64 (value : Z) : Prop := exists k, 0 <= k < 64 /\ value = 2 ^ k.

(** The characters [nvStrToL] takes for digits in base [base], with
    their values: [0-9] in every base, [a-f] and [A-F] in base 16. *)
Definition strtol_digit (base c : Z) : option Z :=
  if (48 <=? c) && (c <=? 57) then Some (c - 48)
  else if (base =? 16) && (97 <=? c) && (c <=? 102) then Some (c - 97 + 10)
  else if (base =? 16) && (65 <=? c) && (c <=? 70) then Some (c - 65 + 10)
  else None.

(** The number a string of such digits denotes in base [base]. *)
Definition strtol_value (base : Z) (cs : list Z) : Z :=
  fold_left
    (fun acc c => acc * base + match strtol_digit base c with
                               | Some d => d
                               | None => 0
                               end) cs 0.

(** A character the scan for the start of the number steps over. *)
Definition skipped (base stopChar c : Z) : Prop :=
  c <> 0 /\ strtol_digit base c = None /\ c <> stopChar.

(** The words of a bit field are 32 bits wide. *)
Definition words32 (f : mem) : Prop := forall w, 0 <= f w < 2 ^ 32.

(** A byte of a buffer lies inside a logged write of the given kind. *)
Definition in_scratch_write (a : Z) (e : event) : Prop :=
  match e with
  | ScratchWrite off len => off <= a < off + len
  | CopyBack _ _ _ _ => False
  end.

Definition in_copy_back (a : Z) (e : event) : Prop :=
  match e with
  | ScratchWrite _ _ => False
  | CopyBack off len _ _ => off <= a < off + len
  end.

(** What two runs yield is related by [Q], and one returns when the
    other does; what two bodies yield is related by [R] when the loop
    goes on and by [Q] when it stops. *)
Definition option_rel {S T : Type} (Q : S -> T -> Prop) (a : option S)
  (b : option T) : Prop :=
  match a, b with
  | Some s, Some t => Q s t
  | None, None => True
  | _, _ => False
  end.

Definition ctl_rel {S T : Type} (R Q : S -> T -> Prop) (a : option (ctl S))
  (b : option (ctl T)) : Prop :=
  match a, b with
  | Some (Continue s), Some (Continue t) => R s t
  | Some (Break s), Some (Break t) => Q s t
  | None, None => True
  | _, _ => False
  end.

(** The trace tells what was written: a byte of the scratch buffer that
    lies in no logged write to it is what it was at the call, and so is
    a byte of the array that lies in no logged copy back. *)
Definition faithful (arr0 tmp0 arr tmp : mem) (log : list event) : Prop :=
  forall a,
    ((forall e, In e log -> ~ in_scratch_write a e) -> tmp a = tmp0 a)
    /\ ((forall e, In e log -> ~ in_copy_back a e) -> arr a = arr0 a).

(** Two merges that run side by side on scratch buffers of different
    content: they are at the same point, and the part of the scratch
    buffers they have written is the same. *)
Definition merge_rel (s1 s2 : mstate) : Prop :=
  lo s1 = lo s2 /\ hi s1 = hi s2 /\ dest s1 = dest s2 /\ wlog s1 = wlog s2
  /\ 0 <= dest s1
  /\ forall a, 0 <= a < dest s1 -> tmp s1 a = tmp s2 a.

(** Two states of the sort with the same array and the same trace. *)
Definition same_outcome (st1 st2 : sstate) : Prop :=
  (forall a, array st1 a = array st2 a) /\ trace st1 = trace st2.

(** The number of writes to the scratch buffer in a trace: one for every
    element a merge moves. *)
Fixpoint scratch_writes (log : list event) : Z :=
  match log with
  | [] => 0
  | ScratchWrite _ _ :: log' => 1 + scratch_writes log'
  | CopyBack _ _ _ _ :: log' => scratch_writes log'
  end.

(** Invariant of the loops of the merge of [i, loMax) and [loMax, hiMax)
    that counts the writes: [c0] before the merge, and one for every
    element passed since. *)
Definition count_inv (i loMax hiMax c0 : Z) (s : mstate) : Prop :=
  i <= lo s <= loMax /\ loMax <= hi s <= hiMax
  /\ scratch_writes (wlog s) = c0 + (lo s - i) + (hi s - loMax).
(** * Properties *)

(** ** Machine integers, memory and loops *)

Lemma u32_range x : 0 <= u32 x < 2 ^ 32.
Proof. apply Z.mod_pos_bound. lia. Qed.

Lemma u32_small x : 0 <= x < 2 ^ 32 -> u32 x = x.
Proof. apply Z.mod_small. Qed.

Lemma not32_testbit z k :
  0 <= k -> Z.testbit (not32 z) k = (k <? 32) && negb (Z.testbit z k).
Proof.
  intros Hk. unfold not32, u32.
  rewrite Z.testbit_mod_pow2 by lia.
  rewrite Z.lnot_spec by lia. reflexivity.
Qed.

Lemma not64_testbit z k :
  0 <= k -> Z.testbit (not64 z) k = (k <? 64) && negb (Z.testbit z k).
Proof.
  intros Hk. unfold not64, u64.
  rewrite Z.testbit_mod_pow2 by lia.
  rewrite Z.lnot_spec by lia. reflexivity.
Qed.

Section Tab.
Context {A : Type}.
Implicit Types (f g : Z -> A).

Lemma tab_length f k cnt : length (tab f k cnt) = Z.to_nat cnt.
Proof. unfold tab. rewrite length_map, length_seq. reflexivity. Qed.

Lemma tab_nil f k cnt : cnt <= 0 -> tab f k cnt = [].
Proof.
  intros H. unfold tab. replace (Z.to_nat cnt) with O by lia. reflexivity.
Qed.

Lemma tab_ext2 f g k k' cnt :
  (forall j, 0 <= j < cnt -> f (k + j) = g (k' + j)) ->
  tab f k cnt = tab g k' cnt.
Proof.
  intros H. unfold tab. apply map_ext_in. intros j Hj.
  apply in_seq in Hj. apply H. lia.
Qed.

Lemma tab_ext f g k cnt :
  (forall a, k <= a < k + cnt -> f a = g a) -> tab f k cnt = tab g k cnt.
Proof. intros H. apply tab_ext2. intros j Hj. apply H. lia. Qed.

Lemma map_seq_from (h : nat -> A) (n : nat) : forall s,
  map h (seq s n) = map (fun j => h (s + j)%nat) (seq 0 n).
Proof.
  intros s. rewrite <- (Nat.add_0_r s) at 1. generalize 0%nat as o.
  induction n as [|n IH]; intros o; [reflexivity|].
  simpl. f_equal. rewrite <- IH. f_equal. f_equal. lia.
Qed.

Lemma tab_app f k a b :
  0 <= a -> 0 <= b -> tab f k (a + b) = tab f k a ++ tab f (k + a) b.
Proof.
  intros Ha Hb. unfold tab.
  rewrite Z2Nat.inj_add, seq_app, map_app by lia.
  f_equal. rewrite map_seq_from.
  apply map_ext. intros j. f_equal. lia.
Qed.

Lemma tab_one f k : tab f k 1 = [f k].
Proof. unfold tab. simpl. rewrite Z.add_0_r. reflexivity. Qed.

Lemma tab_snoc f k a : 0 <= a -> tab f k (a + 1) = tab f k a ++ [f (k + a)].
Proof. intros Ha. rewrite tab_app, tab_one by lia. reflexivity. Qed.

Lemma tab_cons f k a : 0 < a -> tab f k a = f k :: tab f (k + 1) (a - 1).
Proof.
  intros Ha. replace a with (1 + (a - 1)) at 1 by lia.
  rewrite tab_app, tab_one by lia. reflexivity.
Qed.

Lemma tab_nth f k cnt j d :
  0 <= j < cnt -> nth (Z.to_nat j) (tab f k cnt) d = f (k + j).
Proof.
  intros Hj. unfold tab.
  rewrite (nth_indep _ d (f (k + Z.of_nat 0))) by (rewrite length_map, length_seq; lia).
  rewrite (map_nth (fun j => f (k + Z.of_nat j))), seq_nth by lia.
  f_equal. lia.
Qed.
End Tab.

Lemma read_length m off len : length (read m off len) = Z.to_nat len.
Proof. apply tab_length. Qed.

Lemma read_one m off : read m off 1 = [m off].
Proof. apply tab_one. Qed.

Lemma read_snoc m off a :
  0 <= a -> read m off (a + 1) = read m off a ++ [m (off + a)].
Proof. apply tab_snoc. Qed.

Lemma store_same m a v : store m a v a = v.
Proof. unfold store. rewrite Z.eqb_refl. reflexivity. Qed.

Lemma store_other m a v x : x <> a -> store m a v x = m x.
Proof. intros H. unfold store. destruct (Z.eqb_spec x a); [contradiction|reflexivity]. Qed.

Lemma read_store_out m a v off len :
  a < off \/ off + len <= a -> read (store m a v) off len = read m off len.
Proof. intros H. apply tab_ext. intros x Hx. apply store_other. lia. Qed.

Lemma read_store_snoc m a v :
  0 <= a -> read (store m a v) 0 (a + 1) = read m 0 a ++ [v].
Proof.
  intros Ha. rewrite read_snoc by lia.
  rewrite read_store_out by lia. rewrite Z.add_0_l, store_same. reflexivity.
Qed.

Lemma loop_S {S : Type} (body : S -> option (ctl S)) (fuel : nat) (s : S) :
  loop body (Datatypes.S fuel) s
  = match body s with
    | None => None
    | Some (Break s') => Some s'
    | Some (Continue s') => loop body fuel s'
    end.
Proof. reflexivity. Qed.

Lemma loop_total {S : Type} (body : S -> option (ctl S))
  (Inv Post : S -> Prop) (measure : S -> nat) :
  (forall s, Inv s ->
     exists r, body s = Some r
       /\ match r with
          | Continue s' => Inv s' /\ (measure s' < measure s)%nat
          | Break s' => Post s'
          end) ->
  forall fuel s, Inv s -> (measure s < fuel)%nat ->
    exists s', loop body fuel s = Some s' /\ Post s'.
Proof.
  intros Hstep. induction fuel as [|fuel IH]; intros s Hinv Hm; [lia|].
  rewrite loop_S. destruct (Hstep s Hinv) as [r [-> Hr]].
  destruct r as [s'|s'].
  - apply IH; [apply Hr|lia].
  - exists s'. split; [reflexivity|exact Hr].
Qed.

Lemma portMemCopy_in dst doff src soff len a :
  doff <= a < doff + len ->
  portMemCopy dst doff src soff len a = src (soff + (a - doff)).
Proof.
  intros H. unfold portMemCopy.
  replace (doff <=? a) with true by (symmetry; apply Z.leb_le; lia).
  replace (a <? doff + len) with true by (symmetry; apply Z.ltb_lt; lia).
  reflexivity.
Qed.

Lemma portMemCopy_out dst doff src soff len a :
  a < doff \/ doff + len <= a ->
  portMemCopy dst doff src soff len a = dst a.
Proof.
  intros H. unfold portMemCopy.
  destruct (Z.leb_spec doff a), (Z.ltb_spec a (doff + len)); simpl; try reflexivity; lia.
Qed.

Lemma loop_mono {S : Type} (body body' : S -> option (ctl S)) :
  (forall s r, body s = Some r -> body' s = Some r) ->
  forall f f' s r, (f <= f')%nat ->
    loop body f s = Some r -> loop body' f' s = Some r.
Proof.
  intros Hb. induction f as [|f IH]; intros f' s r Hle H; [discriminate|].
  destruct f' as [|f']; [lia|]. rewrite loop_S in *.
  destruct (body s) as [c|] eqn:E; [|discriminate].
  rewrite (Hb _ _ E). destruct c; [apply IH; [lia|exact H]|exact H].
Qed.

(** Partial correctness of a loop: an invariant kept by the body holds of
    the state a run that returns ends in. *)
Lemma loop_inv {S : Type} (body : S -> option (ctl S)) (Inv Post : S -> Prop) :
  (forall s r, Inv s -> body s = Some r ->
     match r with Continue s' => Inv s' | Break s' => Post s' end) ->
  forall fuel s r, Inv s -> loop body fuel s = Some r -> Post r.
Proof.
  intros Hstep. induction fuel as [|fuel IH]; intros s r Hinv H; [discriminate|].
  rewrite loop_S in H. destruct (body s) as [c|] eqn:E; [|discriminate].
  pose proof (Hstep s c Hinv E) as Hc. destruct c as [s'|s'].
  - apply (IH s'); assumption.
  - injection H as <-. exact Hc.
Qed.

(** ** [nvMsb64] *)

Section Msb64.
Variable x : Z.

Lemma smeared_init : smeared x 1 x.
Proof.
  intros k Hk; split.
  - intros H; exists k; split; [lia | exact H].
  - intros [j [Hj H]]. replace k with j by lia. exact H.
Qed.

Lemma smeared_step w y :
  0 < w -> smeared x w y -> smeared x (2 * w) (Z.lor y (Z.shiftr y w)).
Proof.
  intros Hw Hy k Hk.
  rewrite Z.lor_spec, Z.shiftr_spec, orb_true_iff by lia.
  rewrite (Hy k Hk), (Hy (k + w)) by lia.
  split.
  - intros [[j [Hj H]] | [j [Hj H]]]; exists j; split; (lia || exact H).
  - intros [j [Hj H]].
    destruct (Z_lt_ge_dec j (k + w)); [left | right]; exists j; split; (lia || exact H).
Qed.

Lemma smeared_all :
  smeared x 64
    (let x := Z.lor x (Z.shiftr x 1) in
     let x := Z.lor x (Z.shiftr x 2) in
     let x := Z.lor x (Z.shiftr x 4) in
     let x := Z.lor x (Z.shiftr x 8) in
     let x := Z.lor x (Z.shiftr x 16) in
     Z.lor x (Z.shiftr x 32)).
Proof.
  cbv zeta.
  repeat (apply (smeared_step 1) || apply (smeared_step 2) || apply (smeared_step 4)
          || apply (smeared_step 8) || apply (smeared_step 16) || apply (smeared_step 32); [lia|]).
  apply smeared_init.
Qed.
End Msb64.

Lemma nvMsb64_testbit x k :
  0 < x < 2 ^ 64 -> 0 <= k ->
  Z.testbit (nvMsb64 x) k = (k =? Z.log2 x).
Proof.
  intros Hx Hk.
  assert (HL : 0 <= Z.log2 x < 64).
  { split; [apply Z.log2_nonneg|]. apply Z.log2_lt_pow2; lia. }
  pose proof (smeared_all x) as Hs. cbv zeta in Hs.
  unfold nvMsb64. cbv zeta.
  set (y := Z.lor _ (Z.shiftr _ 32)) in *.
  assert (Hy : forall i, 0 <= i -> Z.testbit y i = (i <=? Z.log2 x)).
  { intros i Hi. apply eq_true_iff_eq. rewrite (Hs i Hi), Z.leb_le. split.
    - intros [j [Hj H]]. destruct (Z_le_gt_dec j (Z.log2 x)); [lia|].
      rewrite Z.bits_above_log2 in H by lia. discriminate.
    - intros Hle. exists (Z.log2 x). split; [lia|]. apply Z.bit_log2. lia. }
  rewrite Z.land_spec, not64_testbit, Z.shiftr_spec by lia.
  rewrite !Hy by lia.
  destruct (Z.leb_spec k (Z.log2 x)), (Z.leb_spec (k + 1) (Z.log2 x)),
    (Z.ltb_spec k 64), (Z.eqb_spec k (Z.log2 x)); simpl; try reflexivity; lia.
Qed.

(** C9: for every 64-bit [x], [nvMsb64 x] is [x] with only its most
    significant set bit retained, that is [2 ^ log2 x] when [x] is not
    zero, and [nvMsb64 0 = 0]; [0b0110] yields [0b0100]. *)
Theorem nvMsb64_spec (x : Z) :
  0 <= x < 2 ^ 64 ->
  nvMsb64 x = (if x =? 0 then 0 else 2 ^ Z.log2 x)
  /\ nvMsb64 0 = 0 /\ nvMsb64 6 = 4.
Proof.
  intros Hx. split; [|split; reflexivity].
  destruct (Z.eqb_spec x 0) as [->|Hnz]; [reflexivity|].
  apply Z.bits_inj'. intros k Hk.
  rewrite nvMsb64_testbit by lia.
  rewrite Z.pow2_bits_eqb by apply Z.log2_nonneg.
  apply Z.eqb_sym.
Qed.

Lemma nvMsb64_spec_witness :
  nvMsb64 40 = (if 40 =? 0 then 0 else 2 ^ Z.log2 40)
  /\ nvMsb64 0 = 0 /\ nvMsb64 6 = 4.
Proof. apply (nvMsb64_spec 40). lia. Defined.
(** ** Bit fields *)

Lemma NVBIT_pow2 b : 0 <= b < 32 -> NVBIT b = 2 ^ b.
Proof.
  intros Hb. unfold NVBIT, u32. rewrite Z.shiftl_1_l.
  apply Z.mod_small. split; [apply Z.pow_nonneg; lia|].
  apply Z.pow_lt_mono_r; lia.
Qed.

Lemma land_NVBIT_test w b :
  0 <= b < 32 -> negb (Z.land w (NVBIT b) =? 0) = Z.testbit w b.
Proof.
  intros Hb. rewrite NVBIT_pow2 by assumption.
  destruct (Z.testbit w b) eqn:Hw.
  - destruct (Z.eqb_spec (Z.land w (2 ^ b)) 0) as [E|]; [|reflexivity].
    assert (H : Z.testbit (Z.land w (2 ^ b)) b = true).
    { rewrite Z.land_spec, Hw, Z.pow2_bits_true by lia. reflexivity. }
    rewrite E, Z.bits_0 in H. discriminate.
  - replace (Z.land w (2 ^ b)) with 0; [reflexivity|].
    symmetry. apply Z.bits_inj'. intros k Hk.
    rewrite Z.land_spec, Z.bits_0, Z.pow2_bits_eqb by lia.
    destruct (Z.eqb_spec b k) as [<-|]; [rewrite Hw|rewrite andb_false_r]; reflexivity.
Qed.

Lemma set_word_testbit w b (v : bool) k :
  0 <= b < 32 -> 0 <= k < 32 ->
  Z.testbit (Z.lor (Z.land w (not32 (NVBIT b))) (if v then NVBIT b else 0)) k
  = if k =? b then v else Z.testbit w k.
Proof.
  intros Hb Hk. rewrite NVBIT_pow2 by assumption.
  rewrite Z.lor_spec, Z.land_spec, not32_testbit by lia.
  rewrite Z.pow2_bits_eqb by lia.
  replace (k <? 32) with true by (symmetry; apply Z.ltb_lt; lia).
  rewrite (Z.eqb_sym b k).
  destruct (Z.eqb_spec k b) as [->|Hne].
  - destruct v.
    + rewrite Z.pow2_bits_true by lia. apply orb_true_r.
    + rewrite Z.bits_0. simpl. rewrite andb_false_r. reflexivity.
  - simpl. rewrite andb_true_r.
    destruct v.
    + rewrite Z.pow2_bits_false by lia. apply orb_false_r.
    + rewrite Z.bits_0. apply orb_false_r.
Qed.

(** C10, amended: for a bit index [bit] that passes the range test of the
    source, [bit < count * 32] computed on [NvU32] (for a field of fewer
    than [2^32] bits, the indices below [count * 32]): after
    [nvBitFieldSet(field, count, bit, v)], [nvBitFieldTest] of [bit]
    returns [v], the test of every other bit index is what it was, and
    every word other than word [bit / 32] is unchanged. *)
Theorem nvBitFieldSet_Test (pBitField : mem) (count bit : Z) (v : bool) :
  0 <= bit < u32 (count * 32) ->
  nvBitFieldTest (nvBitFieldSet pBitField count bit v) count bit = v
  /\ (forall bit', 0 <= bit' -> bit' <> bit ->
        nvBitFieldTest (nvBitFieldSet pBitField count bit v) count bit'
        = nvBitFieldTest pBitField count bit')
  /\ (forall w, w <> bit / 32 ->
        nvBitFieldSet pBitField count bit v w = pBitField w).
Proof.
  intros Hbit.
  assert (Hm : 0 <= bit mod 32 < 32) by (apply Z.mod_pos_bound; lia).
  split; [|split].
  - unfold nvBitFieldTest.
    replace (bit <? u32 (count * 32)) with true by (symmetry; apply Z.ltb_lt; lia).
    rewrite land_NVBIT_test by assumption.
    unfold nvBitFieldSet, store. rewrite Z.eqb_refl.
    rewrite set_word_testbit by assumption. rewrite Z.eqb_refl. reflexivity.
  - intros bit' Hpos Hne. unfold nvBitFieldTest.
    destruct (bit' <? u32 (count * 32)); [|reflexivity].
    assert (Hm' : 0 <= bit' mod 32 < 32) by (apply Z.mod_pos_bound; lia).
    rewrite !land_NVBIT_test by assumption.
    unfold nvBitFieldSet, store.
    destruct (Z.eqb_spec (bit' / 32) (bit / 32)) as [E|]; [|reflexivity].
    rewrite set_word_testbit by assumption.
    destruct (Z.eqb_spec (bit' mod 32) (bit mod 32)) as [E'|]; [|rewrite E; reflexivity].
    exfalso. apply Hne.
    rewrite (Z.div_mod bit' 32), (Z.div_mod bit 32) by lia. rewrite E, E'. reflexivity.
  - intros w Hw. unfold nvBitFieldSet, store.
    destruct (Z.eqb_spec w (bit / 32)); [contradiction|reflexivity].
Qed.

Lemma nvBitFieldSet_Test_witness :
  nvBitFieldTest (nvBitFieldSet (fun _ => 0) 2 37 true) 2 37 = true
  /\ (forall bit', 0 <= bit' -> bit' <> 37 ->
        nvBitFieldTest (nvBitFieldSet (fun _ => 0) 2 37 true) 2 bit'
        = nvBitFieldTest (fun _ => 0) 2 bit')
  /\ (forall w, w <> 37 / 32 ->
        nvBitFieldSet (fun _ => 0) 2 37 true w = (fun _ => 0) w).
Proof.
  apply (nvBitFieldSet_Test (fun _ => 0) 2 37 true). vm_compute. split; [discriminate|reflexivity].
Defined.

(** C10 as stated fails for a field of [2^27] words: [count * 32] is 0 on
    [NvU32], and the test of bit 0, an index below [2^27 * 32], returns
    false after the bit was set. *)
Lemma nvBitFieldTest_wide_field :
  0 <= 0 < 2 ^ 27 * 32
  /\ nvBitFieldTest (nvBitFieldSet (fun _ => 0) (2 ^ 27) 0 true) (2 ^ 27) 0 = false.
Proof. split; [lia|reflexivity]. Qed.

Lemma not32_zero_iff w : not32 w = 0 <-> all_ones w.
Proof.
  split.
  - intros H k Hk.
    assert (E : Z.testbit (not32 w) k = false) by (rewrite H; apply Z.bits_0).
    rewrite not32_testbit in E by lia.
    replace (k <? 32) with true in E by (symmetry; apply Z.ltb_lt; lia).
    destruct (Z.testbit w k); [reflexivity|discriminate].
  - intros H. apply Z.bits_inj'. intros k Hk.
    rewrite not32_testbit, Z.bits_0 by lia.
    destruct (Z.ltb_spec k 32); [|reflexivity].
    rewrite H by lia. reflexivity.
Qed.

Lemma lowest_from_spec t left k :
  0 <= k ->
  (exists j, k <= j < k + Z.of_nat left /\ Z.testbit t j = true) ->
  let r := lowest_from t k left in
  k <= r < k + Z.of_nat left /\ Z.testbit t r = true
  /\ forall j, k <= j < r -> Z.testbit t j = false.
Proof.
  revert k. induction left as [|left IH]; intros k Hk [j [Hj Hb]]; [lia|].
  simpl lowest_from. destruct (Z.testbit t k) eqn:E.
  - cbv zeta. repeat split; try lia. exact E.
  - destruct (IH (k + 1)) as (H1 & H2 & H3); [lia| |].
    + exists j. split; [|exact Hb].
      assert (j <> k) by (intros ->; congruence). lia.
    + cbv zeta. repeat split; try lia; [exact H2|].
      intros j' Hj'. destruct (Z.eq_dec j' k) as [->|]; [exact E|apply H3; lia].
Qed.

Lemma nonzero_has_bit t :
  0 < t < 2 ^ 32 -> exists j, 0 <= j < 32 /\ Z.testbit t j = true.
Proof.
  intros Ht. exists (Z.log2 t). split.
  - split; [apply Z.log2_nonneg|apply Z.log2_lt_pow2; lia].
  - apply Z.bit_log2. lia.
Qed.

(** The lowest zero bit of a word that is not all ones. *)
Lemma LOWESTBITIDX_32_not32 w :
  not32 w <> 0 ->
  let r := LOWESTBITIDX_32 (not32 w) in
  0 <= r < 32 /\ Z.testbit w r = false
  /\ forall j, 0 <= j < r -> Z.testbit w j = true.
Proof.
  intros Hnz.
  pose proof (u32_range (Z.lnot w)) as Hr. fold (not32 w) in Hr.
  destruct (lowest_from_spec (not32 w) 32 0) as (H1 & H2 & H3); [lia| |].
  { destruct (nonzero_has_bit (not32 w)) as [j [Hj Hb]]; [lia|].
    exists j. split; [simpl; lia|exact Hb]. }
  fold (LOWESTBITIDX_32 (not32 w)) in *. cbv zeta.
  set (r := LOWESTBITIDX_32 (not32 w)) in *. simpl in H1.
  split; [lia|]. split.
  - rewrite not32_testbit in H2 by lia.
    destruct (Z.testbit w r); [rewrite andb_false_r in H2; discriminate|reflexivity].
  - intros j Hj. specialize (H3 j ltac:(lia)).
    rewrite not32_testbit in H3 by lia.
    replace (j <? 32) with true in H3 by (symmetry; apply Z.ltb_lt; lia).
    destruct (Z.testbit w j); [reflexivity|discriminate].
Qed.

Lemma HIGHESTBITIDX_32_not32 w :
  not32 w <> 0 ->
  let r := HIGHESTBITIDX_32 (not32 w) in
  0 <= r < 32 /\ Z.testbit w r = false
  /\ forall j, r < j < 32 -> Z.testbit w j = true.
Proof.
  intros Hnz.
  pose proof (u32_range (Z.lnot w)) as Hr. fold (not32 w) in Hr.
  unfold HIGHESTBITIDX_32. cbv zeta.
  assert (HL : 0 <= Z.log2 (not32 w) < 32).
  { split; [apply Z.log2_nonneg|apply Z.log2_lt_pow2; lia]. }
  split; [exact HL|]. split.
  - assert (H : Z.testbit (not32 w) (Z.log2 (not32 w)) = true) by (apply Z.bit_log2; lia).
    rewrite not32_testbit in H by lia.
    destruct (Z.testbit w _); [rewrite andb_false_r in H; discriminate|reflexivity].
  - intros j Hj.
    assert (H : Z.testbit (not32 w) j = false) by (apply Z.bits_above_log2; lia).
    rewrite not32_testbit in H by lia.
    replace (j <? 32) with true in H by (symmetry; apply Z.ltb_lt; lia).
    destruct (Z.testbit w j); [reflexivity|discriminate].
Qed.

Section Scan.
Variable pBitField32 : mem.
Variable count : Z.
Hypothesis count_range : 0 <= count < 2 ^ 32.

Lemma lsz_loop_spec (k : nat) :
  forall (fuel : nat) (i : Z),
    0 <= i -> i + Z.of_nat k = count -> (k < fuel)%nat ->
    (forall w, 0 <= w < i -> all_ones (pBitField32 w)) ->
    exists s, loop (lsz_body pBitField32 count) fuel (LSZ i None) = Some s
              /\ lsz_result pBitField32 count (lsz_ret s).
Proof.
  induction k as [|k IH]; intros fuel i Hi Hk Hf Hones;
    (destruct fuel as [|fuel]; [lia|]); simpl loop; unfold lsz_body at 1; simpl lsz_i.
  - replace (i <? count) with false by (symmetry; apply Z.ltb_ge; lia).
    eexists; split; [reflexivity|]. simpl. intros w Hw. apply Hones. lia.
  - replace (i <? count) with true by (symmetry; apply Z.ltb_lt; lia).
    destruct (Z.eqb_spec (not32 (pBitField32 i)) 0) as [E|E]; simpl negb; cbv iota.
    + rewrite u32_small by lia. apply IH; try lia.
      intros w Hw. destruct (Z.eq_dec w i) as [->|]; [|apply Hones; lia].
      apply not32_zero_iff. exact E.
    + eexists; split; [reflexivity|]. simpl.
      destruct (LOWESTBITIDX_32_not32 _ E) as (H1 & H2 & H3).
      exists i, (LOWESTBITIDX_32 (not32 (pBitField32 i))).
      repeat split; try lia; try assumption.
      f_equal. lia.
Qed.

Lemma msz_loop_spec (k : nat) :
  forall (fuel : nat) (i j : Z),
    0 <= i -> i + Z.of_nat k = count -> (k < fuel)%nat ->
    j = u32 (count - 1 - i) ->
    (forall w, count - 1 - i < w < count -> all_ones (pBitField32 w)) ->
    exists s, loop (msz_body pBitField32 count) fuel (MSZ j i None) = Some s
              /\ msz_result pBitField32 count (msz_ret s).
Proof.
  induction k as [|k IH]; intros fuel i j Hi Hk Hf Hj Hones;
    (destruct fuel as [|fuel]; [lia|]); simpl loop; unfold msz_body at 1;
    simpl msz_i; simpl msz_j.
  - replace (i <? count) with false by (symmetry; apply Z.ltb_ge; lia).
    eexists; split; [reflexivity|]. simpl. intros w Hw. apply Hones. lia.
  - replace (i <? count) with true by (symmetry; apply Z.ltb_lt; lia).
    rewrite u32_small in Hj by lia. subst j.
    destruct (Z.eqb_spec (not32 (pBitField32 (count - 1 - i))) 0) as [E|E];
      simpl negb; cbv iota.
    + rewrite (u32_small (i + 1)) by lia. apply IH; try lia.
      * f_equal. lia.
      * intros w Hw. destruct (Z.eq_dec w (count - 1 - i)) as [->|]; [|apply Hones; lia].
        apply not32_zero_iff. exact E.
    + eexists; split; [reflexivity|]. simpl.
      destruct (HIGHESTBITIDX_32_not32 _ E) as (H1 & H2 & H3).
      exists (count - 1 - i), (HIGHESTBITIDX_32 (not32 (pBitField32 (count - 1 - i)))).
      repeat split; try lia; try assumption.
      f_equal. lia.
Qed.
End Scan.

Lemma field_bit_split f j r :
  0 <= r < 32 -> field_bit f (r + j * 32) = Z.testbit (f j) r.
Proof.
  intros Hr. unfold field_bit.
  rewrite Z.div_add, Z.mod_add by lia.
  rewrite Z.div_small, Z.mod_small by lia. reflexivity.
Qed.

Lemma field_bit_word (X : Z) :
  0 <= X -> X = X mod 32 + (X / 32) * 32 /\ 0 <= X mod 32 < 32 /\ 0 <= X / 32.
Proof.
  intros HX. pose proof (Z.div_mod X 32 ltac:(lia)).
  pose proof (Z.mod_pos_bound X 32 ltac:(lia)).
  assert (0 <= X / 32) by (apply Z.div_pos; lia). lia.
Qed.

Lemma all_ones_all_set f count :
  (forall w, 0 <= w < count -> all_ones (f w)) -> all_set f count.
Proof.
  intros H X HX. unfold field_bit.
  destruct (field_bit_word X) as (E & Hr & Hq); [lia|].
  apply H; [|exact Hr]. split; [exact Hq|].
  apply Z.div_lt_upper_bound; lia.
Qed.

(** C7, amended: for a field of fewer than [2^32] bits
    ([count * 32 < 2^32]), [nvBitFieldLSZero] returns the least index
    below [count * 32] of a zero bit and [nvBitFieldMSZero] the greatest,
    and both return [count * 32] when every bit is set; for an all-ones
    field of two words both return 64. *)
Theorem nvBitField_zero_scan (pBitField32 : mem) (count : Z) (fuel : nat) :
  0 <= count -> count * 32 < 2 ^ 32 -> (Z.to_nat count < fuel)%nat ->
  (exists r, nvBitFieldLSZero fuel pBitField32 count = Some r
     /\ (lowest_zero pBitField32 count r
         \/ all_set pBitField32 count /\ r = count * 32))
  /\ (exists r, nvBitFieldMSZero fuel pBitField32 count = Some r
     /\ (highest_zero pBitField32 count r
         \/ all_set pBitField32 count /\ r = count * 32))
  /\ nvBitFieldLSZero 3 (fun _ => 4294967295) 2 = Some 64
  /\ nvBitFieldMSZero 3 (fun _ => 4294967295) 2 = Some 64.
Proof.
  intros Hc Hb Hf. split; [|split; [|split; reflexivity]].
  - destruct (lsz_loop_spec pBitField32 count ltac:(lia) (Z.to_nat count) fuel 0)
      as [s [Hs Hr]]; try lia.
    unfold nvBitFieldLSZero. rewrite Hs.
    destruct (lsz_ret s) as [x|]; simpl in Hr.
    + destruct Hr as (j & r & -> & Hj & Hr & Hones & Hz & Hlow).
      eexists; split; [reflexivity|]. left.
      rewrite u32_small by lia.
      split; [lia|]. split; [rewrite field_bit_split by lia; exact Hz|].
      intros X HX. destruct (field_bit_word X) as (E & Hm & Hq); [lia|].
      unfold field_bit.
      destruct (Z_lt_ge_dec (X / 32) j); [apply Hones; lia|].
      replace (X / 32) with j by lia. apply Hlow. lia.
    + eexists; split; [reflexivity|]. right.
      split; [apply all_ones_all_set; exact Hr|apply u32_small; lia].
  - destruct (msz_loop_spec pBitField32 count ltac:(lia) (Z.to_nat count) fuel 0 (u32 (count - 1)))
      as [s [Hs Hr]]; try lia.
    { f_equal. lia. }
    unfold nvBitFieldMSZero. rewrite Hs.
    destruct (msz_ret s) as [x|]; simpl in Hr.
    + destruct Hr as (j & r & -> & Hj & Hr & Hones & Hz & Hhigh).
      eexists; split; [reflexivity|]. left.
      rewrite u32_small by lia.
      split; [lia|]. split; [rewrite field_bit_split by lia; exact Hz|].
      intros X HX. destruct (field_bit_word X) as (E & Hm & Hq); [lia|].
      unfold field_bit.
      assert (X / 32 < count) by (apply Z.div_lt_upper_bound; lia).
      destruct (Z_lt_ge_dec j (X / 32)); [apply Hones; lia|].
      replace (X / 32) with j by lia. apply Hhigh. lia.
    + eexists; split; [reflexivity|]. right.
      split; [apply all_ones_all_set; exact Hr|apply u32_small; lia].
Qed.

Lemma nvBitField_zero_scan_witness :
  (exists r, nvBitFieldLSZero 4 (mem_of_list [4294967295; 4294967223]) 2 = Some r
     /\ (lowest_zero (mem_of_list [4294967295; 4294967223]) 2 r
         \/ all_set (mem_of_list [4294967295; 4294967223]) 2 /\ r = 2 * 32))
  /\ (exists r, nvBitFieldMSZero 4 (mem_of_list [4294967295; 4294967223]) 2 = Some r
     /\ (highest_zero (mem_of_list [4294967295; 4294967223]) 2 r
         \/ all_set (mem_of_list [4294967295; 4294967223]) 2 /\ r = 2 * 32))
  /\ nvBitFieldLSZero 3 (fun _ => 4294967295) 2 = Some 64
  /\ nvBitFieldMSZero 3 (fun _ => 4294967295) 2 = Some 64.
Proof.
  apply (nvBitField_zero_scan (mem_of_list [4294967295; 4294967223]) 2 4);
    [lia | reflexivity | simpl; lia].
Defined.

(** C7 as stated fails on a field of [2^27 + 1] words: the lowest zero
    bit of [wide_field] has index [2^32], and the scan returns [0], the
    index of a bit that is set, which is not [count * 32] either. It
    fails on a field of [2^27] words that are all ones, too: the scan
    returns [0] and not [2^27 * 32]. *)
Lemma nvBitFieldLSZero_wide_field :
  (exists fuel,
      nvBitFieldLSZero fuel wide_field (2 ^ 27 + 1) = Some 0
      /\ field_bit wide_field 0 = true
      /\ lowest_zero wide_field (2 ^ 27 + 1) (2 ^ 32)
      /\ 0 <> (2 ^ 27 + 1) * 32)
  /\ (exists fuel,
      nvBitFieldLSZero fuel (fun _ => 4294967295) (2 ^ 27) = Some 0
      /\ all_set (fun _ => 4294967295) (2 ^ 27)
      /\ 0 <> 2 ^ 27 * 32).
Proof.
  assert (Hones : forall w r, w < 2 ^ 27 -> 0 <= r < 32 -> Z.testbit (wide_field w) r = true).
  { intros w r Hw Hr. unfold wide_field.
    replace (w <? 2 ^ 27) with true by (symmetry; apply Z.ltb_lt; lia).
    change (2 ^ 32 - 1) with (Z.ones 32). apply Z.ones_spec_low. lia. }
  assert (Hzero : forall w r, 2 ^ 27 <= w -> Z.testbit (wide_field w) r = false).
  { intros w r Hw. unfold wide_field.
    replace (w <? 2 ^ 27) with false by (symmetry; apply Z.ltb_ge; lia).
    apply Z.bits_0. }
  split.
  - exists (S (Z.to_nat (2 ^ 27 + 1))).
    split; [|split; [|split]].
    + destruct (lsz_loop_spec wide_field (2 ^ 27 + 1) ltac:(lia) (Z.to_nat (2 ^ 27 + 1))
                  (S (Z.to_nat (2 ^ 27 + 1))) 0) as [s [Hs Hr]].
      * lia.
      * rewrite Z2Nat.id; lia.
      * apply Nat.lt_succ_diag_r.
      * intros w Hw; lia.
      * unfold nvBitFieldLSZero. rewrite Hs.
        destruct (lsz_ret s) as [x|]; simpl in Hr.
        -- destruct Hr as (j & r & -> & Hj & Hr & Hbelow & Hz & Hlow).
           assert (j = 2 ^ 27).
           { destruct (Z_lt_ge_dec j (2 ^ 27)) as [Hlt|Hge].
             - rewrite Hones in Hz by lia. discriminate.
             - destruct (Z.eq_dec j (2 ^ 27)); [assumption|].
               specialize (Hbelow (2 ^ 27) ltac:(lia) 0 ltac:(lia)).
               rewrite Hzero in Hbelow by lia. discriminate. }
           assert (r = 0).
           { destruct (Z.eq_dec r 0); [assumption|].
             specialize (Hlow 0 ltac:(lia)). rewrite Hzero in Hlow by lia. discriminate. }
           subst j r. reflexivity.
        -- specialize (Hr (2 ^ 27) ltac:(lia) 0 ltac:(lia)).
           rewrite Hzero in Hr by lia. discriminate.
    + reflexivity.
    + split; [lia|]. split; [reflexivity|].
      intros X HX. unfold field_bit.
      destruct (field_bit_word X) as (E & Hm & Hq); [lia|].
      apply Hones; [|exact Hm]. apply Z.div_lt_upper_bound; lia.
    + lia.
  - assert (Hall : forall w : Z, all_ones ((fun _ : Z => 4294967295) w)).
    { intros w k Hk. change 4294967295 with (Z.ones 32). apply Z.ones_spec_low. lia. }
    exists (S (Z.to_nat (2 ^ 27))).
    split; [|split].
    + destruct (lsz_loop_spec (fun _ => 4294967295) (2 ^ 27) ltac:(lia) (Z.to_nat (2 ^ 27))
                  (S (Z.to_nat (2 ^ 27))) 0) as [s [Hs Hr]].
      * lia.
      * rewrite Z2Nat.id; lia.
      * apply Nat.lt_succ_diag_r.
      * intros w Hw; lia.
      * unfold nvBitFieldLSZero. rewrite Hs.
        destruct (lsz_ret s) as [x|]; simpl in Hr.
        -- destruct Hr as (j & r & _ & _ & Hr & _ & Hz & _).
           rewrite (Hall j r Hr) in Hz. discriminate.
        -- reflexivity.
    + apply all_ones_all_set. intros w _. exact (Hall w).
    + lia.
Qed.
(** ** [nvU32ToStr] *)

Section Digits.
Variable base : Z.
Hypothesis base_range : 2 <= base <= 36.

Lemma digit_char_value i :
  0 <= i < base -> is_digit base (digit_char i) /\ digit_value (digit_char i) = i
                   /\ (i <> 0 -> digit_char i <> 48).
Proof.
  intros Hi. unfold is_digit, digit_char, digit_value.
  destruct (Z.ltb_spec i 10).
  - rewrite Z.mod_small by lia.
    replace ((48 <=? i + 48) && (i + 48 <=? 57)) with true
      by (symmetry; apply andb_true_iff; split; apply Z.leb_le; lia).
    repeat split; lia.
  - rewrite Z.mod_small by lia.
    replace ((48 <=? i + (97 - 10)) && (i + (97 - 10) <=? 57)) with false
      by (symmetry; apply andb_false_iff; right; apply Z.leb_gt; lia).
    replace ((97 <=? i + (97 - 10)) && (i + (97 - 10) <=? 122)) with true
      by (symmetry; apply andb_true_iff; split; apply Z.leb_le; lia).
    repeat split; lia.
Qed.

Lemma digits_value_snoc cs c :
  digits_value base (cs ++ [c]) = digits_value base cs * base + digit_value c.
Proof. unfold digits_value. rewrite fold_left_app. reflexivity. Qed.

Lemma div_base_lt v k : 0 <= v < 2 ^ Z.of_nat (S k) -> 0 <= v / base < 2 ^ Z.of_nat k.
Proof.
  intros Hv. split; [apply Z.div_pos; lia|].
  apply Z.div_lt_upper_bound; [lia|].
  rewrite Nat2Z.inj_succ, Z.pow_succ_r in Hv by lia.
  assert (0 < 2 ^ Z.of_nat k) by (apply Z.pow_pos_nonneg; lia). nia.
Qed.

Lemma lsf_digits_spec k : forall v,
  0 <= v < 2 ^ Z.of_nat k -> (0 < k)%nat ->
  let l := lsf_digits k base v in
  Forall (is_digit base) l
  /\ digits_value base (rev l) = v
  /\ (1 <= length l <= k)%nat
  /\ (v <> 0 -> last l 0 <> 48).
Proof.
  induction k as [|k IH]; intros v Hv Hk; [lia|]. simpl lsf_digits. cbv zeta.
  pose proof (Z.mod_pos_bound v base ltac:(lia)) as Hm.
  pose proof (Z.div_mod v base ltac:(lia)) as Hdm.
  destruct (digit_char_value (v mod base) Hm) as (Hd & Hval & Hnz).
  destruct (Z.eqb_spec (v / base) 0) as [E|E].
  - repeat split.
    + constructor; [exact Hd|constructor].
    + simpl. unfold digits_value. simpl. lia.
    + simpl; lia.
    + simpl; lia.
    + simpl. intros Hv0. apply Hnz. lia.
  - pose proof (div_base_lt v k Hv) as Hq.
    assert (Hk' : (0 < k)%nat).
    { destruct k; [|lia]. simpl in Hq. lia. }
    destruct (IH (v / base) Hq Hk') as (H1 & H2 & H3 & H4).
    repeat split.
    + constructor; assumption.
    + change (rev (?a :: ?l)) with (rev l ++ [a]).
      rewrite digits_value_snoc, H2, Hval. lia.
    + simpl; lia.
    + simpl; lia.
    + intros _. specialize (H4 E).
      destruct (lsf_digits k base (v / base)) eqn:El; [simpl in H3; lia|].
      exact H4.
Qed.

Lemma lsf_digits_zero k : lsf_digits (S k) base 0 = [48].
Proof. reflexivity. Qed.

Lemma digits_loop_spec k : forall (fuel : nat) (v tp : Z) (tmp : mem),
  1 <= tp -> 0 <= v < 2 ^ Z.of_nat k -> (k < fuel)%nat ->
  exists s, loop (digits_body base) fuel (DState v tp tmp) = Some s
    /\ read (dtmp s) 0 (dtp s)
       = read tmp 0 tp ++ (if v =? 0 then [] else lsf_digits k base v)
    /\ 0 <= dtp s.
Proof.
  induction k as [|k IH]; intros fuel v tp tmp Htp Hv Hf;
    (destruct fuel as [|fuel]; [lia|]); rewrite loop_S; unfold digits_body at 1;
    cbn [dv dtp dtmp].
  - replace v with 0 by (simpl in Hv; lia).
    replace (tp =? 0) with false by (symmetry; apply Z.eqb_neq; lia).
    simpl. eexists; split; [reflexivity|]. simpl. rewrite app_nil_r. split; [reflexivity|lia].
  - destruct (Z.eqb_spec v 0) as [->|Hnz].
    + replace (tp =? 0) with false by (symmetry; apply Z.eqb_neq; lia).
      simpl. eexists; split; [reflexivity|]. simpl. rewrite app_nil_r. split; [reflexivity|lia].
    + simpl orb. cbv iota.
      destruct (IH fuel (v / base) (tp + 1)
                  (store tmp tp ((v mod base + (if v mod base <? 10 then 48 else 97 - 10)) mod 256)))
        as (s & Hs & Hr & Hp); [lia|apply div_base_lt; exact Hv|lia|].
      exists s. split; [exact Hs|]. split; [|exact Hp].
      rewrite Hr, read_store_snoc by lia.
      rewrite <- app_assoc. reflexivity.
Qed.
End Digits.

Lemma reverse_loop_spec (tmp : mem) (k : nat) :
  forall (fuel : nat) (sp : Z) (string : mem),
    0 <= sp -> (k < fuel)%nat ->
    exists s, loop (reverse_body tmp) fuel (RState (Z.of_nat k) sp string) = Some s
      /\ rsp s = sp + Z.of_nat k
      /\ read (rstring s) 0 (rsp s) = read string 0 sp ++ rev (read tmp 0 (Z.of_nat k))
      /\ forall a, a < 0 \/ rsp s <= a -> rstring s a = string a.
Proof.
  induction k as [|k IH]; intros fuel sp string Hsp Hf;
    (destruct fuel as [|fuel]; [lia|]); rewrite loop_S; unfold reverse_body at 1;
    cbn [rtp rsp rstring].
  - simpl. eexists; split; [reflexivity|]. cbn [rtp rsp rstring].
    rewrite app_nil_r. repeat split; lia.
  - replace (0 <? Z.of_nat (S k)) with true by (symmetry; apply Z.ltb_lt; lia).
    replace (Z.of_nat (S k) - 1) with (Z.of_nat k) by lia.
    destruct (IH fuel (sp + 1) (store string sp (tmp (Z.of_nat k))))
      as (s & Hs & H1 & H2 & H3); [lia|lia|].
    exists s. split; [exact Hs|]. split; [lia|]. split.
    + rewrite H2, read_store_snoc by lia.
      replace (Z.of_nat (S k)) with (Z.of_nat k + 1) by lia.
      rewrite read_snoc, rev_app_distr by lia. simpl.
      rewrite <- app_assoc. reflexivity.
    + intros a Ha. rewrite H3 by lia. apply store_other. lia.
Qed.

(** C8: [nvU32ToStr] returns the null pointer exactly when [base] is
    outside 2..36; for a base in 2..36 and a 32-bit [value] it returns
    the caller's buffer, in which it wrote the representation of [value]
    in that base (digits [0-9] then [a-z], most significant first, at
    most 32 of them) followed by a zero byte, and nothing else. *)
Theorem nvU32ToStr_spec (fuel : nat) (value : Z) (string : mem) (base : Z) :
  0 <= value < 2 ^ 32 -> 0 <= base < 2 ^ 32 -> (33 < fuel)%nat ->
  (nvU32ToStr fuel value string base = Some NullPtr <-> ~ 2 <= base <= 36)
  /\ (2 <= base <= 36 ->
      exists cs buf,
        nvU32ToStr fuel value string base = Some (StrPtr buf)
        /\ textual base value cs
        /\ (1 <= length cs <= 32)%nat
        /\ read buf 0 (Z.of_nat (length cs) + 1) = cs ++ [0]
        /\ forall a, a < 0 \/ Z.of_nat (length cs) < a -> buf a = string a).
Proof.
  intros Hv Hb Hf.
  assert (Hin : 2 <= base <= 36 ->
      exists cs buf,
        nvU32ToStr fuel value string base = Some (StrPtr buf)
        /\ textual base value cs
        /\ (1 <= length cs <= 32)%nat
        /\ read buf 0 (Z.of_nat (length cs) + 1) = cs ++ [0]
        /\ forall a, a < 0 \/ Z.of_nat (length cs) < a -> buf a = string a).
  { intros Hbase. unfold nvU32ToStr.
    replace (36 <? base) with false by (symmetry; apply Z.ltb_ge; lia).
    replace (base <=? 1) with false by (symmetry; apply Z.leb_gt; lia).
    destruct fuel as [|fuel]; [lia|].
    rewrite loop_S. unfold digits_body at 1. cbn [dv dtp dtmp].
    rewrite Z.eqb_refl, orb_true_r.
    set (tmp1 := store _ 0 _).
    destruct (digits_loop_spec base Hbase 31 fuel (value / base) (0 + 1) tmp1)
      as (s1 & Hs1 & Hr1 & Hp1); [lia|apply (div_base_lt base Hbase value 31); exact Hv|lia|].
    rewrite Hs1.
    assert (Hds : read (dtmp s1) 0 (dtp s1) = lsf_digits 32 base value).
    { rewrite Hr1. unfold tmp1. change (0 + 1) with 1. rewrite read_one, store_same.
      reflexivity. }
    destruct (lsf_digits_spec base Hbase 32 value Hv ltac:(lia)) as (L1 & L2 & L3 & L4).
    assert (Hz : value = 0 -> lsf_digits 32 base value = [48]).
    { intros ->. apply lsf_digits_zero. }
    set (l := lsf_digits 32 base value) in *. clearbody l.
    assert (Htp : dtp s1 = Z.of_nat (length l)).
    { apply (f_equal (@length Z)) in Hds. rewrite read_length in Hds. lia. }
    rewrite Htp in *.
    destruct (reverse_loop_spec (dtmp s1) (length l) (S fuel) 0 string)
      as (s2 & Hs2 & R1 & R2 & R3); [lia|lia|].
    rewrite Hs2. rewrite Hds in R2. simpl in R2.
    exists (rev l), (store (rstring s2) (rsp s2) 0).
    rewrite length_rev. rewrite R1 in *. simpl in R2 |- *.
    split; [reflexivity|]. split; [|split; [lia|split]].
    - split; [apply Forall_rev; exact L1|]. split; [exact L2|]. split.
      + intros Hnz. specialize (L4 Hnz).
        rewrite <- (rev_involutive l) in L4.
        destruct (rev l) as [|c r]; [simpl; lia|].
        simpl in L4. rewrite last_last in L4. exact L4.
      + intros Hv0. rewrite (Hz Hv0). reflexivity.
    - rewrite read_store_snoc by lia. rewrite R2. reflexivity.
    - intros a Ha. rewrite store_other by lia. apply R3. lia. }
  split; [|exact Hin].
  split.
  - intros Hnull Hbase. destruct (Hin Hbase) as (cs & buf & E & _). congruence.
  - intros Hout. unfold nvU32ToStr.
    destruct (Z.ltb_spec 36 base); [reflexivity|].
    destruct (Z.leb_spec base 1); [reflexivity|lia].
Qed.

Lemma nvU32ToStr_spec_witness :
  nvU32ToStr 40 255 (fun _ => 7) 37 = Some NullPtr
  /\ exists cs buf,
      nvU32ToStr 40 255 (fun _ => 7) 16 = Some (StrPtr buf)
      /\ textual 16 255 cs
      /\ (1 <= length cs <= 32)%nat
      /\ read buf 0 (Z.of_nat (length cs) + 1) = cs ++ [0]
      /\ forall a, a < 0 \/ Z.of_nat (length cs) < a -> buf a = 7.
Proof.
  split.
  - apply (nvU32ToStr_spec 40 255 (fun _ => 7) 37); lia.
  - apply (nvU32ToStr_spec 40 255 (fun _ => 7) 16); lia.
Defined.
(** ** [nvMergeSort]: merging lists *)

Section Merge.
Context {A : Type}.
Variable less : A -> A -> bool.
Implicit Types (l r : list A).

Lemma spec_merge_nil_l r : spec_merge less [] r = r.
Proof. destruct r; reflexivity. Qed.

Lemma spec_merge_nil_r l : spec_merge less l [] = l.
Proof. destruct l; reflexivity. Qed.

Lemma spec_merge_cons a l b r :
  spec_merge less (a :: l) (b :: r)
  = if less a b then a :: spec_merge less l (b :: r)
    else b :: spec_merge less (a :: l) r.
Proof. reflexivity. Qed.

Lemma spec_merge_perm l : forall r, Permutation (spec_merge less l r) (l ++ r).
Proof.
  induction l as [|a l IHl]; intros r.
  - rewrite spec_merge_nil_l. reflexivity.
  - induction r as [|b r IHr].
    + rewrite spec_merge_nil_r, app_nil_r. reflexivity.
    + rewrite spec_merge_cons. destruct (less a b).
      * simpl. constructor. apply IHl.
      * rewrite IHr. apply Permutation_middle.
Qed.

Lemma spec_merge_length l r :
  length (spec_merge less l r) = (length l + length r)%nat.
Proof.
  rewrite (Permutation_length (spec_merge_perm l r)). apply length_app.
Qed.

Lemma spec_merge_hd l : forall r x,
  HdRel (fun x y => less y x = false) x l ->
  HdRel (fun x y => less y x = false) x r ->
  HdRel (fun x y => less y x = false) x (spec_merge less l r).
Proof.
  intros r x Hl Hr. destruct l as [|a l]; [rewrite spec_merge_nil_l; exact Hr|].
  destruct r as [|b r]; [rewrite spec_merge_nil_r; exact Hl|].
  rewrite spec_merge_cons. destruct (less a b); constructor.
  - inversion Hl; assumption.
  - inversion Hr; assumption.
Qed.

Lemma spec_merge_ascending l : forall r,
  asym_on less (l ++ r) ->
  ascending less l -> ascending less r -> ascending less (spec_merge less l r).
Proof.
  unfold ascending.
  induction l as [|a l IHl]; intros r Has Hl Hr.
  - rewrite spec_merge_nil_l. exact Hr.
  - induction r as [|b r IHr].
    + rewrite spec_merge_nil_r. exact Hl.
    + rewrite spec_merge_cons. destruct (less a b) eqn:E.
      * constructor.
        -- apply IHl; [|inversion Hl; assumption|exact Hr].
           intros x y Hx Hy. apply Has; right; assumption.
        -- apply spec_merge_hd; [inversion Hl; assumption|].
           constructor. apply Has; [left; reflexivity| |exact E].
           apply in_or_app. right. left. reflexivity.
      * constructor.
        -- apply IHr; [|inversion Hr; assumption].
           intros x y Hx Hy. apply Has.
           ++ apply in_app_or in Hx. apply in_or_app.
              destruct Hx; [left|right; right]; assumption.
           ++ apply in_app_or in Hy. apply in_or_app.
              destruct Hy; [left|right; right]; assumption.
        -- apply spec_merge_hd; [|inversion Hr; assumption].
           constructor. exact E.
Qed.

Lemma ascending_app_inv l r :
  ascending less (l ++ r) -> ascending less l /\ ascending less r.
Proof.
  unfold ascending. induction l as [|a l IH]; intros H.
  - split; [constructor|exact H].
  - simpl in H. inversion H as [|? ? Hs Hh]; subst.
    destruct (IH Hs) as [H1 H2]. split; [|exact H2].
    constructor; [exact H1|].
    destruct l; [constructor|]. inversion Hh; subst. constructor. assumption.
Qed.

(** Below its head: a run ascending for a strict total order. *)
Lemma ascending_head D a l :
  strict_total_on less D -> (forall x, In x (a :: l) -> In x D) ->
  ascending less (a :: l) -> forall x, In x l -> less x a = false.
Proof.
  intros Hsto. revert a. induction l as [|b l IH]; intros a HD Hs x Hx; [destruct Hx|].
  inversion Hs as [|? ? Hs' Hh]; subst. inversion Hh as [|? ? Hab]; subst.
  destruct Hx as [->|Hx]; [exact Hab|].
  assert (Hbx : less x b = false).
  { apply IH; [intros y Hy; apply HD; right; exact Hy|exact Hs'|exact Hx]. }
  destruct (less x a) eqn:E; [|reflexivity].
  assert (Da : In a D) by (apply HD; left; reflexivity).
  assert (Db : In b D) by (apply HD; right; left; reflexivity).
  assert (Dx : In x D) by (apply HD; right; right; exact Hx).
  assert (Hab' : less a b = true).
  { destruct (sto_total _ _ Hsto a b Da Db) as [H|[H|H]]; [exact H| |congruence].
    subst b. congruence. }
  rewrite (sto_trans _ _ Hsto x a b Dx Da Db E Hab') in Hbx. discriminate.
Qed.

Lemma ascending_unique D : forall l1 l2,
  strict_total_on less D -> (forall x, In x l1 -> In x D) ->
  ascending less l1 -> ascending less l2 -> Permutation l1 l2 -> l1 = l2.
Proof.
  induction l1 as [|a1 l1 IH]; intros l2 Hsto HD H1 H2 Hp.
  - apply Permutation_nil in Hp. congruence.
  - destruct l2 as [|a2 l2]; [symmetry in Hp; apply Permutation_nil in Hp; discriminate|].
    assert (HD2 : forall x, In x (a2 :: l2) -> In x D).
    { intros x Hx. apply HD. apply (Permutation_in _ (Permutation_sym Hp)). exact Hx. }
    assert (a1 = a2).
    { assert (I1 : In a1 (a2 :: l2)) by (apply (Permutation_in _ Hp); left; reflexivity).
      assert (I2 : In a2 (a1 :: l1))
        by (apply (Permutation_in _ (Permutation_sym Hp)); left; reflexivity).
      destruct I1 as [E|I1]; [congruence|]. destruct I2 as [E|I2]; [congruence|].
      pose proof (ascending_head D a2 l2 Hsto HD2 H2 a1 I1) as E1.
      pose proof (ascending_head D a1 l1 Hsto HD H1 a2 I2) as E2.
      destruct (sto_total _ _ Hsto a1 a2) as [H|[H|H]]; try congruence.
      - apply HD; left; reflexivity.
      - apply HD2; left; reflexivity. }
    subst a2. f_equal. apply IH.
    + exact Hsto.
    + intros x Hx. apply HD. right. exact Hx.
    + inversion H1; assumption.
    + inversion H2; assumption.
    + apply Permutation_cons_inv in Hp. exact Hp.
Qed.

Lemma strict_total_asym D : strict_total_on less D -> asym_on less D.
Proof.
  intros Hsto x y Hx Hy E. destruct (less y x) eqn:E'; [|reflexivity].
  rewrite <- (sto_irrefl _ _ Hsto x Hx). symmetry.
  apply (sto_trans _ _ Hsto x y x); assumption.
Qed.

(** Merging two runs that are already in order changes nothing. *)
Lemma spec_merge_ascending_id D l r :
  strict_total_on less D -> (forall x, In x (l ++ r) -> In x D) ->
  ascending less (l ++ r) -> spec_merge less l r = l ++ r.
Proof.
  intros Hsto HD Hs.
  destruct (ascending_app_inv l r Hs) as [Hl Hr].
  apply (ascending_unique D).
  - exact Hsto.
  - intros x Hx. apply HD. apply (Permutation_in _ (spec_merge_perm l r)). exact Hx.
  - apply spec_merge_ascending; [|exact Hl|exact Hr].
    intros x y Hx Hy. apply (strict_total_asym D Hsto); apply HD; assumption.
  - exact Hs.
  - apply spec_merge_perm.
Qed.

(** *** Runs *)

Lemma app_eq_length (l1 : list A) : forall r1 l2 r2,
  length l1 = length r1 -> l1 ++ l2 = r1 ++ r2 -> l1 = r1 /\ l2 = r2.
Proof.
  induction l1 as [|a l1 IH]; intros [|b r1] l2 r2 Hl E; try discriminate.
  - split; [reflexivity|exact E].
  - simpl in E. injection E as -> E. simpl in Hl.
    destruct (IH r1 l2 r2 ltac:(lia) E) as [-> ->]. split; reflexivity.
Qed.

Lemma Runs_short m l : Runs less m l -> (length l <= m)%nat -> ascending less l.
Proof.
  intros H Hl. inversion H as [|r l' Hr Hsr Hrest]; subst; [assumption|].
  rewrite length_app in Hl.
  assert (l' = []) by (destruct l'; [reflexivity|simpl in Hl; lia]).
  subst l'. rewrite app_nil_r. exact Hsr.
Qed.

Lemma Runs_split m l1 l2 :
  Runs less m (l1 ++ l2) -> length l1 = m ->
  ascending less l1 /\ Runs less m l2.
Proof.
  intros H Hl. inversion H as [l Hlen Hs E|r l' Hr Hsr Hrest E]; subst.
  - rewrite length_app in Hlen.
    assert (l2 = []) by (destruct l2; [reflexivity|simpl in Hlen; lia]). subst l2.
    rewrite app_nil_r in Hs. split; [exact Hs|].
    apply Runs_last; [simpl; lia|constructor].
  - destruct (app_eq_length r l1 l' l2 ltac:(lia) E) as [-> ->].
    split; assumption.
Qed.

Lemma Runs_one l : Runs less 1 l.
Proof.
  induction l as [|a l IH].
  - apply Runs_last; [simpl; lia|constructor].
  - change (a :: l) with ([a] ++ l). apply Runs_cons; [reflexivity| |exact IH].
    constructor; constructor.
Qed.

Lemma Full_Runs m P T : Full less m P -> Runs less m T -> Runs less m (P ++ T).
Proof.
  intros HP HT. induction HP as [|r l Hr Hs HP IH]; [exact HT|].
  rewrite <- app_assoc. apply Runs_cons; assumption.
Qed.

Lemma Full_snoc m P M :
  Full less m P -> length M = m -> ascending less M -> Full less m (P ++ M).
Proof.
  intros HP HM Hs. induction HP as [|r l Hr Hsr HP IH].
  - simpl. rewrite <- (app_nil_r M). apply Full_cons; [assumption..|constructor].
  - rewrite <- app_assoc. apply Full_cons; assumption.
Qed.
End Merge.

(** ** [nvMergeSort]: elements in memory *)

Lemma slice_cons size m k cnt :
  0 < cnt -> slice size m k cnt = elem size m k :: slice size m (k + 1) (cnt - 1).
Proof. apply tab_cons. Qed.

Lemma slice_nil size m k cnt : cnt <= 0 -> slice size m k cnt = [].
Proof. apply tab_nil. Qed.

Lemma slice_app size m k a b :
  0 <= a -> 0 <= b ->
  slice size m k (a + b) = slice size m k a ++ slice size m (k + a) b.
Proof. apply tab_app. Qed.

Lemma slice_length size m k cnt : length (slice size m k cnt) = Z.to_nat cnt.
Proof. apply tab_length. Qed.

Section Elements.
Variable size : Z.
Hypothesis size_nonneg : 0 <= size.

(** The element [k] of the destination of a copy of [c] elements. *)
Lemma elem_portMemCopy_in dst d src s c k :
  d <= k < d + c ->
  elem size (portMemCopy dst (d * size) src (s * size) (c * size)) k
  = elem size src (s + (k - d)).
Proof.
  intros Hk. unfold elem, read. apply tab_ext2. intros j Hj.
  rewrite portMemCopy_in by nia. f_equal. lia.
Qed.

Lemma elem_portMemCopy_out dst d src soff c k :
  0 <= c -> k < d \/ d + c <= k ->
  elem size (portMemCopy dst (d * size) src soff (c * size)) k = elem size dst k.
Proof.
  intros Hc Hk. unfold elem, read. apply tab_ext2. intros j Hj.
  apply portMemCopy_out. nia.
Qed.

Lemma slice_portMemCopy_in dst d src s c :
  0 <= c ->
  slice size (portMemCopy dst (d * size) src (s * size) (c * size)) d c
  = slice size src s c.
Proof.
  intros Hc. unfold slice. apply tab_ext2. intros j Hj.
  rewrite elem_portMemCopy_in by lia. f_equal. lia.
Qed.

Lemma slice_portMemCopy_out dst d src soff c k cnt :
  0 <= c -> k + cnt <= d \/ d + c <= k ->
  slice size (portMemCopy dst (d * size) src soff (c * size)) k cnt
  = slice size dst k cnt.
Proof.
  intros Hc Hk. unfold slice. apply tab_ext. intros a Ha.
  apply elem_portMemCopy_out; lia.
Qed.

(** Appending one element to the scratch buffer. *)
Lemma slice_append tmp d arr k :
  0 <= d ->
  slice size (portMemCopy tmp (d * size) arr (k * size) size) 0 (d + 1)
  = slice size tmp 0 d ++ [elem size arr k].
Proof.
  intros Hd. unfold slice at 1. rewrite tab_snoc by lia. f_equal.
  - pose proof (slice_portMemCopy_out tmp d arr (k * size) 1 0 d) as H.
    rewrite Z.mul_1_l in H. apply H; lia.
  - pose proof (elem_portMemCopy_in tmp d arr k 1 d) as H.
    rewrite Z.mul_1_l in H. rewrite Z.add_0_l, H by lia.
    replace (k + (d - d)) with k by lia. reflexivity.
Qed.
End Elements.

(** ** [nvMergeSort]: one merge *)

Lemma EL_nowrap size n k :
  0 <= size -> nowrap n size -> 0 <= k <= n -> EL size k = k * size.
Proof. unfold nowrap, EL. intros Hs Hnw Hk. apply u32_small. nia. Qed.

Section Merges.
Variables (size : Z) (less : list Z -> list Z -> bool) (fuel : nat) (n : Z).
Hypothesis size_range : 0 <= size < 2 ^ 32.
Hypothesis n_range : 0 <= n < 2 ^ 31.
Hypothesis fuel_enough : (Z.to_nat n < fuel)%nat.

Section OneMerge.
Variables (arr : mem) (i m : Z) (M : list (list Z)).
Hypothesis i_nonneg : 0 <= i.
Hypothesis m_pos : 1 <= m.
Hypothesis second_run : i + m < n.
Local Abbreviation loMax := (i + m).
Local Abbreviation hiMax := (Z.min n (i + 2 * m)).
Local Abbreviation inv := (merge_inv size less n arr i loMax hiMax M).

Lemma scratch_write_in_bounds d :
  0 <= d -> d + 1 <= n -> scratch_in_bounds n size (ScratchWrite (d * size) size).
Proof. intros H1 H2. simpl. split; nia. Qed.

Lemma copy_lo_inv s :
  inv s -> lo s < loMax ->
  (nowrap n size ->
   hi s = hiMax
   \/ hi s < hiMax /\ less (elem size arr (lo s)) (elem size arr (hi s)) = true) ->
  inv (copy_lo size arr s).
Proof.
  intros (Hlo & Hhi & Hd & Hsw & Hc) Hlt Hcond.
  unfold merge_inv, copy_lo; cbn [lo hi dest tmp wlog].
  rewrite (u32_small (lo s + 1)) by lia.
  split; [lia|]. split; [lia|]. split; [lia|]. split.
  - constructor; [|exact Hsw]. rewrite Hd. apply scratch_write_in_bounds; lia.
  - intros Hnw. destruct (Hc Hnw) as [Hcb Hm]. split.
    + constructor; [exact I|exact Hcb].
    + rewrite (EL_nowrap size n), Hd by (assumption || lia).
      replace (lo s + 1 - i + (hi s - loMax)) with (lo s - i + (hi s - loMax) + 1) by lia.
      rewrite slice_append by lia.
      rewrite <- Hm, <- app_assoc. f_equal.
      rewrite (slice_cons size arr (lo s) (loMax - lo s)) by lia.
      replace (loMax - (lo s + 1)) with (loMax - lo s - 1) by lia.
      destruct (Hcond Hnw) as [E|[Hh E]].
      * rewrite (slice_nil size arr (hi s)) by lia.
        rewrite !spec_merge_nil_r. reflexivity.
      * rewrite (slice_cons size arr (hi s)) by lia.
        rewrite spec_merge_cons, E. reflexivity.
Qed.

Lemma copy_hi_inv s :
  inv s -> hi s < hiMax ->
  (nowrap n size ->
   lo s = loMax
   \/ lo s < loMax /\ less (elem size arr (lo s)) (elem size arr (hi s)) = false) ->
  inv (copy_hi size arr s).
Proof.
  intros (Hlo & Hhi & Hd & Hsw & Hc) Hlt Hcond.
  unfold merge_inv, copy_hi; cbn [lo hi dest tmp wlog].
  rewrite (u32_small (hi s + 1)) by lia.
  split; [lia|]. split; [lia|]. split; [lia|]. split.
  - constructor; [|exact Hsw]. rewrite Hd. apply scratch_write_in_bounds; lia.
  - intros Hnw. destruct (Hc Hnw) as [Hcb Hm]. split.
    + constructor; [exact I|exact Hcb].
    + rewrite (EL_nowrap size n), Hd by (assumption || lia).
      replace (lo s - i + (hi s + 1 - loMax)) with (lo s - i + (hi s - loMax) + 1) by lia.
      rewrite slice_append by lia.
      rewrite <- Hm, <- app_assoc. f_equal.
      rewrite (slice_cons size arr (hi s) (hiMax - hi s)) by lia.
      replace (hiMax - (hi s + 1)) with (hiMax - hi s - 1) by lia.
      destruct (Hcond Hnw) as [E|[Hl E]].
      * rewrite (slice_nil size arr (lo s)) by lia.
        rewrite !spec_merge_nil_l. reflexivity.
      * rewrite (slice_cons size arr (lo s)) by lia.
        rewrite spec_merge_cons, E. reflexivity.
Qed.

Lemma less_at s b :
  nowrap n size -> 0 <= lo s <= n -> 0 <= hi s <= n ->
  less (read arr (EL size (lo s)) size) (read arr (EL size (hi s)) size) = b ->
  less (elem size arr (lo s)) (elem size arr (hi s)) = b.
Proof.
  intros Hnw Hl Hh E. rewrite !(EL_nowrap size n) in E by (assumption || lia). exact E.
Qed.

Lemma merge_loop_total s :
  inv s -> lo s < loMax -> hi s < hiMax ->
  exists s', loop (merge_body size less arr loMax hiMax) fuel s = Some s'
             /\ inv s' /\ (lo s' = loMax \/ hi s' = hiMax).
Proof.
  intros Hinv Hl Hh.
  apply (loop_total _ (fun s => inv s /\ lo s < loMax /\ hi s < hiMax)
           (fun s => inv s /\ (lo s = loMax \/ hi s = hiMax))
           (fun s => Z.to_nat (loMax - lo s + (hiMax - hi s)))).
  - clear s Hinv Hl Hh. intros s (Hinv & Hl & Hh).
    pose proof Hinv as (Hlo & Hhi & _).
    unfold merge_body.
    destruct (less (read arr (EL size (lo s)) size) (read arr (EL size (hi s)) size)) eqn:E.
    + assert (Hinv' : inv (copy_lo size arr s)).
      { apply copy_lo_inv; [exact Hinv|exact Hl|].
        intros Hnw. right. split; [exact Hh|]. apply less_at; (assumption || lia). }
      eexists; split; [reflexivity|].
      pose proof Hinv' as (Hlo' & Hhi' & _).
      assert (El : lo (copy_lo size arr s) = lo s + 1)
        by (unfold copy_lo; cbn [lo]; apply u32_small; lia).
      assert (Eh : hi (copy_lo size arr s) = hi s) by reflexivity.
      destruct (Z.leb_spec loMax (lo (copy_lo size arr s))).
      * split; [exact Hinv'|]. left. lia.
      * split; [split; [exact Hinv'|lia]|]. rewrite El, Eh. lia.
    + assert (Hinv' : inv (copy_hi size arr s)).
      { apply copy_hi_inv; [exact Hinv|exact Hh|].
        intros Hnw. right. split; [exact Hl|]. apply less_at; (assumption || lia). }
      eexists; split; [reflexivity|].
      pose proof Hinv' as (Hlo' & Hhi' & _).
      assert (Eh : hi (copy_hi size arr s) = hi s + 1)
        by (unfold copy_hi; cbn [hi]; apply u32_small; lia).
      assert (El : lo (copy_hi size arr s) = lo s) by reflexivity.
      destruct (Z.leb_spec hiMax (hi (copy_hi size arr s))).
      * split; [exact Hinv'|]. right. lia.
      * split; [split; [exact Hinv'|lia]|]. rewrite El, Eh. lia.
  - auto.
  - destruct Hinv as (Hlo & Hhi & _). lia.
Qed.

Lemma drain_lo_total s :
  inv s -> (lo s = loMax \/ hi s = hiMax) ->
  exists s', loop (drain_lo_body size arr loMax) fuel s = Some s'
             /\ inv s' /\ lo s' = loMax.
Proof.
  intros Hinv Hex.
  apply (loop_total _ (fun s => inv s /\ (lo s = loMax \/ hi s = hiMax))
           (fun s => inv s /\ lo s = loMax)
           (fun s => Z.to_nat (loMax - lo s))).
  - clear s Hinv Hex. intros s (Hinv & Hex).
    pose proof Hinv as (Hlo & Hhi & _).
    unfold drain_lo_body. destruct (Z.ltb_spec (lo s) loMax) as [Hl|Hl].
    + assert (Hinv' : inv (copy_lo size arr s)).
      { apply copy_lo_inv; [exact Hinv|exact Hl|]. intros _. left. lia. }
      eexists; split; [reflexivity|].
      assert (El : lo (copy_lo size arr s) = lo s + 1)
        by (unfold copy_lo; cbn [lo]; apply u32_small; lia).
      assert (Eh : hi (copy_lo size arr s) = hi s) by reflexivity.
      split; [split; [exact Hinv'|right; lia]|]. rewrite El. lia.
    + eexists; split; [reflexivity|]. split; [exact Hinv|lia].
  - auto.
  - destruct Hinv as (Hlo & Hhi & _). lia.
Qed.

Lemma drain_hi_total s :
  inv s -> lo s = loMax ->
  exists s', loop (drain_hi_body size arr hiMax) fuel s = Some s'
             /\ inv s' /\ lo s' = loMax /\ hi s' = hiMax.
Proof.
  intros Hinv Hex.
  apply (loop_total _ (fun s => inv s /\ lo s = loMax)
           (fun s => inv s /\ lo s = loMax /\ hi s = hiMax)
           (fun s => Z.to_nat (hiMax - hi s))).
  - clear s Hinv Hex. intros s (Hinv & Hex).
    pose proof Hinv as (Hlo & Hhi & _).
    unfold drain_hi_body. destruct (Z.ltb_spec (hi s) hiMax) as [Hh|Hh].
    + assert (Hinv' : inv (copy_hi size arr s)).
      { apply copy_hi_inv; [exact Hinv|exact Hh|]. intros _. left. lia. }
      eexists; split; [reflexivity|].
      assert (Eh : hi (copy_hi size arr s) = hi s + 1)
        by (unfold copy_hi; cbn [hi]; apply u32_small; lia).
      assert (El : lo (copy_hi size arr s) = lo s) by reflexivity.
      split; [split; [exact Hinv'|lia]|]. rewrite Eh. lia.
    + eexists; split; [reflexivity|]. split; [exact Hinv|lia].
  - auto.
  - destruct Hinv as (Hlo & Hhi & _). lia.
Qed.
End OneMerge.

(** One merge and its copy back: the elements of index [i] to
    [hiMax - 1] become the merge of the two runs, the others stay. *)
Lemma merge_block_total (m i : Z) (st : sstate) :
  0 <= i -> 1 <= m -> i + m < n ->
  Forall (scratch_in_bounds n size) (trace st) ->
  (nowrap n size -> Forall (copyback_in_range n size) (trace st)) ->
  exists st', merge_block size less fuel n m i st = Some st'
    /\ Forall (scratch_in_bounds n size) (trace st')
    /\ (nowrap n size ->
        Forall (copyback_in_range n size) (trace st')
        /\ slice size (array st') 0 i = slice size (array st) 0 i
        /\ slice size (array st') i (Z.min n (i + 2 * m) - i)
           = spec_merge less (slice size (array st) i m)
               (slice size (array st) (i + m) (Z.min n (i + 2 * m) - (i + m)))
        /\ slice size (array st') (Z.min n (i + 2 * m)) (n - Z.min n (i + 2 * m))
           = slice size (array st) (Z.min n (i + 2 * m)) (n - Z.min n (i + 2 * m))
        /\ slice size (mergeArray st') 0 (Z.min n (i + 2 * m) - i)
           = spec_merge less (slice size (array st) i m)
               (slice size (array st) (i + m) (Z.min n (i + 2 * m) - (i + m)))).
Proof.
  intros Hi Hm Him Hsw Hcb.
  set (hiMax := Z.min n (i + 2 * m)).
  set (M := spec_merge less (slice size (array st) i m)
              (slice size (array st) (i + m) (hiMax - (i + m)))).
  unfold merge_block.
  rewrite (u32_small (i + m)), (u32_small (i + 2 * m)) by lia.
  fold hiMax.
  set (s0 := {| lo := i; hi := i + m; dest := 0; tmp := mergeArray st; wlog := trace st |}).
  assert (H0 : merge_inv size less n (array st) i (i + m) hiMax M s0).
  { unfold merge_inv, s0; cbn [lo hi dest tmp wlog]. unfold hiMax.
    split; [lia|]. split; [lia|]. split; [lia|]. split; [exact Hsw|].
    intros Hnw. split; [exact (Hcb Hnw)|].
    replace (i - i + (i + m - (i + m))) with 0 by lia.
    rewrite slice_nil by lia. replace (i + m - i) with m by lia. reflexivity. }
  destruct (merge_loop_total (array st) i m M Hi Hm Him s0 H0)
    as (s1 & E1 & H1 & Hex1); [unfold s0; cbn [lo]; lia|unfold s0, hiMax; cbn [hi]; lia|].
  destruct (drain_lo_total (array st) i m M Hi Hm Him s1 H1 Hex1) as (s2 & E2 & H2 & Hl2).
  destruct (drain_hi_total (array st) i m M Hi Hm Him s2 H2 Hl2)
    as (s3 & E3 & H3 & Hl3 & Hh3).
  fold hiMax in E1, E3, Hh3. rewrite E1, E2, E3.
  destruct H3 as (_ & _ & Hd & Hsw3 & Hc3).
  rewrite Hl3, Hh3 in Hd, Hc3.
  replace (i + m - i + (hiMax - (i + m))) with (hiMax - i) in Hd, Hc3 by lia.
  eexists; split; [reflexivity|]. cbn [array mergeArray trace].
  split; [constructor; [exact I|exact Hsw3]|].
  intros Hnw. destruct (Hc3 Hnw) as [Hcb3 Hm3].
  rewrite (slice_nil size (array st) (i + m)), (slice_nil size (array st) hiMax),
    spec_merge_nil_l, app_nil_r in Hm3 by lia.
  assert (Hlen : u32 (dest s3) = (hiMax - i) * size).
  { rewrite Hd. apply u32_small. unfold nowrap in Hnw. unfold hiMax in *. nia. }
  rewrite Hlen, (EL_nowrap size n) by (assumption || lia).
  assert (Hcnt : 0 <= hiMax - i) by (unfold hiMax; lia).
  split; [|split; [|split; [|split]]].
  - constructor; [|exact Hcb3]. simpl. unfold hiMax. lia.
  - apply slice_portMemCopy_out; lia.
  - pose proof (slice_portMemCopy_in size ltac:(lia) (array st) i (tmp s3) 0 (hiMax - i) Hcnt) as H.
    change (0 * size) with 0 in H. rewrite H. exact Hm3.
  - apply slice_portMemCopy_out; lia.
  - exact Hm3.
Qed.
End Merges.

(** ** [nvMergeSort]: passes *)

Lemma asym_on_sub {A : Type} (less : A -> A -> bool) (D D' : list A) :
  asym_on less D -> (forall x, In x D' -> In x D) -> asym_on less D'.
Proof. intros H Hsub x y Hx Hy. apply H; apply Hsub; assumption. Qed.

Section Passes.
Variables (size : Z) (less : list Z -> list Z -> bool) (fuel : nat) (n : Z).
Hypothesis size_range : 0 <= size < 2 ^ 32.
Hypothesis n_range : 0 <= n < 2 ^ 31.
Hypothesis fuel_enough : (Z.to_nat n < fuel)%nat.
Variable els0 : list (list Z).

(** The elements around the two runs at [i]. *)
Lemma elems_around arr i m :
  0 <= i -> 1 <= m -> i + m < n ->
  elems size arr n
  = slice size arr 0 i
    ++ slice size arr i m
    ++ slice size arr (i + m) (Z.min n (i + 2 * m) - (i + m))
    ++ slice size arr (Z.min n (i + 2 * m)) (n - Z.min n (i + 2 * m)).
Proof.
  intros Hi Hm Him. unfold elems.
  replace n with (i + (m + ((Z.min n (i + 2 * m) - (i + m))
                            + (n - Z.min n (i + 2 * m))))) at 1 by lia.
  rewrite !slice_app by lia. rewrite !Z.add_0_l.
  replace (i + m + (Z.min n (i + 2 * m) - (i + m))) with (Z.min n (i + 2 * m)) by lia.
  reflexivity.
Qed.

Lemma elems_merged arr i m :
  0 <= i -> 1 <= m -> i + m < n ->
  elems size arr n
  = slice size arr 0 i
    ++ slice size arr i (Z.min n (i + 2 * m) - i)
    ++ slice size arr (Z.min n (i + 2 * m)) (n - Z.min n (i + 2 * m)).
Proof.
  intros Hi Hm Him. unfold elems.
  replace n with (i + ((Z.min n (i + 2 * m) - i)
                       + (n - Z.min n (i + 2 * m)))) at 1 by lia.
  rewrite !slice_app by lia. rewrite !Z.add_0_l.
  replace (i + (Z.min n (i + 2 * m) - i)) with (Z.min n (i + 2 * m)) by lia.
  reflexivity.
Qed.

Lemma pass_step m i st st' :
  1 <= m <= n -> i < n - m ->
  pass_inv size less n els0 m (i, st) ->
  Forall (scratch_in_bounds n size) (trace st') ->
  (nowrap n size ->
    Forall (copyback_in_range n size) (trace st')
    /\ slice size (array st') 0 i = slice size (array st) 0 i
    /\ slice size (array st') i (Z.min n (i + 2 * m) - i)
       = spec_merge less (slice size (array st) i m)
           (slice size (array st) (i + m) (Z.min n (i + 2 * m) - (i + m)))
    /\ slice size (array st') (Z.min n (i + 2 * m)) (n - Z.min n (i + 2 * m))
       = slice size (array st) (Z.min n (i + 2 * m)) (n - Z.min n (i + 2 * m))) ->
  pass_inv size less n els0 m (i + 2 * m, st').
Proof.
  intros Hm Hlt (Hi & Hsw & Hc) Hsw' Hc'. unfold pass_inv. cbn [fst snd] in *.
  split; [lia|]. split; [exact Hsw'|].
  intros Hnw. destruct (Hc Hnw) as (Hcb & [Hperm Hid] & Hruns).
  destruct (Hc' Hnw) as (Hcb' & S1 & S2 & S3).
  split; [exact Hcb'|].
  pose proof (elems_around (array st) i m Hi ltac:(lia) ltac:(lia)) as Ecur.
  pose proof (elems_merged (array st') i m Hi ltac:(lia) ltac:(lia)) as Ecur'.
  rewrite S1, S2, S3 in Ecur'.
  set (hiMax := Z.min n (i + 2 * m)) in *.
  set (P := slice size (array st) 0 i) in *.
  set (L := slice size (array st) i m) in *.
  set (R := slice size (array st) (i + m) (hiMax - (i + m))) in *.
  set (T := slice size (array st) hiMax (n - hiMax)) in *.
  assert (HlenL : length L = Z.to_nat m) by apply slice_length.
  assert (HlenR : length R = Z.to_nat (hiMax - (i + m))) by apply slice_length.
  assert (Hin : forall x, In x (L ++ R) -> In x els0).
  { intros x Hx. apply (Permutation_in _ Hperm). rewrite Ecur.
    apply in_or_app. right. rewrite app_assoc. apply in_or_app. left. exact Hx. }
  split; [split|].
  - rewrite Ecur', <- Hperm, Ecur.
    apply Permutation_app_head. rewrite (app_assoc L R T).
    apply Permutation_app_tail. apply spec_merge_perm.
  - intros Hsto Hasc. rewrite Ecur', <- (Hid Hsto Hasc), Ecur.
    f_equal. rewrite (app_assoc L R T). f_equal.
    apply (spec_merge_ascending_id less els0); [exact Hsto|exact Hin|].
    rewrite <- (Hid Hsto Hasc), Ecur in Hasc.
    apply ascending_app_inv in Hasc. destruct Hasc as [_ Hasc].
    rewrite app_assoc in Hasc.
    apply ascending_app_inv in Hasc. apply Hasc.
  - intros Hasym. destruct (Hruns Hasym) as [(_ & HP & HT)|[Hcontra _]]; [|lia].
    fold P in HP.
    replace (n - i) with (m + (n - (i + m))) in HT by lia.
    rewrite slice_app in HT by lia. fold L in HT.
    destruct (Runs_split less _ _ _ HT HlenL) as [HL HT1].
    assert (Hmerge : forall HR : ascending less R,
               ascending less (spec_merge less L R)).
    { intros HR. apply spec_merge_ascending; [|exact HL|exact HR].
      apply (asym_on_sub less els0); assumption. }
    pose proof (spec_merge_length less L R) as HlenM.
    unfold pass_runs.
    destruct (Z_le_gt_dec (i + 2 * m) n) as [Hfit|Hcut].
    + left. assert (EhiMax : hiMax = i + 2 * m) by (unfold hiMax; lia).
      split; [lia|].
      replace (n - (i + m)) with ((hiMax - (i + m)) + (n - hiMax)) in HT1 by lia.
      rewrite slice_app in HT1 by lia.
      replace (i + m + (hiMax - (i + m))) with hiMax in HT1 by lia.
      fold R T in HT1.
      destruct (Runs_split less _ _ _ HT1 ltac:(lia)) as [HR HT2].
      split.
      * replace (i + 2 * m) with (i + (hiMax - i)) by lia.
        rewrite slice_app by lia. rewrite Z.add_0_l, S1, S2.
        apply Full_snoc; [exact HP|lia|exact (Hmerge HR)].
      * rewrite <- EhiMax, S3.
        replace (n - hiMax) with (n - hiMax) by reflexivity. exact HT2.
    + right. assert (EhiMax : hiMax = n) by (unfold hiMax; lia).
      split; [lia|].
      replace (n - (i + m)) with (hiMax - (i + m)) in HT1 by lia.
      fold R in HT1.
      assert (HR : ascending less R) by (apply (Runs_short less _ _ HT1); lia).
      rewrite Ecur'. unfold T. rewrite (slice_nil _ _ hiMax), app_nil_r by lia.
      apply Full_Runs; [exact HP|].
      apply Runs_last; [lia|exact (Hmerge HR)].
Qed.

Lemma pass_exit m i st :
  1 <= m <= n -> n - m <= i ->
  pass_inv size less n els0 m (i, st) ->
  sorted_to size less n els0 (2 * m) st.
Proof.
  intros Hm Hge (Hi & Hsw & Hc). cbn [fst snd] in *.
  split; [exact Hsw|].
  intros Hnw. destruct (Hc Hnw) as (Hcb & Hcont & Hruns).
  split; [exact Hcb|]. split; [exact Hcont|].
  intros Hasym. destruct (Hruns Hasym) as [(Hin & HP & HT)|[_ H]]; [|exact H].
  unfold elems. replace n with (i + (n - i)) at 1 by lia.
  rewrite slice_app by lia. rewrite Z.add_0_l. apply Full_Runs; [exact HP|].
  apply Runs_last; [rewrite slice_length; lia|].
  apply (Runs_short less _ _ HT). rewrite slice_length. lia.
Qed.

Lemma pass_total m st :
  1 <= m <= n ->
  sorted_to size less n els0 m st ->
  exists s', loop (pass_body size less fuel n m) fuel (0, st) = Some s'
             /\ sorted_to size less n els0 (2 * m) (snd s').
Proof.
  intros Hm (Hsw & Hc).
  apply (loop_total _ (pass_inv size less n els0 m)
           (fun s => sorted_to size less n els0 (2 * m) (snd s))
           (fun s => Z.to_nat (n - fst s))).
  - intros [i st0] Hinv. pose proof Hinv as (Hi & Hsw0 & Hc0). cbn [fst snd] in *.
    unfold pass_body. rewrite (u32_small (n - m)) by lia.
    destruct (Z.ltb_spec i (n - m)) as [Hlt|Hge].
    + destruct (merge_block_total size less fuel n size_range n_range fuel_enough
                  m i st0 Hi ltac:(lia) ltac:(lia) Hsw0)
        as (st' & -> & Hsw' & Hc'); [intros Hnw; apply (Hc0 Hnw)|].
      eexists; split; [reflexivity|].
      rewrite (u32_small (i + 2 * m)) by lia.
      split; [|cbn [fst]; lia].
      apply (pass_step m i st0 st'); try (assumption || lia).
      intros Hnw. destruct (Hc' Hnw) as (H1 & H2 & H3 & H4 & _). auto.
    + eexists; split; [reflexivity|]. cbn [snd].
      apply (pass_exit m i st0); (assumption || lia).
  - split; [cbn; lia|]. split; [exact Hsw|]. cbn [fst snd].
    intros Hnw. destruct (Hc Hnw) as (Hcb & Hcont & Hruns).
    split; [exact Hcb|]. split; [exact Hcont|].
    intros Hasym. left. split; [lia|]. split.
    + rewrite slice_nil by lia. constructor.
    + replace (n - 0) with n by lia. apply (Hruns Hasym).
  - cbn [fst]. lia.
Qed.

Lemma sort_total st :
  sorted_to size less n els0 1 st ->
  exists s', loop (sort_body size less fuel n) fuel (1, st) = Some s'
             /\ sorted_to size less n els0 (fst s') (snd s') /\ n < fst s'.
Proof.
  intros H1.
  apply (loop_total _
           (fun s => 1 <= fst s < 2 ^ 32 /\ sorted_to size less n els0 (fst s) (snd s))
           (fun s => sorted_to size less n els0 (fst s) (snd s) /\ n < fst s)
           (fun s => Z.to_nat (n + 1 - fst s))).
  - intros [m st0] [Hm Hst]. cbn [fst snd] in *. unfold sort_body.
    destruct (Z.leb_spec m n) as [Hle|Hgt].
    + destruct (pass_total m st0 ltac:(lia) Hst) as ([i' st'] & -> & Hst').
      eexists; split; [reflexivity|]. cbn [fst snd] in *.
      rewrite (u32_small (m * 2)) by lia.
      replace (m * 2) with (2 * m) by lia.
      split; [split; [lia|exact Hst']|lia].
    + eexists; split; [reflexivity|]. cbn [fst snd]. split; [exact Hst|lia].
  - cbn [fst snd]. split; [lia|exact H1].
  - cbn [fst]. lia.
Qed.
End Passes.

(** The call returns; its writes stay in bounds; and when the array is
    smaller than [2^32] bytes, its elements are permuted, do not move if
    they already are in order for a strict total order, and end in
    ascending order for a comparator that is asymmetric on them. *)
Lemma nvMergeSort_total (fuel : nat) (arr : mem) (n : Z) (tempBuffer : mem)
  (size : Z) (less : list Z -> list Z -> bool) :
  0 <= size < 2 ^ 32 -> 0 <= n < 2 ^ 31 -> (Z.to_nat n < fuel)%nat ->
  exists st,
    nvMergeSort fuel arr n tempBuffer size less = Some st
    /\ Forall (scratch_in_bounds n size) (trace st)
    /\ (nowrap n size ->
        Forall (copyback_in_range n size) (trace st)
        /\ content_ok less (elems size arr n) (elems size (array st) n)
        /\ (asym_on less (elems size arr n) ->
            ascending less (elems size (array st) n))).
Proof.
  intros Hsize Hn Hfuel.
  destruct (sort_total size less fuel n Hsize Hn Hfuel (elems size arr n)
              {| array := arr; mergeArray := tempBuffer; trace := [] |})
    as ([m st] & E & (Hsw & Hc) & Hm).
  { split; [constructor|]. cbn [array trace]. intros Hnw.
    split; [constructor|]. split; [split; [reflexivity|reflexivity]|].
    intros _. apply Runs_one. }
  cbn [fst snd] in *.
  exists st. unfold nvMergeSort. rewrite E. split; [reflexivity|].
  split; [exact Hsw|]. intros Hnw. destruct (Hc Hnw) as (Hcb & Hcont & Hruns).
  split; [exact Hcb|]. split; [exact Hcont|].
  intros Hasym. apply (Runs_short less _ _ (Hruns Hasym)).
  unfold elems. rewrite slice_length. lia.
Qed.

(** ** More fuel *)

Section Mono.
Variables (size : Z) (less : list Z -> list Z -> bool) (n : Z).
Variables f f' : nat.
Hypothesis f_le : (f <= f')%nat.

Lemma merge_block_mono m i st r :
  merge_block size less f n m i st = Some r ->
  merge_block size less f' n m i st = Some r.
Proof.
  unfold merge_block. intros H.
  destruct (loop (merge_body _ _ _ _ _) f _) as [s1|] eqn:E1; [|discriminate].
  rewrite (loop_mono _ _ (fun _ _ e => e) f f' _ _ f_le E1).
  destruct (loop (drain_lo_body _ _ _) f _) as [s2|] eqn:E2; [|discriminate].
  rewrite (loop_mono _ _ (fun _ _ e => e) f f' _ _ f_le E2).
  destruct (loop (drain_hi_body _ _ _) f _) as [s3|] eqn:E3; [|discriminate].
  rewrite (loop_mono _ _ (fun _ _ e => e) f f' _ _ f_le E3).
  exact H.
Qed.

Lemma pass_body_mono m s r :
  pass_body size less f n m s = Some r ->
  pass_body size less f' n m s = Some r.
Proof.
  unfold pass_body. destruct s as [i st]. destruct (i <? u32 (n - m)); [|auto].
  destruct (merge_block size less f n m i st) as [st'|] eqn:E; [|discriminate].
  rewrite (merge_block_mono _ _ _ _ E). auto.
Qed.

Lemma sort_body_mono s r :
  sort_body size less f n s = Some r ->
  sort_body size less f' n s = Some r.
Proof.
  unfold sort_body. destruct s as [m st]. destruct (m <=? n); [|auto].
  destruct (loop (pass_body size less f n m) f (0, st)) as [s'|] eqn:E; [|discriminate].
  rewrite (loop_mono _ _ (pass_body_mono m) f f' _ _ f_le E). auto.
Qed.

Lemma nvMergeSort_mono arr tempBuffer st :
  nvMergeSort f arr n tempBuffer size less = Some st ->
  nvMergeSort f' arr n tempBuffer size less = Some st.
Proof.
  unfold nvMergeSort.
  destruct (loop (sort_body size less f n) f _) as [s'|] eqn:E; [|discriminate].
  rewrite (loop_mono _ _ sort_body_mono f f' _ _ f_le E). auto.
Qed.
End Mono.

(** ** No return for [2^31] elements and more *)

Section Diverges.
Variables (size : Z) (less : list Z -> list Z -> bool) (fuel : nat) (n : Z).
Hypothesis n_range : 2 ^ 31 <= n < 2 ^ 32.

(** When [2 * m] wraps to [0], [i] stays [0]. *)
Lemma pass_stuck m :
  u32 (2 * m) = 0 -> 0 < u32 (n - m) ->
  forall f st, loop (pass_body size less fuel n m) f (0, st) = None.
Proof.
  intros Hm Hn. induction f as [|f IH]; intros st; [reflexivity|].
  rewrite loop_S. unfold pass_body at 1.
  replace (0 <? u32 (n - m)) with true by (symmetry; apply Z.ltb_lt; exact Hn).
  destruct (merge_block size less fuel n m 0 st) as [st'|]; [|reflexivity].
  rewrite Z.add_0_l, Hm. apply IH.
Qed.

Lemma sort_stuck_0 f st :
  loop (sort_body size less fuel n) f (0, st) = None.
Proof.
  destruct f as [|f]; [reflexivity|]. rewrite loop_S. unfold sort_body at 1.
  replace (0 <=? n) with true by (symmetry; apply Z.leb_le; lia).
  rewrite pass_stuck; [reflexivity|reflexivity|].
  rewrite Z.sub_0_r, u32_small; lia.
Qed.

Lemma sort_stuck (j : nat) : forall f st,
  (j <= 31)%nat ->
  loop (sort_body size less fuel n) f (2 ^ (31 - Z.of_nat j), st) = None.
Proof.
  induction j as [|j IH]; intros f st Hj;
    (destruct f as [|f]; [reflexivity|]); rewrite loop_S; unfold sort_body at 1.
  - change (2 ^ (31 - Z.of_nat 0)) with (2 ^ 31).
    replace (2 ^ 31 <=? n) with true by (symmetry; apply Z.leb_le; lia).
    destruct (loop (pass_body size less fuel n (2 ^ 31)) fuel (0, st)) as [[i st']|] eqn:E;
      [|reflexivity].
    change (u32 (2 ^ 31 * 2)) with 0. apply sort_stuck_0.
  - assert (Hp : 0 < 2 ^ (31 - Z.of_nat (S j)) <= 2 ^ 30).
    { split; [apply Z.pow_pos_nonneg; lia|apply Z.pow_le_mono_r; lia]. }
    replace (2 ^ (31 - Z.of_nat (S j)) <=? n) with true by (symmetry; apply Z.leb_le; lia).
    destruct (loop (pass_body size less fuel n _) fuel (0, st)) as [[i st']|];
      [|reflexivity].
    rewrite u32_small by lia.
    replace (2 ^ (31 - Z.of_nat (S j)) * 2) with (2 ^ (31 - Z.of_nat j)).
    + apply IH. lia.
    + replace (31 - Z.of_nat j) with (Z.succ (31 - Z.of_nat (S j))) by lia.
      rewrite Z.pow_succ_r by lia. lia.
Qed.
End Diverges.

(** ** Scratch writes of a single merge, for every block the loops start *)

Section Safe.
Variables (size : Z) (less : list Z -> list Z -> bool) (n : Z).
Hypothesis size_nonneg : 0 <= size.
Hypothesis n_range : 0 <= n < 2 ^ 32.

Lemma copy_safe (d b b' : Z) (s s' : mstate) :
  Forall (scratch_in_bounds n size) (wlog s) ->
  dest s = d * size -> 0 <= d -> d + b <= n -> 1 <= b ->
  wlog s' = ScratchWrite (dest s) size :: wlog s ->
  dest s' = dest s + size ->
  0 <= b' <= b - 1 -> 0 <= lo s' -> 0 <= hi s' ->
  safe_inv n size b' s'.
Proof.
  intros Hw Hd Hd0 Hb Hb1 Ew Ed Hb' Hlo Hhi. split; [|split; [exact Hlo|split; [exact Hhi|]]].
  - rewrite Ew. constructor; [|exact Hw]. rewrite Hd. simpl. split; nia.
  - exists (d + 1). rewrite Ed, Hd. repeat split; lia.
Qed.

Lemma merge_loop_safe fuel arr loMax hiMax s r :
  loMax <= n -> hiMax <= n ->
  0 <= lo s < n -> 0 <= hi s < n ->
  safe_inv n size (merge_budget loMax hiMax s) s ->
  loop (merge_body size less arr loMax hiMax) fuel s = Some r ->
  safe_inv n size (drain_budget loMax hiMax r) r.
Proof.
  intros HloMax HhiMax Hlo Hhi Hsafe.
  apply (loop_inv _
           (fun s => 0 <= lo s < n /\ 0 <= hi s < n
                     /\ safe_inv n size (merge_budget loMax hiMax s) s)
           (fun r => safe_inv n size (drain_budget loMax hiMax r) r)); [|auto].
  clear s Hlo Hhi Hsafe. intros s x (Hlo & Hhi & Hw & _ & _ & d & Hd & Hd0 & Hb0 & Hb) Hx.
  unfold merge_body in Hx. cbv zeta in Hx.
  destruct (less _ _).
  - assert (El : lo (copy_lo size arr s) = lo s + 1)
      by (unfold copy_lo; cbn [lo]; apply u32_small; lia).
    assert (Eh : hi (copy_lo size arr s) = hi s) by reflexivity.
    destruct (Z.leb_spec loMax (lo (copy_lo size arr s))); injection Hx as <-.
    + apply (copy_safe d (merge_budget loMax hiMax s) _ s); try assumption;
        try reflexivity; unfold merge_budget, drain_budget in *; rewrite ?El, ?Eh; lia.
    + split; [lia|]. split; [rewrite Eh; lia|].
      apply (copy_safe d (merge_budget loMax hiMax s) _ s); try assumption;
        try reflexivity; unfold merge_budget, drain_budget in *; rewrite ?El, ?Eh; lia.
  - assert (Eh : hi (copy_hi size arr s) = hi s + 1)
      by (unfold copy_hi; cbn [hi]; apply u32_small; lia).
    assert (El : lo (copy_hi size arr s) = lo s) by reflexivity.
    destruct (Z.leb_spec hiMax (hi (copy_hi size arr s))); injection Hx as <-.
    + apply (copy_safe d (merge_budget loMax hiMax s) _ s); try assumption;
        try reflexivity; unfold merge_budget, drain_budget in *; rewrite ?El, ?Eh; lia.
    + split; [rewrite El; lia|]. split; [lia|].
      apply (copy_safe d (merge_budget loMax hiMax s) _ s); try assumption;
        try reflexivity; unfold merge_budget, drain_budget in *; rewrite ?El, ?Eh; lia.
Qed.

Lemma drain_lo_safe fuel arr loMax hiMax s r :
  loMax <= n ->
  safe_inv n size (drain_budget loMax hiMax s) s ->
  loop (drain_lo_body size arr loMax) fuel s = Some r ->
  safe_inv n size (drain_budget loMax hiMax r) r.
Proof.
  intros HloMax Hsafe.
  apply (loop_inv _
           (fun s => safe_inv n size (drain_budget loMax hiMax s) s)
           (fun r => safe_inv n size (drain_budget loMax hiMax r) r)); [|auto].
  clear s Hsafe. intros s x (Hw & Hlo & Hhi & d & Hd & Hd0 & Hb0 & Hb) Hx.
  unfold drain_lo_body in Hx. destruct (Z.ltb_spec (lo s) loMax).
  - assert (El : lo (copy_lo size arr s) = lo s + 1)
      by (unfold copy_lo; cbn [lo]; apply u32_small; lia).
    assert (Eh : hi (copy_lo size arr s) = hi s) by reflexivity.
    injection Hx as <-.
    apply (copy_safe d (drain_budget loMax hiMax s) _ s); try assumption;
      try reflexivity; unfold drain_budget in *; rewrite ?El, ?Eh; lia.
  - injection Hx as <-. split; [exact Hw|]. split; [exact Hlo|]. split; [exact Hhi|].
    exists d. auto.
Qed.

Lemma drain_hi_safe fuel arr loMax hiMax s r :
  hiMax <= n ->
  safe_inv n size (drain_budget loMax hiMax s) s ->
  loop (drain_hi_body size arr hiMax) fuel s = Some r ->
  safe_inv n size (drain_budget loMax hiMax r) r.
Proof.
  intros HhiMax Hsafe.
  apply (loop_inv _
           (fun s => safe_inv n size (drain_budget loMax hiMax s) s)
           (fun r => safe_inv n size (drain_budget loMax hiMax r) r)); [|auto].
  clear s Hsafe. intros s x (Hw & Hlo & Hhi & d & Hd & Hd0 & Hb0 & Hb) Hx.
  unfold drain_hi_body in Hx. destruct (Z.ltb_spec (hi s) hiMax).
  - assert (Eh : hi (copy_hi size arr s) = hi s + 1)
      by (unfold copy_hi; cbn [hi]; apply u32_small; lia).
    assert (El : lo (copy_hi size arr s) = lo s) by reflexivity.
    injection Hx as <-.
    apply (copy_safe d (drain_budget loMax hiMax s) _ s); try assumption;
      try reflexivity; unfold drain_budget in *; rewrite ?El, ?Eh; lia.
  - injection Hx as <-. split; [exact Hw|]. split; [exact Hlo|]. split; [exact Hhi|].
    exists d. auto.
Qed.

(** Every merge that the loops start, which they do when [m <= n] and
    [i < n - m], also in a call that does not return, keeps the writes to
    the scratch buffer below [n * size]. *)
Lemma merge_block_safe fuel m i st st' :
  0 <= m <= n -> 0 <= i < u32 (n - m) ->
  Forall (scratch_in_bounds n size) (trace st) ->
  merge_block size less fuel n m i st = Some st' ->
  Forall (scratch_in_bounds n size) (trace st').
Proof.
  intros Hm Hi Hw H. rewrite u32_small in Hi by lia.
  unfold merge_block in H. rewrite (u32_small (i + m)) in H by lia.
  pose proof (u32_range (i + 2 * m)) as Hh.
  assert (Hwrap : u32 (i + 2 * m) = i + 2 * m \/ u32 (i + 2 * m) = i + 2 * m - 2 ^ 32).
  { unfold u32. destruct (Z_lt_ge_dec (i + 2 * m) (2 ^ 32)).
    - left. apply Z.mod_small. lia.
    - right. symmetry. apply Z.mod_unique with (q := 1); lia. }
  set (hiMax := Z.min n (u32 (i + 2 * m))) in *.
  destruct (loop (merge_body _ _ _ _ _) fuel _) as [s1|] eqn:E1; [|discriminate].
  destruct (loop (drain_lo_body _ _ _) fuel s1) as [s2|] eqn:E2; [|discriminate].
  destruct (loop (drain_hi_body _ _ _) fuel s2) as [s3|] eqn:E3; [|discriminate].
  injection H as <-. cbn [trace].
  apply merge_loop_safe in E1; cbn [lo hi]; try (unfold hiMax; lia).
  - apply (drain_lo_safe _ _ _ hiMax) in E2; [|lia|exact E1].
    apply (drain_hi_safe _ _ (i + m)) in E3; [|unfold hiMax; lia|exact E2].
    constructor; [exact I|]. apply E3.
  - split; [exact Hw|]. cbn [lo hi dest wlog]. split; [lia|]. split; [lia|].
    exists 0. unfold merge_budget, drain_budget; cbn [lo hi]. unfold hiMax.
    repeat split; lia.
Qed.
End Safe.

Lemma nvMergeSort_diverges (fuel : nat) (arr : mem) (n : Z) (tempBuffer : mem)
  (size : Z) (less : list Z -> list Z -> bool) :
  2 ^ 31 <= n < 2 ^ 32 ->
  nvMergeSort fuel arr n tempBuffer size less = None.
Proof.
  intros Hn. unfold nvMergeSort.
  change 1 with (2 ^ (31 - Z.of_nat 31)) at 1.
  rewrite (sort_stuck size less fuel n Hn 31); [reflexivity|lia].
Qed.

(** ** Every run that returns *)

Lemma nvMergeSort_returns (fuel : nat) (arr : mem) (n : Z) (tempBuffer : mem)
  (size : Z) (less : list Z -> list Z -> bool) (st : sstate) :
  0 <= size < 2 ^ 32 -> 0 <= n < 2 ^ 32 ->
  nvMergeSort fuel arr n tempBuffer size less = Some st ->
  n < 2 ^ 31
  /\ Forall (scratch_in_bounds n size) (trace st)
  /\ (nowrap n size ->
      Forall (copyback_in_range n size) (trace st)
      /\ content_ok less (elems size arr n) (elems size (array st) n)
      /\ (asym_on less (elems size arr n) ->
          ascending less (elems size (array st) n))).
Proof.
  intros Hsize Hn Hret.
  assert (Hn' : n < 2 ^ 31).
  { destruct (Z_lt_ge_dec n (2 ^ 31)) as [H|H]; [exact H|].
    rewrite nvMergeSort_diverges in Hret by lia. discriminate. }
  split; [exact Hn'|].
  destruct (nvMergeSort_total (Nat.max fuel (S (Z.to_nat n))) arr n tempBuffer size less)
    as (st' & E & Hprops); [lia|lia|lia|].
  rewrite (nvMergeSort_mono size less n fuel _ (Nat.le_max_l _ _) _ _ _ Hret) in E.
  injection E as <-. exact Hprops.
Qed.

(** ** [nvMergeSort]: what a call does *)

Lemma ascending_adjacent {A : Type} (less : A -> A -> bool) (f : Z -> A) (n i : Z) :
  ascending less (tab f 0 n) -> 0 <= i -> i + 1 < n ->
  less (f (i + 1)) (f i) = false.
Proof.
  intros H Hi Hn.
  replace n with (i + (1 + (1 + (n - i - 2)))) in H by lia.
  rewrite !tab_app, !tab_one in H by lia.
  apply ascending_app_inv in H. destruct H as [_ H]. simpl in H.
  inversion H as [|? ? _ Hh]; subst. inversion Hh; subst. assumption.
Qed.

Lemma sto_of_key {A : Type} (key : A -> Z) (D : list A) :
  (forall x y, In x D -> In y D -> key x = key y -> x = y) ->
  strict_total_on (fun a b => key a <? key b) D.
Proof.
  intros Hinj. split.
  - intros x _. apply Z.ltb_irrefl.
  - intros x y z _ _ _ H1 H2. apply Z.ltb_lt in H1, H2. apply Z.ltb_lt. lia.
  - intros x y Hx Hy. destruct (Z.lt_total (key x) (key y)) as [H|[H|H]].
    + left. apply Z.ltb_lt. exact H.
    + right. left. apply Hinj; assumption.
    + right. right. apply Z.ltb_lt. exact H.
Qed.

Lemma strict_total_on_perm {A : Type} (less : A -> A -> bool) (D D' : list A) :
  strict_total_on less D -> (forall x, In x D' -> In x D) -> strict_total_on less D'.
Proof.
  intros [H1 H2 H3] Hsub. split.
  - intros x Hx. apply H1, Hsub, Hx.
  - intros x y z Hx Hy Hz. apply H2; apply Hsub; assumption.
  - intros x y Hx Hy. apply H3; apply Hsub; assumption.
Qed.

(** Arrays with the same elements hold the same bytes. *)
Lemma elems_bytes size m m' n :
  0 <= size -> 0 <= n ->
  elems size m n = elems size m' n -> read m 0 (n * size) = read m' 0 (n * size).
Proof.
  intros Hsize Hn E. unfold read. apply tab_ext. intros a Ha.
  assert (Hs : 0 < size) by nia.
  pose proof (Z.div_mod a size ltac:(lia)) as Hdm.
  pose proof (Z.mod_pos_bound a size Hs) as Hmod.
  assert (Hk : 0 <= a / size < n).
  { split; [apply Z.div_pos; lia|apply Z.div_lt_upper_bound; nia]. }
  assert (Ek : elem size m (a / size) = elem size m' (a / size)).
  { apply (f_equal (fun l => nth (Z.to_nat (a / size)) l [])) in E.
    unfold elems, slice in E. rewrite !tab_nth in E by lia. exact E. }
  apply (f_equal (fun l => nth (Z.to_nat (a mod size)) l 0)) in Ek.
  unfold elem, read in Ek. rewrite !tab_nth in Ek by lia.
  replace (a / size * size + a mod size) with a in Ek by lia. exact Ek.
Qed.

(** C1, amended: for an array smaller than [2^32] bytes and a
    comparator that is a strict total order on its elements, in the array
    a call returns with, [less(a[i+1], a[i])] is false for every adjacent
    pair; and the call returns when [n < 2^31]. *)
Theorem nvMergeSort_ascending (fuel : nat) (arr : mem) (n : Z) (tempBuffer : mem)
  (size : Z) (less : list Z -> list Z -> bool) :
  0 <= size < 2 ^ 32 -> 0 <= n < 2 ^ 32 -> n * size < 2 ^ 32 ->
  strict_total_on less (elems size arr n) ->
  (forall st, nvMergeSort fuel arr n tempBuffer size less = Some st ->
     forall i, 0 <= i -> i + 1 < n ->
       less (elem size (array st) (i + 1)) (elem size (array st) i) = false)
  /\ (n < 2 ^ 31 -> (Z.to_nat n < fuel)%nat ->
      exists st, nvMergeSort fuel arr n tempBuffer size less = Some st).
Proof.
  intros Hsize Hn Hnw Hsto. split.
  - intros st Hret i Hi Hi'.
    destruct (nvMergeSort_returns _ _ _ _ _ _ _ Hsize Hn Hret) as (_ & _ & Hc).
    destruct (Hc Hnw) as (_ & _ & Hasc).
    apply (ascending_adjacent less (elem size (array st)) n i); [|lia|lia].
    apply Hasc. apply (strict_total_asym less _ Hsto).
  - intros Hn' Hf.
    destruct (nvMergeSort_total fuel arr n tempBuffer size less) as (st & E & _);
      [lia|lia|lia|]. exists st. exact E.
Qed.

(** C2, amended: for an array smaller than [2^32] bytes and every
    comparator, the elements of the array a call returns with are a
    permutation of the elements it was called with; and the call returns
    when [n < 2^31]. *)
Theorem nvMergeSort_permutation (fuel : nat) (arr : mem) (n : Z) (tempBuffer : mem)
  (size : Z) (less : list Z -> list Z -> bool) :
  0 <= size < 2 ^ 32 -> 0 <= n < 2 ^ 32 -> n * size < 2 ^ 32 ->
  (forall st, nvMergeSort fuel arr n tempBuffer size less = Some st ->
     Permutation (elems size (array st) n) (elems size arr n))
  /\ (n < 2 ^ 31 -> (Z.to_nat n < fuel)%nat ->
      exists st, nvMergeSort fuel arr n tempBuffer size less = Some st).
Proof.
  intros Hsize Hn Hnw. split.
  - intros st Hret.
    destruct (nvMergeSort_returns _ _ _ _ _ _ _ Hsize Hn Hret) as (_ & _ & Hc).
    destruct (Hc Hnw) as (_ & [Hperm _] & _). exact Hperm.
  - intros Hn' Hf.
    destruct (nvMergeSort_total fuel arr n tempBuffer size less) as (st & E & _);
      [lia|lia|lia|]. exists st. exact E.
Qed.

(** C5, amended: for an array smaller than [2^32] bytes and a
    comparator that is a strict total order on its elements, a call on an
    array that is in ascending order returns it with the same bytes; so
    does a call on the array a previous call returned. *)
Theorem nvMergeSort_idempotent (fuel : nat) (arr : mem) (n : Z) (tempBuffer : mem)
  (size : Z) (less : list Z -> list Z -> bool) :
  0 <= size < 2 ^ 32 -> 0 <= n < 2 ^ 32 -> n * size < 2 ^ 32 ->
  strict_total_on less (elems size arr n) ->
  (ascending less (elems size arr n) ->
   (forall st, nvMergeSort fuel arr n tempBuffer size less = Some st ->
      read (array st) 0 (n * size) = read arr 0 (n * size))
   /\ (n < 2 ^ 31 -> (Z.to_nat n < fuel)%nat ->
       exists st, nvMergeSort fuel arr n tempBuffer size less = Some st))
  /\ (forall st1 fuel2 tempBuffer2 st2,
        nvMergeSort fuel arr n tempBuffer size less = Some st1 ->
        nvMergeSort fuel2 (array st1) n tempBuffer2 size less = Some st2 ->
        read (array st2) 0 (n * size) = read (array st1) 0 (n * size)).
Proof.
  intros Hsize Hn Hnw Hsto.
  assert (Hfix : forall f a t st,
             strict_total_on less (elems size a n) -> ascending less (elems size a n) ->
             nvMergeSort f a n t size less = Some st ->
             read (array st) 0 (n * size) = read a 0 (n * size)).
  { intros f a t st Hs Ha Hret.
    destruct (nvMergeSort_returns _ _ _ _ _ _ _ Hsize Hn Hret) as (_ & _ & Hc).
    destruct (Hc Hnw) as (_ & [_ Hid] & _).
    apply elems_bytes; [lia|lia|]. apply Hid; assumption. }
  split.
  - intros Hasc. split.
    + intros st Hret. apply (Hfix fuel arr tempBuffer st); assumption.
    + intros Hn' Hf.
      destruct (nvMergeSort_total fuel arr n tempBuffer size less) as (st & E & _);
        [lia|lia|lia|]. exists st. exact E.
  - intros st1 fuel2 tempBuffer2 st2 Hret1 Hret2.
    destruct (nvMergeSort_returns _ _ _ _ _ _ _ Hsize Hn Hret1) as (_ & _ & Hc).
    destruct (Hc Hnw) as (_ & [Hperm _] & Hasc).
    apply (Hfix fuel2 (array st1) tempBuffer2 st2); [| |exact Hret2].
    + apply (strict_total_on_perm less _ _ Hsto).
      intros x Hx. apply (Permutation_in _ Hperm). exact Hx.
    + apply Hasc. apply (strict_total_asym less _ Hsto).
Qed.

(** C6, amended: in a call that returns, every write to the scratch
    buffer lies below byte offset [n * size]; and when the array is
    smaller than [2^32] bytes, every copy back writes inside the range of
    the elements it merged. The call returns when [n < 2^31]. For the calls
    that do not return the bound on the scratch writes holds merge by
    merge: every merge the two [for] loops start (their guards are
    [m <= n] and [i < n - m]) keeps the scratch writes below
    [n * size]. *)
Theorem nvMergeSort_writes (fuel : nat) (arr : mem) (n : Z) (tempBuffer : mem)
  (size : Z) (less : list Z -> list Z -> bool) :
  0 <= size < 2 ^ 32 -> 0 <= n < 2 ^ 32 ->
  (forall st, nvMergeSort fuel arr n tempBuffer size less = Some st ->
     Forall (scratch_in_bounds n size) (trace st)
     /\ (n * size < 2 ^ 32 -> Forall (copyback_in_range n size) (trace st)))
  /\ (n < 2 ^ 31 -> (Z.to_nat n < fuel)%nat ->
      exists st, nvMergeSort fuel arr n tempBuffer size less = Some st)
  /\ (forall m i st st',
        0 <= m <= n -> 0 <= i < u32 (n - m) ->
        Forall (scratch_in_bounds n size) (trace st) ->
        merge_block size less fuel n m i st = Some st' ->
        Forall (scratch_in_bounds n size) (trace st')).
Proof.
  intros Hsize Hn. split; [|split].
  - intros st Hret.
    destruct (nvMergeSort_returns _ _ _ _ _ _ _ Hsize Hn Hret) as (_ & Hsw & Hc).
    split; [exact Hsw|]. intros Hnw. apply (Hc Hnw).
  - intros Hn' Hf.
    destruct (nvMergeSort_total fuel arr n tempBuffer size less) as (st & E & _);
      [lia|lia|lia|]. exists st. exact E.
  - intros m i st st'. apply merge_block_safe; lia.
Qed.

(** C3: a call returns, given enough fuel, exactly when [n < 2^31]; with
    [2^31] elements or more no amount of fuel lets it return. *)
Theorem nvMergeSort_returns_iff (arr : mem) (n : Z) (tempBuffer : mem)
  (size : Z) (less : list Z -> list Z -> bool) :
  0 <= size < 2 ^ 32 -> 0 <= n < 2 ^ 32 ->
  (exists fuel st, nvMergeSort fuel arr n tempBuffer size less = Some st)
  <-> n < 2 ^ 31.
Proof.
  intros Hsize Hn. split.
  - intros (fuel & st & Hret).
    apply (nvMergeSort_returns _ _ _ _ _ _ _ Hsize Hn Hret).
  - intros Hn'. exists (S (Z.to_nat n)).
    destruct (nvMergeSort_total (S (Z.to_nat n)) arr n tempBuffer size less)
      as (st & E & _); [lia|lia|lia|]. exists st. exact E.
Qed.

(** The scenarios of the specification: [5,3,1,4,2] sorts to
    [1,2,3,4,5]; an array of 0 or 1 element is left as it is, without a
    write; two elements take one comparison. *)
Example nvMergeSort_53142 :
  option_map (fun st => map as_u32 (elems 4 (array st) 5))
    (nvMergeSort 10 array_53142 5 (fun _ => 0) 4 integerLess)
  = Some [1; 2; 3; 4; 5].
Proof. reflexivity. Qed.

Example nvMergeSort_n0 (arr tempBuffer : mem) (size : Z)
  (less : list Z -> list Z -> bool) :
  nvMergeSort 1 arr 0 tempBuffer size less
  = Some {| array := arr; mergeArray := tempBuffer; trace := [] |}.
Proof. reflexivity. Qed.

Example nvMergeSort_n1 (arr tempBuffer : mem) (size : Z)
  (less : list Z -> list Z -> bool) :
  nvMergeSort 2 arr 1 tempBuffer size less
  = Some {| array := arr; mergeArray := tempBuffer; trace := [] |}.
Proof. reflexivity. Qed.

Lemma integerLess_53142 : strict_total_on integerLess (elems 4 array_53142 5).
Proof.
  apply (sto_of_key as_u32). intros x y Hx Hy.
  vm_compute in Hx, Hy.
  repeat (destruct Hx as [<-|Hx]); try contradiction;
    repeat (destruct Hy as [<-|Hy]); try contradiction;
    intros E; try reflexivity; vm_compute in E; discriminate.
Qed.

Lemma nvMergeSort_ascending_witness :
  exists st,
    nvMergeSort 10 array_53142 5 (fun _ => 0) 4 integerLess = Some st
    /\ forall i, 0 <= i -> i + 1 < 5 ->
         integerLess (elem 4 (array st) (i + 1)) (elem 4 (array st) i) = false.
Proof.
  destruct (nvMergeSort_ascending 10 array_53142 5 (fun _ => 0) 4 integerLess)
    as [Hasc Hret]; [lia | lia | lia | exact integerLess_53142 |].
  destruct Hret as [st E]; [lia | simpl; lia |].
  exists st. split; [exact E | exact (Hasc st E)].
Defined.

Lemma elems_two size m : elems size m 2 = [elem size m 0; elem size m 1].
Proof. reflexivity. Qed.

Lemma hd_read m off len d : 0 < len -> hd d (read m off len) = m off.
Proof. intros H. unfold read. rewrite tab_cons by lia. reflexivity. Qed.

(** C1 as stated fails for two elements of [2^31] bytes: the length of the
    copy back, [2^32], is reduced to zero, and the array is left as it
    was, the greater element first. *)
Lemma nvMergeSort_unsorted_4GiB :
  strict_total_on firstByteLess (elems (2 ^ 31) (ones_then_zeros (2 ^ 31)) 2)
  /\ exists st,
      nvMergeSort 3 (ones_then_zeros (2 ^ 31)) 2 (fun _ => 0) (2 ^ 31) firstByteLess = Some st
      /\ firstByteLess (elem (2 ^ 31) (array st) (0 + 1)) (elem (2 ^ 31) (array st) 0) = true.
Proof.
  split.
  - apply (sto_of_key (hd 0)). intros x y Hx Hy.
    assert (E0 : hd 0 (elem (2 ^ 31) (ones_then_zeros (2 ^ 31)) 0) = 1)
      by (unfold elem; rewrite hd_read by lia; reflexivity).
    assert (E1 : hd 0 (elem (2 ^ 31) (ones_then_zeros (2 ^ 31)) 1) = 0)
      by (unfold elem; rewrite hd_read by lia; reflexivity).
    rewrite elems_two in Hx, Hy.
    destruct Hx as [<-|[<-|[]]]; destruct Hy as [<-|[<-|[]]];
      rewrite ?E0, ?E1; intros E; try discriminate E; reflexivity.
  - eexists. split; [reflexivity|].
    unfold firstByteLess, elem. rewrite !hd_read by lia. lazy. reflexivity.
Qed.

Lemma nvMergeSort_permutation_witness :
  exists st,
    nvMergeSort 10 array_53142 5 (fun _ => 0) 4 integerLess = Some st
    /\ Permutation (elems 4 (array st) 5) (elems 4 array_53142 5).
Proof.
  destruct (nvMergeSort_permutation 10 array_53142 5 (fun _ => 0) 4 integerLess)
    as [Hperm Hret]; [lia | lia | lia |].
  destruct Hret as [st E]; [lia | simpl; lia |].
  exists st. split; [exact E | exact (Hperm st E)].
Defined.

(** C2 as stated fails for two elements of [2^31 + 1] bytes: the length
    of the copy back, [2^32 + 2], is reduced to 2, and the first two bytes
    of the second element overwrite those of the first. *)
Lemma nvMergeSort_not_permutation_4GiB :
  exists st,
    nvMergeSort 3 (ones_then_zeros (2 ^ 31 + 1)) 2 (fun _ => 0) (2 ^ 31 + 1) firstByteLess
    = Some st
    /\ ~ Permutation (elems (2 ^ 31 + 1) (array st) 2)
                     (elems (2 ^ 31 + 1) (ones_then_zeros (2 ^ 31 + 1)) 2).
Proof.
  eexists. split; [reflexivity|].
  intros Hp.
  match type of Hp with Permutation (elems _ ?a _) _ => set (arr' := a) in * end.
  assert (Hin : In (elem (2 ^ 31 + 1) arr' 0)
                  (elems (2 ^ 31 + 1) (ones_then_zeros (2 ^ 31 + 1)) 2)).
  { apply (Permutation_in _ Hp). rewrite elems_two. left. reflexivity. }
  rewrite elems_two in Hin. destruct Hin as [E|[E|[]]].
  - apply (f_equal (hd 0)) in E. unfold elem in E. rewrite !hd_read in E by lia.
    lazy in E. discriminate E.
  - apply (f_equal (fun l => nth (Z.to_nat 2) l 0)) in E.
    unfold elem, read in E. rewrite !tab_nth in E by lia.
    lazy in E. discriminate E.
Qed.

Lemma nvMergeSort_idempotent_witness :
  exists st1 st2,
    nvMergeSort 10 array_53142 5 (fun _ => 0) 4 integerLess = Some st1
    /\ nvMergeSort 10 (array st1) 5 (fun _ => 0) 4 integerLess = Some st2
    /\ read (array st2) 0 (5 * 4) = read (array st1) 0 (5 * 4).
Proof.
  destruct (nvMergeSort_idempotent 10 array_53142 5 (fun _ => 0) 4 integerLess)
    as [_ Hagain]; [lia | lia | lia | exact integerLess_53142 |].
  destruct (nvMergeSort_total 10 array_53142 5 (fun _ => 0) 4 integerLess)
    as (st1 & E1 & _); [lia | lia | simpl; lia |].
  destruct (nvMergeSort_total 10 (array st1) 5 (fun _ => 0) 4 integerLess)
    as (st2 & E2 & _); [lia | lia | simpl; lia |].
  exists st1, st2. split; [exact E1|]. split; [exact E2|].
  exact (Hagain st1 10%nat (fun _ => 0) st2 E1 E2).
Defined.

Lemma elems_three size m :
  elems size m 3 = [elem size m 0; elem size m 1; elem size m 2].
Proof. reflexivity. Qed.

(** C5 as stated fails when two elements that differ tie: [tied_pair] is
    in ascending order for [firstByteLess], the call swaps its two
    elements, and a second call swaps them back. It also fails, for a
    comparator without ties, for three elements of [2^31 + 1] bytes, in
    order: [EL(2)] is the offset 2, and the last merge and its copy back
    of [2^31 + 3] bytes change the first two elements. *)
Lemma nvMergeSort_not_idempotent :
  (ascending firstByteLess (elems 2 tied_pair 2)
   /\ exists st1 st2,
       nvMergeSort 3 tied_pair 2 (fun _ => 0) 2 firstByteLess = Some st1
       /\ read (array st1) 0 (2 * 2) <> read tied_pair 0 (2 * 2)
       /\ nvMergeSort 3 (array st1) 2 (fun _ => 0) 2 firstByteLess = Some st2
       /\ read (array st2) 0 (2 * 2) <> read (array st1) 0 (2 * 2))
  /\ (strict_total_on firstByteLess (elems (2 ^ 31 + 1) (three_runs (2 ^ 31 + 1)) 3)
      /\ ascending firstByteLess (elems (2 ^ 31 + 1) (three_runs (2 ^ 31 + 1)) 3)
      /\ exists st,
          nvMergeSort 4 (three_runs (2 ^ 31 + 1)) 3 (fun _ => 0) (2 ^ 31 + 1) firstByteLess
          = Some st
          /\ read (array st) 0 (3 * (2 ^ 31 + 1))
             <> read (three_runs (2 ^ 31 + 1)) 0 (3 * (2 ^ 31 + 1))).
Proof.
  split.
  - split.
    + rewrite elems_two. repeat constructor.
    + eexists. eexists. split; [reflexivity|]. split; [vm_compute; discriminate|].
      split; [reflexivity|]. vm_compute. discriminate.
  - assert (K0 : hd 0 (elem (2 ^ 31 + 1) (three_runs (2 ^ 31 + 1)) 0) = 1)
      by (unfold elem; rewrite hd_read by lia; reflexivity).
    assert (K1 : hd 0 (elem (2 ^ 31 + 1) (three_runs (2 ^ 31 + 1)) 1) = 2)
      by (unfold elem; rewrite hd_read by lia; reflexivity).
    assert (K2 : hd 0 (elem (2 ^ 31 + 1) (three_runs (2 ^ 31 + 1)) 2) = 3)
      by (unfold elem; rewrite hd_read by lia; reflexivity).
    split; [|split].
    + apply (sto_of_key (hd 0)). intros x y Hx Hy.
      rewrite elems_three in Hx, Hy.
      destruct Hx as [<-|[<-|[<-|[]]]]; destruct Hy as [<-|[<-|[<-|[]]]];
        rewrite ?K0, ?K1, ?K2; intros E; try discriminate E; reflexivity.
    + rewrite elems_three. unfold ascending, firstByteLess.
      repeat constructor; rewrite ?K0, ?K1, ?K2; reflexivity.
    + assert (H : option_map (fun st => array st (2 ^ 31))
                    (nvMergeSort 4 (three_runs (2 ^ 31 + 1)) 3 (fun _ => 0)
                       (2 ^ 31 + 1) firstByteLess) = Some 2) by reflexivity.
      destruct (nvMergeSort 4 (three_runs (2 ^ 31 + 1)) 3 (fun _ => 0)
                  (2 ^ 31 + 1) firstByteLess) as [st|]; [|discriminate H].
      cbn [option_map] in H. exists st. split; [reflexivity|].
      intros E. apply (f_equal (fun l => nth (Z.to_nat (2 ^ 31)) l 0)) in E.
      unfold read in E. rewrite !tab_nth in E by lia.
      assert (E' : array st (2 ^ 31) = 2) by congruence.
      rewrite Z.add_0_l, E' in E. discriminate E.
Qed.

Lemma nvMergeSort_writes_witness :
  exists st,
    nvMergeSort 10 array_53142 5 (fun _ => 0) 4 integerLess = Some st
    /\ Forall (scratch_in_bounds 5 4) (trace st)
    /\ Forall (copyback_in_range 5 4) (trace st).
Proof.
  destruct (nvMergeSort_writes 10 array_53142 5 (fun _ => 0) 4 integerLess)
    as (Hw & Hret & _); [lia | lia |].
  destruct Hret as [st E]; [lia | simpl; lia |].
  exists st. split; [exact E|].
  destruct (Hw st E) as [Hs Hc]. split; [exact Hs | apply Hc; lia].
Defined.

Lemma trace_8GiB :
  option_map trace
    (nvMergeSort 5 (fun _ => 0) 4 (fun _ => 0) (2 ^ 31 + 1) (fun _ _ => false))
  = Some [CopyBack 0 4 0 4;
          ScratchWrite 6442450947 2147483649;
          ScratchWrite 4294967298 2147483649;
          ScratchWrite 2147483649 2147483649;
          ScratchWrite 0 2147483649;
          CopyBack 2 2 2 4;
          ScratchWrite 2147483649 2147483649;
          ScratchWrite 0 2147483649;
          CopyBack 0 2 0 2;
          ScratchWrite 2147483649 2147483649;
          ScratchWrite 0 2147483649].
Proof. reflexivity. Qed.

(** C6 as stated fails for four elements of [2^31 + 1] bytes: the copy
    back of the merge of the elements 2 and 3 writes the bytes 2 and 3 of
    the array, which belong to element 0. *)
Lemma nvMergeSort_copy_back_elsewhere_8GiB :
  exists st,
    nvMergeSort 5 (fun _ => 0) 4 (fun _ => 0) (2 ^ 31 + 1) (fun _ _ => false) = Some st
    /\ In (CopyBack 2 2 2 4) (trace st)
    /\ ~ Forall (copyback_in_range 4 (2 ^ 31 + 1)) (trace st).
Proof.
  pose proof trace_8GiB as H.
  destruct (nvMergeSort 5 (fun _ => 0) 4 (fun _ => 0) (2 ^ 31 + 1) (fun _ _ => false))
    as [st|]; [|discriminate H].
  injection H as H. exists st. split; [reflexivity|]. rewrite H.
  assert (Hin : In (CopyBack 2 2 2 4)
                  [CopyBack 0 4 0 4;
                   ScratchWrite 6442450947 2147483649;
                   ScratchWrite 4294967298 2147483649;
                   ScratchWrite 2147483649 2147483649;
                   ScratchWrite 0 2147483649;
                   CopyBack 2 2 2 4;
                   ScratchWrite 2147483649 2147483649;
                   ScratchWrite 0 2147483649;
                   CopyBack 0 2 0 2;
                   ScratchWrite 2147483649 2147483649;
                   ScratchWrite 0 2147483649]).
  { do 5 right. left. reflexivity. }
  split; [exact Hin|].
  intros HF. rewrite Forall_forall in HF. specialize (HF _ Hin).
  simpl in HF. lia.
Qed.

Lemma nvMergeSort_returns_iff_witness :
  (exists fuel st, nvMergeSort fuel array_53142 5 (fun _ => 0) 4 integerLess = Some st)
  /\ ~ (exists fuel st,
          nvMergeSort fuel (fun _ => 0) (2 ^ 31) (fun _ => 0) 1 (fun _ _ => false)
          = Some st).
Proof.
  split.
  - apply (nvMergeSort_returns_iff array_53142 5 (fun _ => 0) 4 integerLess); lia.
  - intros H.
    apply (nvMergeSort_returns_iff (fun _ => 0) (2 ^ 31) (fun _ => 0) 1 (fun _ _ => false)) in H;
      lia.
Defined.

(** ** One step of a merge *)

Lemma read_portMemCopy dst doff src soff len :
  read (portMemCopy dst doff src soff len) doff len = read src soff len.
Proof.
  unfold read. apply tab_ext2. intros j Hj.
  rewrite portMemCopy_in by lia. f_equal. lia.
Qed.

(** C4, amended: on an array smaller than [2^32] bytes, in every
    iteration of the merge loop entered while both runs have elements
    left ([lo < loMax] and [hi < hiMax]), the element copied to the
    scratch buffer is the head of the left run, the element of index
    [lo], which the left index then passes, when [less] of the head of
    the left run and the head of the right run is true, and the head of
    the right run, the element of index [hi], otherwise, so also on a
    tie; the loop goes on while both runs have elements left.  A whole
    merge leaves in the scratch buffer what the rule of the specification
    produces from the two runs; and the sort is not stable: the two
    elements of [tied_pair], which tie, are swapped. *)
Theorem merge_takes_left_iff_less (size : Z) (less : list Z -> list Z -> bool)
  (arr : mem) (n : Z) :
  0 <= size < 2 ^ 32 -> 0 <= n < 2 ^ 32 -> n * size < 2 ^ 32 ->
  (forall loMax hiMax s,
      0 <= lo s < loMax -> loMax <= n -> 0 <= hi s < hiMax -> hiMax <= n ->
      let left := elem size arr (lo s) in
      let right := elem size arr (hi s) in
      exists s',
        merge_body size less arr loMax hiMax s
        = Some (if (lo s' <? loMax) && (hi s' <? hiMax)
                then Continue s' else Break s')
        /\ dest s' = dest s + size
        /\ (if less left right
            then read (tmp s') (dest s) size = left
                 /\ lo s' = lo s + 1 /\ hi s' = hi s
            else read (tmp s') (dest s) size = right
                 /\ lo s' = lo s /\ hi s' = hi s + 1))
  /\ (forall fuel tempBuffer m i,
      n < 2 ^ 31 -> 0 <= i -> 1 <= m -> i + m < n -> (Z.to_nat n < fuel)%nat ->
      exists st',
        merge_block size less fuel n m i
          {| array := arr; mergeArray := tempBuffer; trace := [] |} = Some st'
        /\ slice size (mergeArray st') 0 (Z.min n (i + 2 * m) - i)
           = spec_merge less (slice size arr i m)
               (slice size arr (i + m) (Z.min n (i + 2 * m) - (i + m))))
  /\ (exists st,
        nvMergeSort 3 tied_pair 2 (fun _ => 0) 2 firstByteLess = Some st
        /\ firstByteLess (elem 2 tied_pair 0) (elem 2 tied_pair 1) = false
        /\ firstByteLess (elem 2 tied_pair 1) (elem 2 tied_pair 0) = false
        /\ elem 2 tied_pair 0 <> elem 2 tied_pair 1
        /\ elems 2 (array st) 2 = [elem 2 tied_pair 1; elem 2 tied_pair 0]).
Proof.
  intros Hsize Hn Hnw. split; [|split].
  - intros loMax hiMax s Hlo HloMax Hhi HhiMax left right.
    unfold merge_body. cbv zeta.
    rewrite (EL_nowrap size n (lo s)), (EL_nowrap size n (hi s)) by (assumption || lia).
    fold (elem size arr (lo s)) (elem size arr (hi s)). fold left right.
    destruct (less left right).
    + exists (copy_lo size arr s).
      assert (El : lo (copy_lo size arr s) = lo s + 1)
        by (unfold copy_lo; cbn [lo]; apply u32_small; lia).
      assert (Eh : hi (copy_lo size arr s) = hi s) by reflexivity.
      split; [|split].
      * rewrite Eh. replace (hi s <? hiMax) with true by (symmetry; apply Z.ltb_lt; lia).
        rewrite andb_true_r.
        destruct (Z.leb_spec loMax (lo (copy_lo size arr s))),
          (Z.ltb_spec (lo (copy_lo size arr s)) loMax); try reflexivity; lia.
      * reflexivity.
      * split; [|split; assumption].
        unfold copy_lo; cbn [tmp]. rewrite read_portMemCopy.
        rewrite (EL_nowrap size n (lo s)) by (assumption || lia). reflexivity.
    + exists (copy_hi size arr s).
      assert (El : lo (copy_hi size arr s) = lo s) by reflexivity.
      assert (Eh : hi (copy_hi size arr s) = hi s + 1)
        by (unfold copy_hi; cbn [hi]; apply u32_small; lia).
      split; [|split].
      * rewrite El. replace (lo s <? loMax) with true by (symmetry; apply Z.ltb_lt; lia).
        rewrite andb_true_l.
        destruct (Z.leb_spec hiMax (hi (copy_hi size arr s))),
          (Z.ltb_spec (hi (copy_hi size arr s)) hiMax); try reflexivity; lia.
      * reflexivity.
      * split; [|split; assumption].
        unfold copy_hi; cbn [tmp]. rewrite read_portMemCopy.
        rewrite (EL_nowrap size n (hi s)) by (assumption || lia). reflexivity.
  - intros fuel tempBuffer m i Hn' Hi Hm Him Hf.
    destruct (merge_block_total size less fuel n Hsize ltac:(lia) Hf m i
                {| array := arr; mergeArray := tempBuffer; trace := [] |} Hi Hm Him)
      as (st' & E & _ & Hc); [constructor|intros _; constructor|].
    exists st'. split; [exact E|]. apply (Hc Hnw).
  - assert (H : option_map (fun st => elems 2 (array st) 2)
                  (nvMergeSort 3 tied_pair 2 (fun _ => 0) 2 firstByteLess)
                = Some [elem 2 tied_pair 1; elem 2 tied_pair 0]) by reflexivity.
    destruct (nvMergeSort 3 tied_pair 2 (fun _ => 0) 2 firstByteLess) as [st|];
      [|discriminate H].
    exists st.
    split; [reflexivity|]. split; [reflexivity|]. split; [reflexivity|].
    split; [discriminate|]. cbn [option_map] in H. congruence.
Qed.

Lemma merge_takes_left_iff_less_witness :
  exists s',
    merge_body 4 integerLess array_53142 1 2
      {| lo := 0; hi := 1; dest := 0; tmp := fun _ => 0; wlog := [] |}
    = Some (if (lo s' <? 1) && (hi s' <? 2) then Continue s' else Break s')
    /\ dest s' = 0 + 4
    /\ (if integerLess (elem 4 array_53142 0) (elem 4 array_53142 1)
        then read (tmp s') 0 4 = elem 4 array_53142 0 /\ lo s' = 0 + 1 /\ hi s' = 1
        else read (tmp s') 0 4 = elem 4 array_53142 1 /\ lo s' = 0 /\ hi s' = 1 + 1).
Proof.
  destruct (merge_takes_left_iff_less 4 integerLess array_53142 5) as (H & _ & _);
    [lia | lia | lia |].
  apply (H 1 2 {| lo := 0; hi := 1; dest := 0; tmp := fun _ => 0; wlog := [] |});
    cbn [lo hi]; lia.
Defined.

(** C4 as stated fails on an array of 4 GiB or more.  With three elements
    of [2^31 + 1] bytes (first bytes 1, 2 and 3), the second pass merges
    the run of elements 0 and 1 with the run of element 2: it starts with
    [lo = 0], [hi = 2], [loMax = 2], [hiMax = 3].  [less] of the heads of
    the two runs is true, yet the iteration passes the right index and
    copies neither head: the offset of element 2 is 2 on [NvU32], inside
    element 0, so the comparator is given bytes that tie and the block
    copied is the one at offset 2, whose byte of index [2^31 - 1] is the
    first byte of element 1.  In the call, the second element of the
    scratch buffer is then element 0, where the rule puts element 1. *)
Lemma merge_takes_right_4GiB :
  firstByteLess (elem (2 ^ 31 + 1) (three_runs (2 ^ 31 + 1)) 0)
                (elem (2 ^ 31 + 1) (three_runs (2 ^ 31 + 1)) 2) = true
  /\ (exists s',
        merge_body (2 ^ 31 + 1) firstByteLess (three_runs (2 ^ 31 + 1)) 2 3
          {| lo := 0; hi := 2; dest := 0; tmp := fun _ => 0; wlog := [] |}
        = Some (Break s')
        /\ lo s' = 0 /\ hi s' = 3
        /\ read (tmp s') 0 (2 ^ 31 + 1) <> elem (2 ^ 31 + 1) (three_runs (2 ^ 31 + 1)) 0
        /\ read (tmp s') 0 (2 ^ 31 + 1) <> elem (2 ^ 31 + 1) (three_runs (2 ^ 31 + 1)) 2)
  /\ (exists st,
        nvMergeSort 4 (three_runs (2 ^ 31 + 1)) 3 (fun _ => 0) (2 ^ 31 + 1) firstByteLess
        = Some st
        /\ hd 0 (elem (2 ^ 31 + 1) (mergeArray st) 1) = 1
        /\ hd 0 (elem (2 ^ 31 + 1) (three_runs (2 ^ 31 + 1)) 1) = 2).
Proof.
  split; [|split].
  - unfold firstByteLess, elem. rewrite !hd_read by lia. reflexivity.
  - exists (copy_hi (2 ^ 31 + 1) (three_runs (2 ^ 31 + 1))
              {| lo := 0; hi := 2; dest := 0; tmp := fun _ => 0; wlog := [] |}).
    split; [|split; [reflexivity|split; [reflexivity|split]]].
    + unfold merge_body, firstByteLess. cbv zeta. rewrite !hd_read by lia.
      cbn [lo hi]. replace (EL (2 ^ 31 + 1) 0) with 0 by reflexivity.
      replace (EL (2 ^ 31 + 1) 2) with 2 by reflexivity.
      replace (three_runs (2 ^ 31 + 1) 0 <? three_runs (2 ^ 31 + 1) 2) with false
        by reflexivity.
      reflexivity.
    + intros E. apply (f_equal (fun l => nth (Z.to_nat (2 ^ 31 - 1)) l 0)) in E.
      unfold elem, read in E. rewrite !tab_nth in E by lia.
      unfold copy_hi in E. cbn [tmp dest hi] in E.
      rewrite portMemCopy_in in E by lia.
      replace (EL (2 ^ 31 + 1) 2) with 2 in E by reflexivity.
      discriminate E.
    + intros E. apply (f_equal (fun l => nth 0 l 0)) in E.
      unfold elem, read in E.
      rewrite (tab_nth _ 0 (2 ^ 31 + 1) 0), (tab_nth _ (2 * (2 ^ 31 + 1)) (2 ^ 31 + 1) 0)
        in E by lia.
      unfold copy_hi in E. cbn [tmp dest hi] in E.
      rewrite portMemCopy_in in E by lia.
      replace (EL (2 ^ 31 + 1) 2) with 2 in E by reflexivity.
      discriminate E.
  - assert (H : option_map (fun st => mergeArray st (1 * (2 ^ 31 + 1)))
                  (nvMergeSort 4 (three_runs (2 ^ 31 + 1)) 3 (fun _ => 0)
                     (2 ^ 31 + 1) firstByteLess) = Some 1) by reflexivity.
    destruct (nvMergeSort 4 (three_runs (2 ^ 31 + 1)) 3 (fun _ => 0)
                (2 ^ 31 + 1) firstByteLess) as [st|]; [|discriminate H].
    cbn [option_map] in H. exists st. split; [reflexivity|].
    unfold elem. rewrite !hd_read by lia. split; [congruence|reflexivity].
Qed.

(** * Further properties of the code *)

(** ** [nvLogBase2] *)

Lemma shiftl_1_u64 i : 0 <= i < 64 -> u64 (Z.shiftl 1 i) = 2 ^ i.
Proof.
  intros Hi. unfold u64. rewrite Z.shiftl_1_l.
  apply Z.mod_small. split; [apply Z.pow_nonneg; lia|].
  apply Z.pow_lt_mono_r; lia.
Qed.

(** The loop of [nvLogBase2] stops at the first [k] from [i] on with
    [2^k = value], and at 64 when there is none. *)
Lemma log2_loop_hit value k (d : nat) : forall (fuel : nat) (i : Z),
  0 <= i -> i + Z.of_nat d = k -> k < 64 ->
  (forall j, i <= j < k -> 2 ^ j <> value) -> 2 ^ k = value ->
  (d < fuel)%nat ->
  loop (log2_body value) fuel i = Some k.
Proof.
  induction d as [|d IH]; intros fuel i Hi Hk Hk64 Hmiss Hhit Hf;
    (destruct fuel as [|fuel]; [lia|]); rewrite loop_S; unfold log2_body at 1.
  - replace (i <? 64) with true by (symmetry; apply Z.ltb_lt; lia).
    rewrite shiftl_1_u64 by lia. replace i with k by lia.
    rewrite Hhit, Z.eqb_refl. reflexivity.
  - replace (i <? 64) with true by (symmetry; apply Z.ltb_lt; lia).
    rewrite shiftl_1_u64 by lia.
    replace (2 ^ i =? value) with false
      by (symmetry; apply Z.eqb_neq; apply Hmiss; lia).
    rewrite u32_small by lia. apply IH; try lia.
    intros j Hj. apply Hmiss. lia.
Qed.

Lemma log2_loop_miss value (d : nat) : forall (fuel : nat) (i : Z),
  0 <= i -> i + Z.of_nat d = 64 ->
  (forall j, i <= j < 64 -> 2 ^ j <> value) ->
  (d < fuel)%nat ->
  loop (log2_body value) fuel i = Some 64.
Proof.
  induction d as [|d IH]; intros fuel i Hi Hk Hmiss Hf;
    (destruct fuel as [|fuel]; [lia|]); rewrite loop_S; unfold log2_body at 1.
  - replace i with 64 by lia. reflexivity.
  - replace (i <? 64) with true by (symmetry; apply Z.ltb_lt; lia).
    rewrite shiftl_1_u64 by lia.
    replace (2 ^ i =? value) with false
      by (symmetry; apply Z.eqb_neq; apply Hmiss; lia).
    rewrite u32_small by lia. apply IH; try lia.
    intros j Hj. apply Hmiss. lia.
Qed.

Lemma pow2_lower_ne j k : 0 <= j < k -> 2 ^ j <> 2 ^ k.
Proof.
  intros Hj E. assert (2 ^ j < 2 ^ k) by (apply Z.pow_lt_mono_r; lia). lia.
Qed.

(** [(value & (value - 1)) == 0] holds of a power of two. *)
Lemma land_pow2_pred k : 0 <= k < 64 -> Z.land (2 ^ k) (u64 (2 ^ k - 1)) = 0.
Proof.
  intros Hk.
  assert (0 < 2 ^ k < 2 ^ 64).
  { split; [apply Z.pow_pos_nonneg; lia|apply Z.pow_lt_mono_r; lia]. }
  unfold u64. rewrite Z.mod_small by lia.
  replace (2 ^ k - 1) with (Z.ones k) by (rewrite Z.ones_equiv; lia).
  rewrite Z.land_ones by lia. apply Z.mod_same. lia.
Qed.

Lemma log2_loop_pow2 (fuel : nat) (k : Z) :
  0 <= k < 64 -> (Z.to_nat k < fuel)%nat ->
  loop (log2_body (2 ^ k)) fuel 0 = Some k.
Proof.
  intros Hk Hf. apply (log2_loop_hit (2 ^ k) k (Z.to_nat k)); try lia.
  intros j Hj. apply pow2_lower_ne. lia.
Qed.

(** X1: on a power of two [2^k] that fits 64 bits, [nvLogBase2] returns
    the exponent [k] and both of its assertions hold; [k + 1] iterations
    of its loop are enough. *)
Theorem nvLogBase2_pow2 (fuel : nat) (k : Z) :
  0 <= k < 64 -> (Z.to_nat k < fuel)%nat ->
  nvLogBase2 fuel (2 ^ k) = Some {| log_asserts := true; log_ret := k |}.
Proof.
  intros Hk Hf. unfold nvLogBase2.
  rewrite log2_loop_pow2, land_pow2_pred by lia.
  replace (k <? 64) with true by (symmetry; apply Z.ltb_lt; lia).
  reflexivity.
Qed.

Lemma nvLogBase2_pow2_witness :
  nvLogBase2 70 (2 ^ 40) = Some {| log_asserts := true; log_ret := 40 |}.
Proof. apply (nvLogBase2_pow2 70 40); [lia | simpl; lia]. Defined.

(** X2: on a value that is not a power of two (zero included)
    [nvLogBase2] returns 64, which is no exponent, and one of its
    assertions fails; the assertions hold exactly when the value is a
    power of two. *)
Theorem nvLogBase2_not_pow2 (fuel : nat) (value : Z) :
  (64 < fuel)%nat ->
  exists r, nvLogBase2 fuel value = Some r
    /\ (log_asserts r = true <-> pow2_64 value)
    /\ (~ pow2_64 value -> log_ret r = 64)
    /\ 0 <= log_ret r <= 64.
Proof.
  intros Hf.
  destruct (Z.eq_dec value (2 ^ Z.log2 value)) as [E|E];
    [destruct (Z_lt_ge_dec (Z.log2 value) 64) as [Hlt|Hge]|].
  - pose proof (Z.log2_nonneg value) as Hl.
    rewrite E. unfold nvLogBase2.
    rewrite log2_loop_pow2, land_pow2_pred by lia.
    replace (Z.log2 value <? 64) with true by (symmetry; apply Z.ltb_lt; lia).
    eexists; split; [reflexivity|]. cbn [log_ret log_asserts].
    assert (pow2_64 (2 ^ Z.log2 value)) by (exists (Z.log2 value); split; [lia|reflexivity]).
    repeat split; auto; try lia. intros Hn. contradiction.
  - assert (Hn : ~ pow2_64 value).
    { intros [k [Hk ->]]. rewrite Z.log2_pow2 in Hge by lia. lia. }
    unfold nvLogBase2. rewrite (log2_loop_miss value 64 fuel 0); try lia.
    + eexists; split; [reflexivity|]. cbn [log_ret log_asserts].
      rewrite andb_false_r. repeat split; auto; try lia; try discriminate.
    + intros j Hj Ej. apply Hn. exists j. split; [lia|]. symmetry. exact Ej.
  - assert (Hn : ~ pow2_64 value).
    { intros [k [Hk Ek]]. apply E. rewrite Ek, Z.log2_pow2 by lia. reflexivity. }
    unfold nvLogBase2. rewrite (log2_loop_miss value 64 fuel 0); try lia.
    + eexists; split; [reflexivity|]. cbn [log_ret log_asserts].
      rewrite andb_false_r. repeat split; auto; try lia; try discriminate.
    + intros j Hj Ej. apply Hn. exists j. split; [lia|]. symmetry. exact Ej.
Qed.

Lemma nvLogBase2_not_pow2_witness :
  exists r, nvLogBase2 65 6 = Some r
    /\ (log_asserts r = true <-> pow2_64 6)
    /\ (~ pow2_64 6 -> log_ret r = 64)
    /\ 0 <= log_ret r <= 64.
Proof. apply (nvLogBase2_not_pow2 65 6). lia. Defined.

Lemma nvMsb64_pow2 x : 0 < x < 2 ^ 64 -> nvMsb64 x = 2 ^ Z.log2 x.
Proof.
  intros Hx. apply Z.bits_inj'. intros k Hk.
  rewrite nvMsb64_testbit by lia.
  rewrite Z.pow2_bits_eqb by apply Z.log2_nonneg.
  apply Z.eqb_sym.
Qed.

Lemma log2_64 x : 0 < x < 2 ^ 64 -> 0 <= Z.log2 x < 64.
Proof.
  intros Hx. split; [apply Z.log2_nonneg|apply Z.log2_lt_pow2; lia].
Qed.

(** X3: the mask of the most significant bit is a valid input of
    [nvLogBase2]: for a non-zero 64-bit [x], [nvLogBase2 (nvMsb64 x)] is
    the index of the most significant set bit of [x], [floor (log2 x)],
    and no assertion fails. *)
Theorem nvLogBase2_nvMsb64 (fuel : nat) (x : Z) :
  0 < x < 2 ^ 64 -> (64 <= fuel)%nat ->
  nvLogBase2 fuel (nvMsb64 x) = Some {| log_asserts := true; log_ret := Z.log2 x |}
  /\ 2 ^ Z.log2 x <= x < 2 ^ (Z.log2 x + 1).
Proof.
  intros Hx Hf. pose proof (log2_64 x Hx) as Hl. split.
  - rewrite nvMsb64_pow2 by assumption. unfold nvLogBase2.
    rewrite log2_loop_pow2, land_pow2_pred by lia.
    replace (Z.log2 x <? 64) with true by (symmetry; apply Z.ltb_lt; lia).
    reflexivity.
  - replace (Z.log2 x + 1) with (Z.succ (Z.log2 x)) by lia. apply Z.log2_spec. lia.
Qed.

Lemma nvLogBase2_nvMsb64_witness :
  nvLogBase2 64 (nvMsb64 1000) = Some {| log_asserts := true; log_ret := Z.log2 1000 |}
  /\ 2 ^ Z.log2 1000 <= 1000 < 2 ^ (Z.log2 1000 + 1).
Proof. apply (nvLogBase2_nvMsb64 64 1000); lia. Defined.
(** ** More on [nvMsb64] *)

Lemma nvMsb64_0 : nvMsb64 0 = 0.
Proof. reflexivity. Qed.

Lemma pow2_64_range k : 0 <= k < 64 -> 0 < 2 ^ k < 2 ^ 64.
Proof.
  intros Hk. split; [apply Z.pow_pos_nonneg; lia|apply Z.pow_lt_mono_r; lia].
Qed.

(** X4: [nvMsb64] is idempotent, and the values it leaves as they are
    are zero and the powers of two. *)
Theorem nvMsb64_idempotent (x : Z) :
  0 <= x < 2 ^ 64 ->
  nvMsb64 (nvMsb64 x) = nvMsb64 x
  /\ (nvMsb64 x = x <-> x = 0 \/ pow2_64 x).
Proof.
  intros Hx. destruct (Z.eq_dec x 0) as [->|Hnz].
  - split; [reflexivity|]. split; [left; reflexivity|reflexivity].
  - pose proof (log2_64 x ltac:(lia)) as Hl.
    rewrite (nvMsb64_pow2 x) by lia.
    pose proof (pow2_64_range _ Hl) as Hp.
    split.
    + rewrite nvMsb64_pow2 by lia. rewrite Z.log2_pow2 by lia. reflexivity.
    + split.
      * intros E. right. exists (Z.log2 x). split; [lia|]. symmetry. exact E.
      * intros [E|[k [Hk E]]]; [contradiction|].
        rewrite E, Z.log2_pow2 by lia. reflexivity.
Qed.

Lemma nvMsb64_idempotent_witness :
  nvMsb64 (nvMsb64 1000) = nvMsb64 1000
  /\ (nvMsb64 1000 = 1000 <-> 1000 = 0 \/ pow2_64 1000).
Proof. apply (nvMsb64_idempotent 1000). lia. Defined.

(** X5: for a non-zero [x] the mask [nvMsb64 x] is a bit of [x], it is
    at most [x], and [x] is less than twice the mask. *)
Theorem nvMsb64_bounds (x : Z) :
  0 < x < 2 ^ 64 ->
  nvMsb64 x <= x < 2 * nvMsb64 x
  /\ Z.land x (nvMsb64 x) = nvMsb64 x.
Proof.
  intros Hx. pose proof (log2_64 x Hx) as Hl.
  rewrite nvMsb64_pow2 by assumption. split.
  - pose proof (Z.log2_spec x ltac:(lia)) as H.
    rewrite Z.pow_succ_r in H by lia. lia.
  - apply Z.bits_inj'. intros k Hk.
    rewrite Z.land_spec, Z.pow2_bits_eqb by lia.
    destruct (Z.eqb_spec (Z.log2 x) k) as [<-|]; [|apply andb_false_r].
    rewrite Z.bit_log2 by lia. reflexivity.
Qed.

Lemma nvMsb64_bounds_witness :
  nvMsb64 1000 <= 1000 < 2 * nvMsb64 1000
  /\ Z.land 1000 (nvMsb64 1000) = nvMsb64 1000.
Proof. apply (nvMsb64_bounds 1000). lia. Defined.

(** X6: [nvMsb64] is monotone. *)
Theorem nvMsb64_monotone (x y : Z) :
  0 <= x -> x <= y -> y < 2 ^ 64 -> nvMsb64 x <= nvMsb64 y.
Proof.
  intros Hx Hxy Hy. destruct (Z.eq_dec x 0) as [->|Hnz].
  - rewrite nvMsb64_0. destruct (Z.eq_dec y 0) as [->|Hy0]; [rewrite nvMsb64_0; lia|].
    rewrite nvMsb64_pow2 by lia. apply Z.pow_nonneg. lia.
  - rewrite !nvMsb64_pow2 by lia. apply Z.pow_le_mono_r; [lia|].
    apply Z.log2_le_mono. exact Hxy.
Qed.

Lemma nvMsb64_monotone_witness : nvMsb64 1000 <= nvMsb64 5000.
Proof. apply (nvMsb64_monotone 1000 5000); lia. Defined.
(** ** Two runs of a loop, side by side *)

Lemma loop_rel {S T : Type} (body1 : S -> option (ctl S))
  (body2 : T -> option (ctl T)) (R Q : S -> T -> Prop) :
  (forall s t, R s t -> ctl_rel R Q (body1 s) (body2 t)) ->
  forall fuel s t, R s t -> option_rel Q (loop body1 fuel s) (loop body2 fuel t).
Proof.
  intros Hstep. induction fuel as [|fuel IH]; intros s t Hr; [exact I|].
  rewrite !loop_S. specialize (Hstep s t Hr). unfold ctl_rel in Hstep.
  destruct (body1 s) as [[s'|s']|], (body2 t) as [[t'|t']|]; try contradiction.
  - apply IH. exact Hstep.
  - exact Hstep.
  - exact I.
Qed.

(** ** More on the bit fields *)

Lemma nvBitFieldTest_field_bit f count bit :
  0 <= bit < u32 (count * 32) -> nvBitFieldTest f count bit = field_bit f bit.
Proof.
  intros Hb. unfold nvBitFieldTest, field_bit.
  replace (bit <? u32 (count * 32)) with true by (symmetry; apply Z.ltb_lt; lia).
  apply land_NVBIT_test. apply Z.mod_pos_bound. lia.
Qed.

Lemma set_word_testbit_high w b (v : bool) k :
  0 <= b < 32 -> 32 <= k ->
  Z.testbit (Z.lor (Z.land w (not32 (NVBIT b))) (if v then NVBIT b else 0)) k
  = false.
Proof.
  intros Hb Hk. rewrite NVBIT_pow2 by assumption.
  rewrite Z.lor_spec, Z.land_spec, not32_testbit by lia.
  replace (k <? 32) with false by (symmetry; apply Z.ltb_ge; lia).
  cbn [andb]. rewrite andb_false_r. cbn [orb].
  destruct v; [apply Z.pow2_bits_false; lia|apply Z.bits_0].
Qed.

Lemma set_word_nonneg w b (v : bool) :
  0 <= b < 32 ->
  0 <= Z.lor (Z.land w (not32 (NVBIT b))) (if v then NVBIT b else 0).
Proof.
  intros Hb. apply Z.lor_nonneg. split.
  - apply Z.land_nonneg. right. apply u32_range.
  - destruct v; [apply u32_range|lia].
Qed.

Lemma bits_below_32 z :
  0 <= z -> (forall k, 32 <= k -> Z.testbit z k = false) -> z < 2 ^ 32.
Proof.
  intros Hz Hb.
  assert (E : z = z mod 2 ^ 32).
  { apply Z.bits_inj'. intros k Hk. destruct (Z_lt_ge_dec k 32).
    - rewrite Z.mod_pow2_bits_low by lia. reflexivity.
    - rewrite Z.mod_pow2_bits_high by lia. apply Hb. lia. }
  rewrite E. apply Z.mod_pos_bound. lia.
Qed.

Lemma bits_above_32 z k : 0 <= z < 2 ^ 32 -> 32 <= k -> Z.testbit z k = false.
Proof.
  intros Hz Hk. destruct (Z.eq_dec z 0) as [->|]; [apply Z.bits_0|].
  apply Z.bits_above_log2; [lia|].
  assert (Z.log2 z < 32) by (apply Z.log2_lt_pow2; lia). lia.
Qed.

Lemma same_word_bits b1 b2 :
  0 <= b1 -> 0 <= b2 -> b1 / 32 = b2 / 32 -> b1 mod 32 = b2 mod 32 -> b1 = b2.
Proof.
  intros H1 H2 Ed Em.
  rewrite (Z.div_mod b1 32), (Z.div_mod b2 32) by lia. rewrite Ed, Em. reflexivity.
Qed.

Lemma field_bit_set f count bit (v : bool) X :
  0 <= bit -> 0 <= X ->
  field_bit (nvBitFieldSet f count bit v) X
  = if X =? bit then v else field_bit f X.
Proof.
  intros Hb HX. unfold field_bit, nvBitFieldSet, store.
  assert (Hm : 0 <= bit mod 32 < 32) by (apply Z.mod_pos_bound; lia).
  assert (Hm' : 0 <= X mod 32 < 32) by (apply Z.mod_pos_bound; lia).
  destruct (Z.eqb_spec (X / 32) (bit / 32)) as [E|E].
  - rewrite set_word_testbit by assumption.
    destruct (Z.eqb_spec (X mod 32) (bit mod 32)) as [E'|E'].
    + rewrite (same_word_bits X bit) by assumption. rewrite Z.eqb_refl. reflexivity.
    + destruct (Z.eqb_spec X bit) as [->|]; [contradiction|]. rewrite E. reflexivity.
  - destruct (Z.eqb_spec X bit) as [->|]; [contradiction|reflexivity].
Qed.

(** X7: two calls of [nvBitFieldSet] on different bits commute. *)
Theorem nvBitFieldSet_commute (f : mem) (count b1 b2 : Z) (v1 v2 : bool) :
  0 <= b1 -> 0 <= b2 -> b1 <> b2 ->
  forall w,
    nvBitFieldSet (nvBitFieldSet f count b1 v1) count b2 v2 w
    = nvBitFieldSet (nvBitFieldSet f count b2 v2) count b1 v1 w.
Proof.
  intros H1 H2 Hne w.
  assert (Hm1 : 0 <= b1 mod 32 < 32) by (apply Z.mod_pos_bound; lia).
  assert (Hm2 : 0 <= b2 mod 32 < 32) by (apply Z.mod_pos_bound; lia).
  unfold nvBitFieldSet, store.
  destruct (Z.eqb_spec (b2 / 32) (b1 / 32)) as [E|E].
  - rewrite E, !Z.eqb_refl.
    destruct (Z.eqb_spec w (b1 / 32)) as [->|]; [|reflexivity].
    assert (Hr : b1 mod 32 <> b2 mod 32).
    { intros Em. apply Hne. apply same_word_bits; auto. }
    apply Z.bits_inj'. intros k Hk. destruct (Z_lt_ge_dec k 32).
    + rewrite !set_word_testbit by lia.
      destruct (Z.eqb_spec k (b2 mod 32)), (Z.eqb_spec k (b1 mod 32));
        try reflexivity; lia.
    + rewrite !set_word_testbit_high by lia. reflexivity.
  - replace (b1 / 32 =? b2 / 32) with false by (symmetry; apply Z.eqb_neq; congruence).
    replace (b2 / 32 =? b1 / 32) with false by (symmetry; apply Z.eqb_neq; congruence).
    destruct (Z.eqb_spec w (b2 / 32)) as [E2|], (Z.eqb_spec w (b1 / 32)) as [E1|];
      try reflexivity. congruence.
Qed.

Lemma nvBitFieldSet_commute_witness :
  nvBitFieldSet (nvBitFieldSet (fun _ => 5) 2 3 true) 2 40 false 1
  = nvBitFieldSet (nvBitFieldSet (fun _ => 5) 2 40 false) 2 3 true 1.
Proof. apply (nvBitFieldSet_commute (fun _ => 5) 2 3 40 true false); lia. Defined.

(** X8: of two calls of [nvBitFieldSet] on the same bit the second one
    wins; in particular a call repeated changes nothing more. *)
Theorem nvBitFieldSet_overwrite (f : mem) (count bit : Z) (v v' : bool) :
  0 <= bit ->
  forall w,
    nvBitFieldSet (nvBitFieldSet f count bit v) count bit v' w
    = nvBitFieldSet f count bit v' w.
Proof.
  intros Hb w.
  assert (Hm : 0 <= bit mod 32 < 32) by (apply Z.mod_pos_bound; lia).
  unfold nvBitFieldSet, store. rewrite Z.eqb_refl.
  destruct (Z.eqb_spec w (bit / 32)) as [->|]; [|reflexivity].
  apply Z.bits_inj'. intros k Hk. destruct (Z_lt_ge_dec k 32).
  - rewrite !set_word_testbit by lia.
    destruct (Z.eqb_spec k (bit mod 32)); reflexivity.
  - rewrite !set_word_testbit_high by lia. reflexivity.
Qed.

Lemma nvBitFieldSet_overwrite_witness :
  nvBitFieldSet (nvBitFieldSet (fun _ => 5) 2 40 true) 2 40 false 1
  = nvBitFieldSet (fun _ => 5) 2 40 false 1.
Proof. apply (nvBitFieldSet_overwrite (fun _ => 5) 2 40 true false); lia. Defined.

(** X9: [nvBitFieldSet] keeps the words of the field 32 bits wide, and
    setting a bit to the value it has leaves the field as it is. *)
Theorem nvBitFieldSet_same_value (f : mem) (count bit : Z) (v : bool) :
  0 <= bit -> words32 f ->
  words32 (nvBitFieldSet f count bit v)
  /\ forall w, nvBitFieldSet f count bit (field_bit f bit) w = f w.
Proof.
  intros Hb Hf.
  assert (Hm : 0 <= bit mod 32 < 32) by (apply Z.mod_pos_bound; lia).
  split.
  - intros w. unfold nvBitFieldSet, store.
    destruct (Z.eqb_spec w (bit / 32)) as [->|]; [|apply Hf].
    split; [apply set_word_nonneg; lia|].
    apply bits_below_32; [apply set_word_nonneg; lia|].
    intros k Hk. apply set_word_testbit_high; lia.
  - intros w. unfold nvBitFieldSet, store.
    destruct (Z.eqb_spec w (bit / 32)) as [->|]; [|reflexivity].
    apply Z.bits_inj'. intros k Hk. destruct (Z_lt_ge_dec k 32).
    + rewrite set_word_testbit by lia. unfold field_bit.
      destruct (Z.eqb_spec k (bit mod 32)) as [->|]; reflexivity.
    + rewrite set_word_testbit_high by lia. symmetry.
      apply bits_above_32; [apply Hf|lia].
Qed.

Lemma nvBitFieldSet_same_value_witness :
  words32 (nvBitFieldSet (fun _ => 5) 2 40 true)
  /\ forall w, nvBitFieldSet (fun _ => 5) 2 40 (field_bit (fun _ => 5) 40) w = 5.
Proof.
  apply (nvBitFieldSet_same_value (fun _ => 5) 2 40 true); [lia|].
  intros w. simpl. lia.
Defined.
(** What the two scans yield on a field of fewer than [2^32] bits. *)
Lemma nvBitFieldLSZero_run (f : mem) (count : Z) (fuel : nat) :
  0 <= count -> count * 32 < 2 ^ 32 -> (Z.to_nat count < fuel)%nat ->
  exists r, nvBitFieldLSZero fuel f count = Some r
    /\ (lowest_zero f count r \/ all_set f count /\ r = count * 32).
Proof.
  intros Hc Hb Hf.
  destruct (lsz_loop_spec f count ltac:(lia) (Z.to_nat count) fuel 0)
    as [s [Hs Hr]]; try lia.
  unfold nvBitFieldLSZero. rewrite Hs.
  destruct (lsz_ret s) as [x|]; simpl in Hr.
  - destruct Hr as (j & r & -> & Hj & Hr & Hones & Hz & Hlow).
    eexists; split; [reflexivity|]. left.
    rewrite u32_small by lia.
    split; [lia|]. split; [rewrite field_bit_split by lia; exact Hz|].
    intros X HX. destruct (field_bit_word X) as (E & Hm & Hq); [lia|].
    unfold field_bit.
    destruct (Z_lt_ge_dec (X / 32) j); [apply Hones; lia|].
    replace (X / 32) with j by lia. apply Hlow. lia.
  - eexists; split; [reflexivity|]. right.
    split; [apply all_ones_all_set; exact Hr|apply u32_small; lia].
Qed.

Lemma nvBitFieldMSZero_run (f : mem) (count : Z) (fuel : nat) :
  0 <= count -> count * 32 < 2 ^ 32 -> (Z.to_nat count < fuel)%nat ->
  exists r, nvBitFieldMSZero fuel f count = Some r
    /\ (highest_zero f count r \/ all_set f count /\ r = count * 32).
Proof.
  intros Hc Hb Hf.
  destruct (msz_loop_spec f count ltac:(lia) (Z.to_nat count) fuel 0 (u32 (count - 1)))
    as [s [Hs Hr]]; try lia.
  { f_equal. lia. }
  unfold nvBitFieldMSZero. rewrite Hs.
  destruct (msz_ret s) as [x|]; simpl in Hr.
  - destruct Hr as (j & r & -> & Hj & Hr & Hones & Hz & Hhigh).
    eexists; split; [reflexivity|]. left.
    rewrite u32_small by lia.
    split; [lia|]. split; [rewrite field_bit_split by lia; exact Hz|].
    intros X HX. destruct (field_bit_word X) as (E & Hm & Hq); [lia|].
    unfold field_bit.
    assert (X / 32 < count) by (apply Z.div_lt_upper_bound; lia).
    destruct (Z_lt_ge_dec j (X / 32)); [apply Hones; lia|].
    replace (X / 32) with j by lia. apply Hhigh. lia.
  - eexists; split; [reflexivity|]. right.
    split; [apply all_ones_all_set; exact Hr|apply u32_small; lia].
Qed.

(** X10: the two scans read the words of index below [count] and no
    other: on two fields that agree there, they yield the same, whatever
    the other cells hold. *)
Theorem nvBitField_scans_read_in_bounds (f g : mem) (count : Z) (fuel : nat) :
  0 <= count < 2 ^ 32 ->
  (forall w, 0 <= w < count -> f w = g w) ->
  nvBitFieldLSZero fuel f count = nvBitFieldLSZero fuel g count
  /\ nvBitFieldMSZero fuel f count = nvBitFieldMSZero fuel g count.
Proof.
  intros Hc Hfg. split.
  - assert (Hstep : forall s t, s = t /\ 0 <= lsz_i s ->
              ctl_rel (fun s t => s = t /\ 0 <= lsz_i s) eq
                (lsz_body f count s) (lsz_body g count t)).
    { intros s t [<- Hi]. unfold ctl_rel, lsz_body.
      destruct (Z.ltb_spec (lsz_i s) count); [|reflexivity].
      rewrite <- (Hfg (lsz_i s)) by lia.
      destruct (negb (not32 (f (lsz_i s)) =? 0)); [reflexivity|].
      split; [reflexivity|apply u32_range]. }
    assert (H0 : LSZ 0 None = LSZ 0 None /\ 0 <= lsz_i (LSZ 0 None))
      by (split; [reflexivity|simpl; lia]).
    pose proof (loop_rel _ _ _ _ Hstep fuel _ _ H0) as H.
    unfold nvBitFieldLSZero, option_rel in *.
    destruct (loop (lsz_body f count) fuel _), (loop (lsz_body g count) fuel _);
      try contradiction; [subst; reflexivity|reflexivity].
  - assert (Hstep : forall s t,
              s = t /\ 0 <= msz_i s
              /\ (msz_i s < count -> msz_j s = count - 1 - msz_i s) ->
              ctl_rel (fun s t => s = t /\ 0 <= msz_i s
                                  /\ (msz_i s < count -> msz_j s = count - 1 - msz_i s))
                eq (msz_body f count s) (msz_body g count t)).
    { intros s t (<- & Hi & Hj). unfold ctl_rel, msz_body.
      destruct (Z.ltb_spec (msz_i s) count); [|reflexivity].
      rewrite <- (Hfg (msz_j s)) by lia.
      destruct (negb (not32 (f (msz_j s)) =? 0)); [reflexivity|].
      cbn [msz_i msz_j]. split; [reflexivity|]. split; [apply u32_range|].
      rewrite (u32_small (msz_i s + 1)) by lia. intros Hlt.
      rewrite Hj by lia. rewrite u32_small by lia. lia. }
    assert (H0 : MSZ (u32 (count - 1)) 0 None = MSZ (u32 (count - 1)) 0 None
                 /\ 0 <= msz_i (MSZ (u32 (count - 1)) 0 None)
                 /\ (msz_i (MSZ (u32 (count - 1)) 0 None) < count ->
                     msz_j (MSZ (u32 (count - 1)) 0 None)
                     = count - 1 - msz_i (MSZ (u32 (count - 1)) 0 None))).
    { cbn [msz_i msz_j]. split; [reflexivity|]. split; [lia|].
      intros Hlt. rewrite u32_small by lia. lia. }
    pose proof (loop_rel _ _ _ _ Hstep fuel _ _ H0) as H.
    unfold nvBitFieldMSZero, option_rel in *.
    destruct (loop (msz_body f count) fuel _), (loop (msz_body g count) fuel _);
      try contradiction; [subst; reflexivity|reflexivity].
Qed.

Lemma nvBitField_scans_read_in_bounds_witness :
  nvBitFieldLSZero 5 (fun w => if w <? 2 then 4294967295 else 0) 2
  = nvBitFieldLSZero 5 (fun _ => 4294967295) 2
  /\ nvBitFieldMSZero 5 (fun w => if w <? 2 then 4294967295 else 0) 2
     = nvBitFieldMSZero 5 (fun _ => 4294967295) 2.
Proof.
  apply (nvBitField_scans_read_in_bounds
           (fun w => if w <? 2 then 4294967295 else 0) (fun _ => 4294967295) 2 5);
    [lia|].
  intros w Hw. replace (w <? 2) with true by (symmetry; apply Z.ltb_lt; lia).
  reflexivity.
Defined.

(** X11: the bit [nvBitFieldLSZero] finds tests clear; once it is set
    it tests set, and the next scan finds a bit of greater index, or
    none. *)
Theorem nvBitFieldLSZero_then_Set (f : mem) (count : Z) (fuel : nat) (r : Z) :
  0 <= count -> count * 32 < 2 ^ 32 -> (Z.to_nat count < fuel)%nat ->
  nvBitFieldLSZero fuel f count = Some r -> r <> count * 32 ->
  nvBitFieldTest f count r = false
  /\ nvBitFieldTest (nvBitFieldSet f count r true) count r = true
  /\ exists r', nvBitFieldLSZero fuel (nvBitFieldSet f count r true) count = Some r'
                /\ r < r' <= count * 32.
Proof.
  intros Hc Hb Hf Hr Hne.
  destruct (nvBitFieldLSZero_run f count fuel Hc Hb Hf) as (r0 & E & Hlow).
  rewrite Hr in E. injection E as <-.
  destruct Hlow as [(Hrange & Hz & Hbelow)|[_ ->]]; [|contradiction].
  assert (Hu : u32 (count * 32) = count * 32) by (apply u32_small; lia).
  split; [|split].
  - rewrite nvBitFieldTest_field_bit by lia. exact Hz.
  - rewrite nvBitFieldTest_field_bit by lia.
    rewrite field_bit_set by lia. rewrite Z.eqb_refl. reflexivity.
  - destruct (nvBitFieldLSZero_run (nvBitFieldSet f count r true) count fuel Hc Hb Hf)
      as (r' & E' & Hlow').
    exists r'. split; [exact E'|].
    destruct Hlow' as [(Hrange' & Hz' & _)|[_ ->]]; [|lia].
    split; [|lia]. rewrite field_bit_set in Hz' by lia.
    destruct (Z.eqb_spec r' r) as [->|Hd]; [discriminate|].
    destruct (Z_lt_ge_dec r' r) as [Hlt|]; [|lia].
    rewrite Hbelow in Hz' by lia. discriminate.
Qed.

Lemma nvBitFieldLSZero_then_Set_witness :
  nvBitFieldTest (mem_of_list [4294967295; 4294967223]) 2 35 = false
  /\ nvBitFieldTest (nvBitFieldSet (mem_of_list [4294967295; 4294967223]) 2 35 true) 2 35
     = true
  /\ exists r',
      nvBitFieldLSZero 4 (nvBitFieldSet (mem_of_list [4294967295; 4294967223]) 2 35 true) 2
      = Some r'
      /\ 35 < r' <= 2 * 32.
Proof.
  apply (nvBitFieldLSZero_then_Set (mem_of_list [4294967295; 4294967223]) 2 4 35);
    [lia | reflexivity | simpl; lia | reflexivity | lia].
Defined.

(** X12: the two scans agree on whether the field has a zero bit, and
    the lowest zero bit is not above the highest. *)
Theorem nvBitField_LSZero_le_MSZero (f : mem) (count : Z) (fuel : nat) :
  0 <= count -> count * 32 < 2 ^ 32 -> (Z.to_nat count < fuel)%nat ->
  exists l h,
    nvBitFieldLSZero fuel f count = Some l
    /\ nvBitFieldMSZero fuel f count = Some h
    /\ l <= h <= count * 32
    /\ (l = count * 32 <-> h = count * 32).
Proof.
  intros Hc Hb Hf.
  destruct (nvBitFieldLSZero_run f count fuel Hc Hb Hf) as (l & El & Hl).
  destruct (nvBitFieldMSZero_run f count fuel Hc Hb Hf) as (h & Eh & Hh).
  exists l, h. split; [exact El|]. split; [exact Eh|].
  destruct Hl as [(Hlr & Hlz & Hlb)|[Hall ->]], Hh as [(Hhr & Hhz & Hha)|[Hall' ->]].
  - split; [|lia]. split; [|lia].
    destruct (Z_le_gt_dec l h); [assumption|].
    rewrite Hha in Hlz by lia. discriminate.
  - rewrite Hall' in Hlz by lia. discriminate.
  - rewrite Hall in Hhz by lia. discriminate.
  - split; [lia|tauto].
Qed.

Lemma nvBitField_LSZero_le_MSZero_witness :
  exists l h,
    nvBitFieldLSZero 4 (mem_of_list [4294967295; 4294967223]) 2 = Some l
    /\ nvBitFieldMSZero 4 (mem_of_list [4294967295; 4294967223]) 2 = Some h
    /\ l <= h <= 2 * 32
    /\ (l = 2 * 32 <-> h = 2 * 32).
Proof.
  apply (nvBitField_LSZero_le_MSZero (mem_of_list [4294967295; 4294967223]) 2 4);
    [lia | reflexivity | simpl; lia].
Defined.
(** ** [nvStrToL] *)

Section StrToL.
Variables (str : mem) (base stopChar : Z).

Lemma strtol_digit_range c d :
  strtol_digit base c = Some d -> c <> 0 /\ 0 <= d < 16.
Proof.
  unfold strtol_digit.
  destruct (Z.leb_spec 48 c), (Z.leb_spec c 57), (base =? 16),
    (Z.leb_spec 97 c), (Z.leb_spec c 102), (Z.leb_spec 65 c), (Z.leb_spec c 70);
    cbn [andb]; intros E; try discriminate E; injection E as <-; lia.
Qed.

Lemma scan_body_digit s d :
  strtol_digit base (str (sc_string s)) = Some d ->
  scan_body str base stopChar s = Some (Break (ScanState (sc_string s) 1)).
Proof.
  intros E. destruct (strtol_digit_range _ _ E) as [Hnz _].
  unfold scan_body. cbv zeta.
  replace (str (sc_string s) =? 0) with false by (symmetry; apply Z.eqb_neq; exact Hnz).
  cbn [negb]. revert E. unfold strtol_digit, RANGE, BASE16.
  rewrite (Z.eqb_sym 16 base).
  destruct (Z.leb_spec 48 (str (sc_string s))), (Z.leb_spec (str (sc_string s)) 57),
    (base =? 16), (Z.leb_spec 97 (str (sc_string s))),
    (Z.leb_spec (str (sc_string s)) 102), (Z.leb_spec 65 (str (sc_string s))),
    (Z.leb_spec (str (sc_string s)) 70);
    cbn [andb]; intros E; try discriminate E; reflexivity.
Qed.

Lemma conv_body_digit s d :
  strtol_digit base (str (cv_string s)) = Some d ->
  conv_body str base s = Some (Continue (conv_step base s d)).
Proof.
  intros E. destruct (strtol_digit_range _ _ E) as [Hnz _].
  unfold conv_body. cbv zeta.
  replace (str (cv_string s) =? 0) with false by (symmetry; apply Z.eqb_neq; exact Hnz).
  cbn [negb]. revert E. unfold strtol_digit, RANGE, BASE16.
  rewrite (Z.eqb_sym 16 base).
  destruct (Z.leb_spec 48 (str (cv_string s))), (Z.leb_spec (str (cv_string s)) 57),
    (base =? 16), (Z.leb_spec 97 (str (cv_string s))),
    (Z.leb_spec (str (cv_string s)) 102), (Z.leb_spec 65 (str (cv_string s))),
    (Z.leb_spec (str (cv_string s)) 70);
    cbn [andb]; intros E; try discriminate E; injection E as <-; reflexivity.
Qed.

Lemma no_digit_tests c :
  strtol_digit base c = None ->
  RANGE c 48 57 = false /\ (BASE16 =? base) && RANGE c 97 102 = false
  /\ (BASE16 =? base) && RANGE c 65 70 = false.
Proof.
  unfold strtol_digit, RANGE, BASE16. rewrite (Z.eqb_sym 16 base).
  destruct (Z.leb_spec 48 c), (Z.leb_spec c 57), (base =? 16),
    (Z.leb_spec 97 c), (Z.leb_spec c 102), (Z.leb_spec 65 c), (Z.leb_spec c 70);
    cbn [andb]; intros E; try discriminate E; auto.
Qed.

Lemma conv_body_stop s :
  strtol_digit base (str (cv_string s)) = None ->
  conv_body str base s = Some (Break s).
Proof.
  intros E. destruct (no_digit_tests _ E) as (E1 & E2 & E3).
  unfold conv_body. cbv zeta. rewrite E1, E2, E3.
  destruct (negb _); reflexivity.
Qed.

Lemma scan_body_skip s :
  skipped base stopChar (str (sc_string s)) ->
  scan_body str base stopChar s
  = Some (Continue (ScanState (sc_string s + 1) (sc_found s))).
Proof.
  intros (Hnz & E & Hns). destruct (no_digit_tests _ E) as (E1 & E2 & E3).
  unfold scan_body. cbv zeta. rewrite E1, E2, E3.
  replace (str (sc_string s) =? 0) with false by (symmetry; apply Z.eqb_neq; exact Hnz).
  replace (str (sc_string s) =? stopChar) with false
    by (symmetry; apply Z.eqb_neq; exact Hns).
  reflexivity.
Qed.

Lemma scan_body_stop s :
  strtol_digit base (str (sc_string s)) = None ->
  str (sc_string s) = 0 \/ str (sc_string s) = stopChar ->
  scan_body str base stopChar s = Some (Break s).
Proof.
  intros E Hc. destruct (no_digit_tests _ E) as (E1 & E2 & E3).
  unfold scan_body. cbv zeta. rewrite E1, E2, E3.
  destruct (Z.eqb_spec (str (sc_string s)) 0); [reflexivity|].
  cbn [negb]. destruct (Z.eqb_spec (str (sc_string s)) stopChar); [reflexivity|].
  destruct Hc; contradiction.
Qed.

(** The scan steps over [k] characters that are neither a digit, nor
    the stop character, nor the terminator. *)
Lemma scan_skips (k : nat) : forall (fuel : nat) (p fnd : Z),
  (forall j, p <= j < p + Z.of_nat k -> skipped base stopChar (str j)) ->
  loop (scan_body str base stopChar) (k + fuel) (ScanState p fnd)
  = loop (scan_body str base stopChar) fuel (ScanState (p + Z.of_nat k) fnd).
Proof.
  induction k as [|k IH]; intros fuel p fnd Hskip.
  - simpl. rewrite Z.add_0_r. reflexivity.
  - change (S k + fuel)%nat with (S (k + fuel)). rewrite loop_S.
    rewrite scan_body_skip by (apply Hskip; cbn [sc_string]; lia).
    cbn [sc_string sc_found]. rewrite IH by (intros j Hj; apply Hskip; lia).
    f_equal. f_equal. lia.
Qed.

Lemma u32_conv acc d : u32 (u32 (u32 acc * base) + d) = u32 (acc * base + d).
Proof.
  unfold u32. rewrite Z.mul_mod_idemp_l, Z.add_mod_idemp_l by lia. reflexivity.
Qed.

(** The conversion consumes [k] digits. *)
Lemma conv_digits (k : nat) : forall (fuel : nat) (p acc : Z),
  (forall j, p <= j < p + Z.of_nat k -> strtol_digit base (str j) <> None) ->
  loop (conv_body str base) (k + fuel) (ConvState p (u32 acc))
  = loop (conv_body str base) fuel
      (ConvState (p + Z.of_nat k)
         (u32 (fold_left
                 (fun acc c => acc * base + match strtol_digit base c with
                                            | Some d => d
                                            | None => 0
                                            end)
                 (read str p (Z.of_nat k)) acc))).
Proof.
  induction k as [|k IH]; intros fuel p acc Hdig.
  - simpl. rewrite Z.add_0_r. reflexivity.
  - change (S k + fuel)%nat with (S (k + fuel)). rewrite loop_S.
    destruct (strtol_digit base (str p)) as [d|] eqn:E;
      [|exfalso; apply (Hdig p); [lia|exact E]].
    rewrite (conv_body_digit _ d) by exact E.
    unfold conv_step. cbn [cv_string cv_num]. rewrite u32_conv.
    rewrite IH by (intros j Hj; apply Hdig; lia).
    unfold read. rewrite (tab_cons str p (Z.of_nat (S k))) by lia.
    cbn [fold_left]. rewrite E.
    replace (Z.of_nat (S k) - 1) with (Z.of_nat k) by lia.
    f_equal. f_equal. lia.
Qed.

Lemma s32_range x : 0 <= x < 2 ^ 32 -> - 2 ^ 31 <= s32 x < 2 ^ 31.
Proof. intros Hx. unfold s32. destruct (Z.ltb_spec x (2 ^ 31)); lia. Qed.

(** X13: when the first character of the string that is a digit, the
    stop character or the terminator is a digit, [nvStrToL] steps over
    what precedes it, converts the digits that follow, modulo [2^32] and
    read as a signed number, leaves [*pEndStr] at the first character
    that is no digit, and stores 1 in [*found]. *)
Theorem nvStrToL_number (fuel : nat) (string a b : Z) :
  string <= a < b ->
  (forall j, string <= j < a -> skipped base stopChar (str j)) ->
  (forall j, a <= j < b -> strtol_digit base (str j) <> None) ->
  strtol_digit base (str b) = None ->
  (Z.to_nat (b - string) < fuel)%nat ->
  nvStrToL fuel str string base stopChar
  = Some {| result := s32 (u32 (strtol_value base (read str a (b - a))));
            pEndStr := b; found := 1 |}.
Proof.
  intros Hab Hskip Hdig Hend Hf. unfold nvStrToL.
  replace fuel with (Z.to_nat (a - string) + (fuel - Z.to_nat (a - string)))%nat at 1 by lia.
  rewrite scan_skips by (intros j Hj; apply Hskip; lia).
  replace (string + Z.of_nat (Z.to_nat (a - string))) with a by lia.
  destruct (fuel - Z.to_nat (a - string))%nat as [|f1] eqn:Ef1; [lia|].
  rewrite loop_S.
  destruct (strtol_digit base (str a)) as [d|] eqn:Ea;
    [|exfalso; apply (Hdig a); [lia|exact Ea]].
  rewrite (scan_body_digit _ d) by exact Ea. cbn [sc_string sc_found].
  replace fuel with (Z.to_nat (b - a) + (fuel - Z.to_nat (b - a)))%nat at 1 by lia.
  change (ConvState a 0) with (ConvState a (u32 0)).
  rewrite conv_digits by (intros j Hj; apply Hdig; lia).
  replace (a + Z.of_nat (Z.to_nat (b - a))) with b by lia.
  replace (Z.of_nat (Z.to_nat (b - a))) with (b - a) by lia.
  destruct (fuel - Z.to_nat (b - a))%nat as [|f2] eqn:Ef2; [lia|].
  rewrite loop_S, conv_body_stop by exact Hend.
  reflexivity.
Qed.

(** X14: when the scan meets the terminator, or a stop character that
    is no digit, before any digit, [nvStrToL] returns 0, stores 0 in
    [*found] and leaves [*pEndStr] at that character. *)
Theorem nvStrToL_no_number (fuel : nat) (string a : Z) :
  string <= a ->
  (forall j, string <= j < a -> skipped base stopChar (str j)) ->
  strtol_digit base (str a) = None ->
  str a = 0 \/ str a = stopChar ->
  (Z.to_nat (a - string) < fuel)%nat ->
  nvStrToL fuel str string base stopChar
  = Some {| result := 0; pEndStr := a; found := 0 |}.
Proof.
  intros Ha Hskip Hnd Hstop Hf. unfold nvStrToL.
  replace fuel with (Z.to_nat (a - string) + (fuel - Z.to_nat (a - string)))%nat at 1 by lia.
  rewrite scan_skips by (intros j Hj; apply Hskip; lia).
  replace (string + Z.of_nat (Z.to_nat (a - string))) with a by lia.
  destruct (fuel - Z.to_nat (a - string))%nat as [|f1] eqn:Ef1; [lia|].
  rewrite loop_S, scan_body_stop by assumption.
  cbn [sc_string sc_found].
  destruct fuel as [|f2]; [lia|].
  rewrite loop_S, conv_body_stop by exact Hnd.
  reflexivity.
Qed.

(** X15: on a string that has a terminator [nvStrToL] returns: it
    reads no character behind the terminator, the pointer it stores in
    [*pEndStr] lies between [string] and the terminator and points to a
    character that is no digit, [*found] is 0 or 1, and the value
    returned is 0 when [*found] is 0. *)
Theorem nvStrToL_returns (fuel : nat) (string L : Z) :
  string <= L -> str L = 0 -> (Z.to_nat (L - string) < fuel)%nat ->
  exists r, nvStrToL fuel str string base stopChar = Some r
    /\ string <= pEndStr r <= L
    /\ strtol_digit base (str (pEndStr r)) = None
    /\ (found r = 0 \/ found r = 1)
    /\ (found r = 0 -> result r = 0
                       /\ (str (pEndStr r) = 0 \/ str (pEndStr r) = stopChar))
    /\ - 2 ^ 31 <= result r < 2 ^ 31.
Proof.
  intros HL Hnul Hf.
  assert (HndL : strtol_digit base (str L) = None).
  { destruct (strtol_digit base (str L)) as [d|] eqn:E; [|reflexivity].
    destruct (strtol_digit_range _ _ E) as [Hnz _]. contradiction. }
  destruct (loop_total (scan_body str base stopChar)
              (fun s => string <= sc_string s <= L /\ sc_found s = 0)
              (fun s => string <= sc_string s <= L
                        /\ (sc_found s = 1
                              /\ strtol_digit base (str (sc_string s)) <> None
                            \/ sc_found s = 0
                               /\ strtol_digit base (str (sc_string s)) = None
                               /\ (str (sc_string s) = 0
                                   \/ str (sc_string s) = stopChar)))
              (fun s => Z.to_nat (L - sc_string s)))
    with (fuel := fuel) (s := ScanState string 0) as (s1 & E1 & Hr1 & Hs1).
  { intros s [Hr Hfd].
    destruct (strtol_digit base (str (sc_string s))) as [d|] eqn:Ed.
    - eexists; split; [apply (scan_body_digit _ d); exact Ed|].
      cbn [sc_string sc_found]. split; [exact Hr|]. left. split; [reflexivity|].
      rewrite Ed. discriminate.
    - destruct (Z.eq_dec (str (sc_string s)) 0) as [E0|E0];
        [|destruct (Z.eq_dec (str (sc_string s)) stopChar) as [Es|Es]].
      + eexists; split; [apply scan_body_stop; auto|]. cbn beta iota.
        split; [exact Hr|]. right. auto.
      + eexists; split; [apply scan_body_stop; auto|]. cbn beta iota.
        split; [exact Hr|]. right. auto.
      + eexists; split; [apply scan_body_skip; repeat split; assumption|].
        cbn [sc_string sc_found].
        assert (sc_string s <> L) by (intros EL; rewrite EL in E0; contradiction).
        repeat split; lia. }
  { cbn [sc_string sc_found]. split; [lia|reflexivity]. }
  { cbn [sc_string]. lia. }
  unfold nvStrToL. rewrite E1.
  destruct Hs1 as [[Hfd Hd]|(Hfd & Hnd & Hstop)].
  - destruct (loop_total (conv_body str base)
                (fun s => sc_string s1 <= cv_string s <= L /\ 0 <= cv_num s < 2 ^ 32)
                (fun s => sc_string s1 <= cv_string s <= L /\ 0 <= cv_num s < 2 ^ 32
                          /\ strtol_digit base (str (cv_string s)) = None)
                (fun s => Z.to_nat (L - cv_string s)))
      with (fuel := fuel) (s := ConvState (sc_string s1) 0) as (s2 & E2 & Hr2 & Hn2 & Hd2).
    { intros s [Hr Hn].
      destruct (strtol_digit base (str (cv_string s))) as [d|] eqn:Ed.
      - eexists; split; [apply (conv_body_digit _ d); exact Ed|].
        unfold conv_step. cbn [cv_string cv_num].
        assert (cv_string s <> L) by (intros EL; rewrite EL in Ed; congruence).
        repeat split; try lia; apply u32_range.
      - eexists; split; [apply conv_body_stop; exact Ed|]. cbn beta iota.
        repeat split; try lia. exact Ed. }
    { cbn [cv_string cv_num]. lia. }
    { cbn [cv_string]. lia. }
    rewrite E2. eexists; split; [reflexivity|]. cbn [result pEndStr found].
    split; [lia|]. split; [exact Hd2|]. split; [right; exact Hfd|].
    split; [intros H0; lia|]. apply s32_range. exact Hn2.
  - destruct fuel as [|f]; [lia|].
    rewrite loop_S, conv_body_stop by exact Hnd.
    eexists; split; [reflexivity|]. cbn [result pEndStr found cv_string cv_num].
    split; [exact Hr1|]. split; [exact Hnd|]. split; [left; exact Hfd|].
    split; [intros _; split; [reflexivity|exact Hstop]|]. unfold s32. simpl. lia.
Qed.
End StrToL.

Lemma nvStrToL_number_witness :
  nvStrToL 10 (mem_of_list [120; 45; 52; 50; 59; 0]) 0 10 59
  = Some {| result := s32 (u32 (strtol_value 10
                                  (read (mem_of_list [120; 45; 52; 50; 59; 0]) 2 (4 - 2))));
            pEndStr := 4; found := 1 |}.
Proof.
  apply (nvStrToL_number (mem_of_list [120; 45; 52; 50; 59; 0]) 10 59 10 0 2 4).
  - lia.
  - intros j Hj. assert (E : j = 0 \/ j = 1) by lia.
    destruct E as [-> | ->]; repeat split; discriminate.
  - intros j Hj. assert (E : j = 2 \/ j = 3) by lia.
    destruct E as [-> | ->]; discriminate.
  - reflexivity.
  - simpl. lia.
Defined.

Lemma nvStrToL_no_number_witness :
  nvStrToL 10 (mem_of_list [120; 59; 52; 50; 0]) 0 10 59
  = Some {| result := 0; pEndStr := 1; found := 0 |}.
Proof.
  apply (nvStrToL_no_number (mem_of_list [120; 59; 52; 50; 0]) 10 59 10 0 1).
  - lia.
  - intros j Hj. replace j with 0 by lia. repeat split; discriminate.
  - reflexivity.
  - right. reflexivity.
  - simpl. lia.
Defined.

Lemma nvStrToL_returns_witness :
  exists r, nvStrToL 10 (mem_of_list [120; 45; 52; 50; 59; 0]) 0 10 59 = Some r
    /\ 0 <= pEndStr r <= 5
    /\ strtol_digit 10 (mem_of_list [120; 45; 52; 50; 59; 0] (pEndStr r)) = None
    /\ (found r = 0 \/ found r = 1)
    /\ (found r = 0 -> result r = 0
                       /\ (mem_of_list [120; 45; 52; 50; 59; 0] (pEndStr r) = 0
                           \/ mem_of_list [120; 45; 52; 50; 59; 0] (pEndStr r) = 59))
    /\ - 2 ^ 31 <= result r < 2 ^ 31.
Proof.
  apply (nvStrToL_returns (mem_of_list [120; 45; 52; 50; 59; 0]) 10 59 10 0 5);
    [lia | reflexivity | simpl; lia].
Defined.
Lemma scan_body_ext str str' base stopChar s :
  str' (sc_string s) = str (sc_string s) ->
  scan_body str' base stopChar s = scan_body str base stopChar s.
Proof. intros E. unfold scan_body. rewrite E. reflexivity. Qed.

Lemma conv_body_ext str str' base s :
  str' (cv_string s) = str (cv_string s) ->
  conv_body str' base s = conv_body str base s.
Proof. intros E. unfold conv_body. rewrite E. reflexivity. Qed.

(** X16: [nvStrToL] reads the string up to its terminator and no
    further: two buffers that agree from [string] to the first zero byte
    give the same result, whatever follows the terminator. *)
Theorem nvStrToL_reads_to_terminator (fuel : nat) (str str' : mem)
  (string L base stopChar : Z) :
  string <= L -> str L = 0 ->
  (forall j, string <= j <= L -> str' j = str j) ->
  nvStrToL fuel str' string base stopChar = nvStrToL fuel str string base stopChar.
Proof.
  intros HL Hnul Hagree. unfold nvStrToL.
  assert (Hscan : forall s t,
            (s = t /\ string <= sc_string s <= L) ->
            ctl_rel (fun s t => s = t /\ string <= sc_string s <= L)
                    (fun s t => s = t /\ string <= sc_string s <= L)
                    (scan_body str' base stopChar s) (scan_body str base stopChar t)).
  { intros s t [<- Hr]. rewrite (scan_body_ext str str') by (apply Hagree; exact Hr).
    unfold ctl_rel, scan_body. cbv zeta.
    destruct (Z.eqb_spec (str (sc_string s)) 0) as [E0|E0]; cbn [negb]; [auto|].
    assert (sc_string s <> L) by (intros EL; rewrite EL in E0; contradiction).
    destruct (RANGE _ 48 57); [cbn [sc_string]; auto|].
    destruct (_ && RANGE _ 97 102); [cbn [sc_string]; auto|].
    destruct (_ && RANGE _ 65 70); [cbn [sc_string]; auto|].
    destruct (_ =? stopChar); [auto|]. cbn [sc_string]. split; [reflexivity|lia]. }
  assert (H0 : ScanState string 0 = ScanState string 0
               /\ string <= sc_string (ScanState string 0) <= L)
    by (cbn [sc_string]; split; [reflexivity|lia]).
  pose proof (loop_rel _ _ _ _ Hscan fuel _ _ H0) as H1.
  unfold option_rel in H1.
  destruct (loop (scan_body str' base stopChar) fuel _) as [s1'|],
           (loop (scan_body str base stopChar) fuel _) as [s1|];
    try contradiction; [|reflexivity].
  destruct H1 as [-> Hr1].
  assert (Hconv : forall s t,
            (s = t /\ string <= cv_string s <= L) ->
            ctl_rel (fun s t => s = t /\ string <= cv_string s <= L)
                    (fun s t => s = t)
                    (conv_body str' base s) (conv_body str base t)).
  { intros s t [<- Hr]. rewrite (conv_body_ext str str') by (apply Hagree; exact Hr).
    unfold ctl_rel, conv_body. cbv zeta.
    destruct (Z.eqb_spec (str (cv_string s)) 0) as [E0|E0]; cbn [negb]; [auto|].
    assert (cv_string s <> L) by (intros EL; rewrite EL in E0; contradiction).
    destruct (RANGE _ 48 57); [unfold conv_step; cbn [cv_string]; split; [reflexivity|lia]|].
    destruct (_ && RANGE _ 97 102);
      [unfold conv_step; cbn [cv_string]; split; [reflexivity|lia]|].
    destruct (_ && RANGE _ 65 70);
      [unfold conv_step; cbn [cv_string]; split; [reflexivity|lia]|].
    reflexivity. }
  pose proof (loop_rel _ _ _ _ Hconv fuel (ConvState (sc_string s1) 0)
                (ConvState (sc_string s1) 0) (conj eq_refl Hr1)) as H2.
  unfold option_rel in H2.
  destruct (loop (conv_body str' base) fuel _) as [s2'|],
           (loop (conv_body str base) fuel _) as [s2|];
    try contradiction; [subst; reflexivity|reflexivity].
Qed.

Lemma nvStrToL_reads_to_terminator_witness :
  nvStrToL 10 (mem_of_list [52; 50; 0; 55; 55]) 0 10 59
  = nvStrToL 10 (mem_of_list [52; 50; 0]) 0 10 59.
Proof.
  apply (nvStrToL_reads_to_terminator 10 (mem_of_list [52; 50; 0])
           (mem_of_list [52; 50; 0; 55; 55]) 0 2 10 59); [lia | reflexivity |].
  intros j Hj. assert (E : j = 0 \/ j = 1 \/ j = 2) by lia.
  destruct E as [-> | [-> | ->]]; reflexivity.
Defined.

(** ** [nvU32ToStr], and back with [nvStrToL] *)

(** What [nvU32ToStr] writes for a base in 2..36: the digits of [value],
    most significant first, and a zero byte. *)
Lemma nvU32ToStr_run (fuel : nat) (value : Z) (string : mem) (base : Z) :
  0 <= value < 2 ^ 32 -> 2 <= base <= 36 -> (33 < fuel)%nat ->
  exists buf,
    nvU32ToStr fuel value string base = Some (StrPtr buf)
    /\ read buf 0 (Z.of_nat (length (lsf_digits 32 base value)) + 1)
       = rev (lsf_digits 32 base value) ++ [0]
    /\ forall a, a < 0 \/ Z.of_nat (length (lsf_digits 32 base value)) < a ->
                 buf a = string a.
Proof.
  intros Hv Hbase Hf. unfold nvU32ToStr.
  replace (36 <? base) with false by (symmetry; apply Z.ltb_ge; lia).
  replace (base <=? 1) with false by (symmetry; apply Z.leb_gt; lia).
  destruct fuel as [|fuel]; [lia|].
  rewrite loop_S. unfold digits_body at 1. cbn [dv dtp dtmp].
  rewrite Z.eqb_refl, orb_true_r.
  set (tmp1 := store _ 0 _).
  destruct (digits_loop_spec base Hbase 31 fuel (value / base) (0 + 1) tmp1)
    as (s1 & Hs1 & Hr1 & Hp1); [lia|apply (div_base_lt base Hbase value 31); exact Hv|lia|].
  rewrite Hs1.
  assert (Hds : read (dtmp s1) 0 (dtp s1) = lsf_digits 32 base value).
  { rewrite Hr1. unfold tmp1. change (0 + 1) with 1. rewrite read_one, store_same.
    reflexivity. }
  destruct (lsf_digits_spec base Hbase 32 value Hv ltac:(lia)) as (_ & _ & L3 & _).
  set (l := lsf_digits 32 base value) in *. clearbody l.
  assert (Htp : dtp s1 = Z.of_nat (length l)).
  { apply (f_equal (@length Z)) in Hds. rewrite read_length in Hds. lia. }
  rewrite Htp in *.
  destruct (reverse_loop_spec (dtmp s1) (length l) (S fuel) 0 string)
    as (s2 & Hs2 & R1 & R2 & R3); [lia|lia|].
  rewrite Hs2. rewrite Hds in R2. simpl in R2.
  exists (store (rstring s2) (rsp s2) 0).
  rewrite R1 in *. simpl in R2 |- *.
  split; [reflexivity|]. split.
  - rewrite read_store_snoc by lia. rewrite R2. reflexivity.
  - intros a Ha. rewrite store_other by lia. apply R3. lia.
Qed.

Lemma read_nth m off len j :
  0 <= j < len -> nth (Z.to_nat j) (read m off len) 0 = m (off + j).
Proof.
  intros Hj. unfold read. apply tab_nth. exact Hj.
Qed.

(** The cells of a buffer whose first bytes are the list [cs]. *)
Lemma read_prefix m cs rest len j :
  read m 0 len = cs ++ rest -> 0 <= j < Z.of_nat (length cs) ->
  m j = nth (Z.to_nat j) cs 0.
Proof.
  intros E Hj.
  assert (Hlen : Z.of_nat (length cs) <= len).
  { apply (f_equal (@length Z)) in E. rewrite read_length, length_app in E. lia. }
  rewrite <- (app_nth1 cs rest 0) by lia. rewrite <- E.
  rewrite read_nth by lia. reflexivity.
Qed.

(** The number of digits of a non-zero [v] in base [base]. *)
Lemma lsf_digits_length base k : 2 <= base <= 36 -> forall v,
  0 < v < 2 ^ Z.of_nat k ->
  base ^ (Z.of_nat (length (lsf_digits k base v)) - 1) <= v
  /\ v < base ^ Z.of_nat (length (lsf_digits k base v)).
Proof.
  intros base_range.
  induction k as [|k IH]; intros v Hv; [simpl in Hv; lia|].
  cbn [lsf_digits].
  pose proof (Z.mod_pos_bound v base ltac:(lia)) as Hm.
  pose proof (Z.div_mod v base ltac:(lia)) as Hdm.
  destruct (Z.eqb_spec (v / base) 0) as [E|E].
  - cbn [length]. change (Z.of_nat 1 - 1) with 0. change (Z.of_nat 1) with 1.
    rewrite Z.pow_0_r, Z.pow_1_r. lia.
  - pose proof (div_base_lt base base_range v k ltac:(lia)) as Hq.
    destruct (IH (v / base) ltac:(lia)) as [H1 H2].
    cbn [length]. set (n := length (lsf_digits k base (v / base))) in *.
    assert (Hn : (1 <= n)%nat).
    { unfold n. destruct k; [simpl in Hq; lia|]. cbn [lsf_digits length]. lia. }
    replace (Z.of_nat (S n) - 1) with (Z.succ (Z.of_nat n - 1)) by lia.
    replace (Z.of_nat (S n)) with (Z.succ (Z.of_nat n)) by lia.
    rewrite !Z.pow_succ_r by lia. nia.
Qed.

Lemma is_digit_nonzero base c : is_digit base c -> c <> 0.
Proof. intros [[H|H] _]; lia. Qed.

(** In the bases up to 10, and in base 16, the digits [nvU32ToStr]
    writes are digits for [nvStrToL], with the same value. *)
Lemma strtol_digit_of_digit base c :
  base <= 10 \/ base = 16 -> is_digit base c ->
  strtol_digit base c = Some (digit_value c).
Proof.
  intros Hb [Hc Hv]. revert Hv. unfold strtol_digit, digit_value.
  destruct (Z.leb_spec 48 c), (Z.leb_spec c 57), (Z.eqb_spec base 16),
    (Z.leb_spec 97 c), (Z.leb_spec c 102), (Z.leb_spec c 122),
    (Z.leb_spec 65 c), (Z.leb_spec c 70);
    cbn [andb]; intros Hv; try reflexivity; try lia.
Qed.

Lemma strtol_value_digits base cs :
  base <= 10 \/ base = 16 -> Forall (is_digit base) cs ->
  strtol_value base cs = digits_value base cs.
Proof.
  intros Hb Hcs. unfold strtol_value, digits_value.
  assert (H : forall acc,
    fold_left (fun acc c => acc * base + match strtol_digit base c with
                                         | Some d => d
                                         | None => 0
                                         end) cs acc
    = fold_left (fun acc c => acc * base + digit_value c) cs acc).
  { induction Hcs as [|c cs Hc _ IH]; intros acc; [reflexivity|].
    cbn [fold_left]. rewrite (strtol_digit_of_digit base c Hb Hc). apply IH. }
  apply H.
Qed.
Lemma u32_s32 x : 0 <= x < 2 ^ 32 -> u32 (s32 x) = x.
Proof.
  intros Hx. unfold s32, u32. destruct (Z.ltb_spec x (2 ^ 31)).
  - apply Z.mod_small. lia.
  - symmetry. apply Z.mod_unique with (q := -1); lia.
Qed.

(** X17: in a base from 2 to 10, and in base 16, [nvStrToL] reads back
    what [nvU32ToStr] wrote: it returns [value] (as an [NvS32], so that
    the conversion to [NvU32] is [value]), stores 1 in [*found] and
    leaves [*pEndStr] at the terminator, whatever the stop character
    is. *)
Theorem nvStrToL_nvU32ToStr (fuel fuel' : nat) (value : Z) (string : mem)
  (base stopChar : Z) :
  0 <= value < 2 ^ 32 -> 2 <= base <= 10 \/ base = 16 ->
  (33 < fuel)%nat -> (33 < fuel')%nat ->
  exists buf len,
    nvU32ToStr fuel value string base = Some (StrPtr buf)
    /\ 1 <= len <= 32 /\ buf len = 0
    /\ nvStrToL fuel' buf 0 base stopChar
       = Some {| result := s32 value; pEndStr := len; found := 1 |}
    /\ u32 (s32 value) = value.
Proof.
  intros Hv Hb Hf Hf'.
  assert (Hbase : 2 <= base <= 36) by lia.
  assert (Hb' : base <= 10 \/ base = 16) by lia.
  destruct (nvU32ToStr_run fuel value string base Hv Hbase Hf) as (buf & E & Hread & _).
  destruct (lsf_digits_spec base Hbase 32 value Hv ltac:(lia)) as (L1 & L2 & L3 & _).
  set (l := lsf_digits 32 base value) in *. clearbody l.
  set (len := Z.of_nat (length l)) in *.
  assert (Hcs : forall j, 0 <= j < len -> is_digit base (buf j)).
  { intros j Hj. rewrite (read_prefix buf (rev l) [0] (len + 1) j Hread)
      by (rewrite length_rev; lia).
    apply Forall_rev in L1. rewrite Forall_forall in L1. apply L1.
    apply nth_In. rewrite length_rev. lia. }
  assert (Hnul : buf len = 0).
  { pose proof (read_nth buf 0 (len + 1) len ltac:(lia)) as Hn.
    rewrite Hread in Hn. rewrite app_nth2 in Hn by (rewrite length_rev; lia).
    rewrite length_rev in Hn. replace (Z.to_nat len - length l)%nat with 0%nat in Hn by lia.
    simpl in Hn. rewrite <- Hn. reflexivity. }
  assert (Hdigits : read buf 0 len = rev l).
  { unfold read in *. rewrite tab_snoc in Hread by lia.
    apply app_inj_tail in Hread. apply Hread. }
  exists buf, len. split; [exact E|]. split; [lia|]. split; [exact Hnul|].
  split; [|apply u32_s32; exact Hv].
  unfold nvStrToL.
  destruct fuel' as [|f1]; [lia|]. rewrite loop_S.
  rewrite (scan_body_digit buf base stopChar _ (digit_value (buf 0)))
    by (apply strtol_digit_of_digit; [exact Hb'|apply Hcs; lia]).
  cbn [sc_string sc_found].
  replace (S f1) with (Z.to_nat len + (S f1 - Z.to_nat len))%nat at 1 by lia.
  change (ConvState 0 0) with (ConvState 0 (u32 0)).
  rewrite conv_digits.
  2:{ intros j Hj. rewrite (strtol_digit_of_digit base (buf j) Hb') by (apply Hcs; lia).
      discriminate. }
  replace (0 + Z.of_nat (Z.to_nat len)) with len by lia.
  replace (Z.of_nat (Z.to_nat len)) with len by lia.
  destruct (S f1 - Z.to_nat len)%nat as [|f2] eqn:Ef2; [lia|].
  rewrite loop_S, conv_body_stop.
  2:{ cbn [cv_string]. rewrite Hnul. unfold strtol_digit.
      destruct (base =? 16); reflexivity. }
  cbn [cv_string cv_num].
  fold (strtol_value base (read buf 0 len)).
  rewrite Hdigits, (strtol_value_digits base (rev l) Hb') by (apply Forall_rev; exact L1).
  rewrite L2, u32_small by lia. reflexivity.
Qed.

Lemma nvStrToL_nvU32ToStr_witness :
  exists buf len,
    nvU32ToStr 40 3000000000 (fun _ => 7) 16 = Some (StrPtr buf)
    /\ 1 <= len <= 32 /\ buf len = 0
    /\ nvStrToL 40 buf 0 16 59
       = Some {| result := s32 3000000000; pEndStr := len; found := 1 |}
    /\ u32 (s32 3000000000) = 3000000000.
Proof.
  apply (nvStrToL_nvU32ToStr 40 40 3000000000 (fun _ => 7) 16 59); lia.
Defined.

(** X18: the string [nvU32ToStr] writes has as many characters as
    [value] has digits in the base: [len] non-zero bytes then a zero
    byte, with [base ^ (len - 1) <= value < base ^ len] for a non-zero
    [value] and [len = 1] for zero; the bytes behind the terminator are
    left as they were. *)
Theorem nvU32ToStr_length (fuel : nat) (value : Z) (string : mem) (base : Z) :
  0 <= value < 2 ^ 32 -> 2 <= base <= 36 -> (33 < fuel)%nat ->
  exists buf len,
    nvU32ToStr fuel value string base = Some (StrPtr buf)
    /\ (forall j, 0 <= j < len -> buf j <> 0) /\ buf len = 0
    /\ (forall a, len < a -> buf a = string a)
    /\ (value = 0 -> len = 1)
    /\ (value <> 0 -> base ^ (len - 1) <= value < base ^ len).
Proof.
  intros Hv Hbase Hf.
  destruct (nvU32ToStr_run fuel value string base Hv Hbase Hf) as (buf & E & Hread & Hframe).
  destruct (lsf_digits_spec base Hbase 32 value Hv ltac:(lia)) as (L1 & _ & L3 & _).
  assert (Hlen : value <> 0 ->
                 base ^ (Z.of_nat (length (lsf_digits 32 base value)) - 1) <= value
                 < base ^ Z.of_nat (length (lsf_digits 32 base value))).
  { intros Hnz. apply (lsf_digits_length base 32 Hbase). change (Z.of_nat 32) with 32. lia. }
  assert (Hz : value = 0 -> length (lsf_digits 32 base value) = 1%nat).
  { intros ->. reflexivity. }
  set (l := lsf_digits 32 base value) in *. clearbody l.
  set (len := Z.of_nat (length l)) in *.
  exists buf, len. split; [exact E|]. split; [|split; [|split; [|split]]].
  - intros j Hj. rewrite (read_prefix buf (rev l) [0] (len + 1) j Hread)
      by (rewrite length_rev; lia).
    apply (is_digit_nonzero base).
    apply Forall_rev in L1. rewrite Forall_forall in L1. apply L1.
    apply nth_In. rewrite length_rev. lia.
  - pose proof (read_nth buf 0 (len + 1) len ltac:(lia)) as Hn.
    rewrite Hread in Hn. rewrite app_nth2 in Hn by (rewrite length_rev; lia).
    rewrite length_rev in Hn. replace (Z.to_nat len - length l)%nat with 0%nat in Hn by lia.
    simpl in Hn. rewrite <- Hn. reflexivity.
  - intros a Ha. apply Hframe. lia.
  - intros Hv0. unfold len. rewrite (Hz Hv0). reflexivity.
  - exact Hlen.
Qed.

Lemma nvU32ToStr_length_witness :
  exists buf len,
    nvU32ToStr 40 255 (fun _ => 7) 16 = Some (StrPtr buf)
    /\ (forall j, 0 <= j < len -> buf j <> 0) /\ buf len = 0
    /\ (forall a, len < a -> buf a = 7)
    /\ (255 = 0 -> len = 1)
    /\ (255 <> 0 -> 16 ^ (len - 1) <= 255 < 16 ^ len).
Proof. apply (nvU32ToStr_length 40 255 (fun _ => 7) 16); lia. Defined.
(** ** [nvMergeSort]: the memory behind the trace *)

Lemma faithful_scratch_write arr0 tmp0 arr tmp log d src soff len :
  faithful arr0 tmp0 arr tmp log ->
  faithful arr0 tmp0 arr (portMemCopy tmp d src soff len) (ScratchWrite d len :: log).
Proof.
  intros H a. destruct (H a) as [Ht Ha]. split.
  - intros Hno. rewrite portMemCopy_out.
    + apply Ht. intros e He. apply Hno. right. exact He.
    + specialize (Hno (ScratchWrite d len) (or_introl eq_refl)). simpl in Hno. lia.
  - intros Hno. apply Ha. intros e He. apply Hno. right. exact He.
Qed.

Lemma faithful_copy_back arr0 tmp0 arr tmp log off src len loMin hiMax :
  faithful arr0 tmp0 arr tmp log ->
  faithful arr0 tmp0 (portMemCopy arr off src 0 len) tmp
    (CopyBack off len loMin hiMax :: log).
Proof.
  intros H a. destruct (H a) as [Ht Ha]. split.
  - intros Hno. apply Ht. intros e He. apply Hno. right. exact He.
  - intros Hno. rewrite portMemCopy_out.
    + apply Ha. intros e He. apply Hno. right. exact He.
    + specialize (Hno (CopyBack off len loMin hiMax) (or_introl eq_refl)).
      simpl in Hno. lia.
Qed.

Section Faithful.
Variables (size : Z) (less : list Z -> list Z -> bool) (fuel : nat) (n : Z).
Variables arr0 tmp0 : mem.

Lemma merge_block_faithful m i st st' :
  faithful arr0 tmp0 (array st) (mergeArray st) (trace st) ->
  merge_block size less fuel n m i st = Some st' ->
  faithful arr0 tmp0 (array st') (mergeArray st') (trace st').
Proof.
  intros H0 H. unfold merge_block in H.
  set (inv := fun s : mstate => faithful arr0 tmp0 (array st) (tmp s) (wlog s)).
  destruct (loop (merge_body _ _ _ _ _) fuel _) as [s1|] eqn:E1; [|discriminate].
  destruct (loop (drain_lo_body _ _ _) fuel s1) as [s2|] eqn:E2; [|discriminate].
  destruct (loop (drain_hi_body _ _ _) fuel s2) as [s3|] eqn:E3; [|discriminate].
  injection H as <-. cbn [array mergeArray trace].
  apply faithful_copy_back.
  apply (loop_inv _ inv inv) in E1.
  - apply (loop_inv _ inv inv) in E2.
    + apply (loop_inv _ inv inv) in E3; [exact E3| |exact E2].
      intros s r Hs Hr. unfold drain_hi_body in Hr.
      destruct (hi s <? _); injection Hr as <-; [|exact Hs].
      apply faithful_scratch_write. exact Hs.
    + intros s r Hs Hr. unfold drain_lo_body in Hr.
      destruct (lo s <? _); injection Hr as <-; [|exact Hs].
      apply faithful_scratch_write. exact Hs.
    + exact E1.
  - intros s r Hs Hr. unfold merge_body in Hr. cbv zeta in Hr.
    destruct (less _ _).
    + destruct (_ <=? lo (copy_lo size (array st) s)); injection Hr as <-;
        apply faithful_scratch_write; exact Hs.
    + destruct (_ <=? hi (copy_hi size (array st) s)); injection Hr as <-;
        apply faithful_scratch_write; exact Hs.
  - exact H0.
Qed.

Lemma pass_faithful m s r :
  faithful arr0 tmp0 (array (snd s)) (mergeArray (snd s)) (trace (snd s)) ->
  loop (pass_body size less fuel n m) fuel s = Some r ->
  faithful arr0 tmp0 (array (snd r)) (mergeArray (snd r)) (trace (snd r)).
Proof.
  intros H0.
  apply (loop_inv _
    (fun s => faithful arr0 tmp0 (array (snd s)) (mergeArray (snd s)) (trace (snd s)))
    (fun s => faithful arr0 tmp0 (array (snd s)) (mergeArray (snd s)) (trace (snd s))));
    [|exact H0].
  clear s r H0. intros [i st] r Hs Hr. unfold pass_body in Hr.
  destruct (i <? _); [|injection Hr as <-; exact Hs].
  destruct (merge_block size less fuel n m i st) as [st'|] eqn:E; [|discriminate].
  injection Hr as <-. cbn [snd] in *. apply (merge_block_faithful m i st); assumption.
Qed.

Lemma sort_faithful s r :
  faithful arr0 tmp0 (array (snd s)) (mergeArray (snd s)) (trace (snd s)) ->
  loop (sort_body size less fuel n) fuel s = Some r ->
  faithful arr0 tmp0 (array (snd r)) (mergeArray (snd r)) (trace (snd r)).
Proof.
  intros H0.
  apply (loop_inv _
    (fun s => faithful arr0 tmp0 (array (snd s)) (mergeArray (snd s)) (trace (snd s)))
    (fun s => faithful arr0 tmp0 (array (snd s)) (mergeArray (snd s)) (trace (snd s))));
    [|exact H0].
  clear s r H0. intros [m st] r Hs Hr. unfold sort_body in Hr.
  destruct (m <=? n); [|injection Hr as <-; exact Hs].
  destruct (loop (pass_body size less fuel n m) fuel (0, st)) as [[i st']|] eqn:E;
    [|discriminate].
  injection Hr as <-. cbn [snd] in *.
  apply (pass_faithful m (0, st) (i, st')); assumption.
Qed.
End Faithful.

(** In a call that returns, the scratch buffer and the array were
    written where the trace says, and nowhere else. *)
Lemma nvMergeSort_faithful fuel arr n tempBuffer size less st :
  nvMergeSort fuel arr n tempBuffer size less = Some st ->
  faithful arr tempBuffer (array st) (mergeArray st) (trace st).
Proof.
  unfold nvMergeSort. intros H.
  destruct (loop (sort_body size less fuel n) fuel _) as [[m st']|] eqn:E; [|discriminate].
  injection H as <-.
  apply (sort_faithful size less fuel n arr tempBuffer _ (m, st')) in E; [exact E|].
  intros a. split; reflexivity.
Qed.

(** X19: a call that returns changes no byte of the scratch buffer at
    an offset of [n * size] or more (nor below the buffer): behind the
    [n * size] bytes the routine asks for, the memory is as it was.  The
    call returns when [n < 2^31]. *)
Theorem nvMergeSort_scratch_frame (fuel : nat) (arr : mem) (n : Z)
  (tempBuffer : mem) (size : Z) (less : list Z -> list Z -> bool) :
  0 <= size < 2 ^ 32 -> 0 <= n < 2 ^ 32 ->
  (forall st, nvMergeSort fuel arr n tempBuffer size less = Some st ->
     forall a, a < 0 \/ n * size <= a -> mergeArray st a = tempBuffer a)
  /\ (n < 2 ^ 31 -> (Z.to_nat n < fuel)%nat ->
      exists st, nvMergeSort fuel arr n tempBuffer size less = Some st).
Proof.
  intros Hsize Hn. split.
  - intros st Hret a Ha.
    destruct (nvMergeSort_returns _ _ _ _ _ _ _ Hsize Hn Hret) as (_ & Hsw & _).
    apply (nvMergeSort_faithful _ _ _ _ _ _ _ Hret a).
    intros e He Hin. rewrite Forall_forall in Hsw. specialize (Hsw e He).
    destruct e; simpl in Hsw, Hin; [lia|exact Hin].
  - intros Hn' Hf.
    destruct (nvMergeSort_total fuel arr n tempBuffer size less) as (st & E & _);
      [lia|lia|lia|]. exists st. exact E.
Qed.

Lemma nvMergeSort_scratch_frame_witness :
  exists st,
    nvMergeSort 10 array_53142 5 (fun _ => 9) 4 integerLess = Some st
    /\ forall a, a < 0 \/ 5 * 4 <= a -> mergeArray st a = 9.
Proof.
  destruct (nvMergeSort_scratch_frame 10 array_53142 5 (fun _ => 9) 4 integerLess)
    as [Hframe Hret]; [lia | lia |].
  destruct Hret as [st E]; [lia | simpl; lia |].
  exists st. split; [exact E|]. apply (Hframe st E).
Defined.

(** X20: when the array is smaller than [2^32] bytes, a call that
    returns changes no byte outside the [n * size] bytes of the array;
    in particular it changes nothing when [size] is 0.  The call returns
    when [n < 2^31]. *)
Theorem nvMergeSort_array_frame (fuel : nat) (arr : mem) (n : Z)
  (tempBuffer : mem) (size : Z) (less : list Z -> list Z -> bool) :
  0 <= size < 2 ^ 32 -> 0 <= n < 2 ^ 32 -> n * size < 2 ^ 32 ->
  (forall st, nvMergeSort fuel arr n tempBuffer size less = Some st ->
     forall a, a < 0 \/ n * size <= a -> array st a = arr a)
  /\ (n < 2 ^ 31 -> (Z.to_nat n < fuel)%nat ->
      exists st, nvMergeSort fuel arr n tempBuffer size less = Some st).
Proof.
  intros Hsize Hn Hnw. split.
  - intros st Hret a Ha.
    destruct (nvMergeSort_returns _ _ _ _ _ _ _ Hsize Hn Hret) as (_ & _ & Hc).
    destruct (Hc Hnw) as (Hcb & _).
    apply (nvMergeSort_faithful _ _ _ _ _ _ _ Hret a).
    intros e He Hin. rewrite Forall_forall in Hcb. specialize (Hcb e He).
    destruct e as [off len|off len loMin hiMax]; simpl in Hcb, Hin; [exact Hin|].
    assert (0 <= loMin * size) by nia.
    assert (hiMax * size <= n * size) by nia. lia.
  - intros Hn' Hf.
    destruct (nvMergeSort_total fuel arr n tempBuffer size less) as (st & E & _);
      [lia|lia|lia|]. exists st. exact E.
Qed.

Lemma nvMergeSort_array_frame_witness :
  exists st,
    nvMergeSort 10 array_53142 5 (fun _ => 9) 4 integerLess = Some st
    /\ forall a, a < 0 \/ 5 * 4 <= a -> array st a = array_53142 a.
Proof.
  destruct (nvMergeSort_array_frame 10 array_53142 5 (fun _ => 9) 4 integerLess)
    as [Hframe Hret]; [lia | lia | lia |].
  destruct Hret as [st E]; [lia | simpl; lia |].
  exists st. split; [exact E|]. apply (Hframe st E).
Defined.
(** ** [nvMergeSort]: the content of the scratch buffer does not matter *)

Lemma u32_le x : 0 <= x -> u32 x <= x.
Proof. intros Hx. unfold u32. apply Z.mod_le; lia. Qed.

Section ScratchContent.
Variables (size : Z) (less : list Z -> list Z -> bool) (fuel : nat) (n : Z).
Hypothesis size_nonneg : 0 <= size.
Variables arr1 arr2 : mem.
Hypothesis same_array : forall a, arr1 a = arr2 a.

Lemma read_same_array off len : read arr1 off len = read arr2 off len.
Proof. unfold read. apply tab_ext. intros a _. apply same_array. Qed.

Lemma copy_lo_rel s1 s2 :
  merge_rel s1 s2 -> merge_rel (copy_lo size arr1 s1) (copy_lo size arr2 s2).
Proof.
  intros (Hlo & Hhi & Hd & Hw & Hd0 & Ht). unfold merge_rel, copy_lo.
  cbn [lo hi dest tmp wlog]. rewrite Hlo, Hhi, Hd, Hw.
  repeat split; try lia.
  intros a Ha. destruct (Z_lt_ge_dec a (dest s2)).
  - rewrite !portMemCopy_out by lia. apply Ht. lia.
  - rewrite !portMemCopy_in by lia. apply same_array.
Qed.

Lemma copy_hi_rel s1 s2 :
  merge_rel s1 s2 -> merge_rel (copy_hi size arr1 s1) (copy_hi size arr2 s2).
Proof.
  intros (Hlo & Hhi & Hd & Hw & Hd0 & Ht). unfold merge_rel, copy_hi.
  cbn [lo hi dest tmp wlog]. rewrite Hlo, Hhi, Hd, Hw.
  repeat split; try lia.
  intros a Ha. destruct (Z_lt_ge_dec a (dest s2)).
  - rewrite !portMemCopy_out by lia. apply Ht. lia.
  - rewrite !portMemCopy_in by lia. apply same_array.
Qed.

Lemma merge_body_rel loMax hiMax s1 s2 :
  merge_rel s1 s2 ->
  ctl_rel merge_rel merge_rel (merge_body size less arr1 loMax hiMax s1)
    (merge_body size less arr2 loMax hiMax s2).
Proof.
  intros H. pose proof (copy_lo_rel _ _ H) as Hl. pose proof (copy_hi_rel _ _ H) as Hh.
  destruct H as (Hlo & Hhi & _). unfold merge_body. cbv zeta.
  rewrite Hlo, Hhi, !read_same_array.
  destruct (less _ _).
  - replace (lo (copy_lo size arr1 s1)) with (lo (copy_lo size arr2 s2))
      by (symmetry; apply Hl).
    destruct (loMax <=? _); exact Hl.
  - replace (hi (copy_hi size arr1 s1)) with (hi (copy_hi size arr2 s2))
      by (symmetry; apply Hh).
    destruct (hiMax <=? _); exact Hh.
Qed.

Lemma drain_lo_body_rel loMax s1 s2 :
  merge_rel s1 s2 ->
  ctl_rel merge_rel merge_rel (drain_lo_body size arr1 loMax s1)
    (drain_lo_body size arr2 loMax s2).
Proof.
  intros H. pose proof (copy_lo_rel _ _ H) as Hl.
  unfold drain_lo_body. replace (lo s1) with (lo s2) by (symmetry; apply H).
  destruct (lo s2 <? loMax); [exact Hl|exact H].
Qed.

Lemma drain_hi_body_rel hiMax s1 s2 :
  merge_rel s1 s2 ->
  ctl_rel merge_rel merge_rel (drain_hi_body size arr1 hiMax s1)
    (drain_hi_body size arr2 hiMax s2).
Proof.
  intros H. pose proof (copy_hi_rel _ _ H) as Hh.
  unfold drain_hi_body. replace (hi s1) with (hi s2) by (symmetry; apply H).
  destruct (hi s2 <? hiMax); [exact Hh|exact H].
Qed.
End ScratchContent.

Section ScratchContentSort.
Variables (size : Z) (less : list Z -> list Z -> bool) (fuel : nat) (n : Z).
Hypothesis size_nonneg : 0 <= size.

Lemma merge_block_rel m i st1 st2 :
  same_outcome st1 st2 ->
  option_rel same_outcome (merge_block size less fuel n m i st1)
    (merge_block size less fuel n m i st2).
Proof.
  intros [Harr Htr]. unfold merge_block. cbv zeta.
  set (s01 := {| lo := i; hi := _; dest := 0; tmp := mergeArray st1; wlog := _ |}).
  set (s02 := {| lo := i; hi := _; dest := 0; tmp := mergeArray st2; wlog := _ |}).
  assert (H0 : merge_rel s01 s02).
  { unfold merge_rel, s01, s02. cbn [lo hi dest tmp wlog].
    repeat split; try lia; try exact Htr. }
  pose proof (loop_rel _ _ _ _
                (merge_body_rel size less size_nonneg _ _ Harr (u32 (i + m))
                   (Z.min n (u32 (i + 2 * m)))) fuel _ _ H0) as H1.
  unfold option_rel in H1 |- *.
  destruct (loop (merge_body size less (array st1) _ _) fuel s01) as [s11|],
           (loop (merge_body size less (array st2) _ _) fuel s02) as [s12|];
    try contradiction; [|exact I].
  pose proof (loop_rel _ _ _ _
                (drain_lo_body_rel size size_nonneg _ _ Harr (u32 (i + m)))
                fuel _ _ H1) as H2.
  unfold option_rel in H2.
  destruct (loop (drain_lo_body size (array st1) _) fuel s11) as [s21|],
           (loop (drain_lo_body size (array st2) _) fuel s12) as [s22|];
    try contradiction; [|exact I].
  pose proof (loop_rel _ _ _ _
                (drain_hi_body_rel size size_nonneg _ _ Harr (Z.min n (u32 (i + 2 * m))))
                fuel _ _ H2) as H3.
  unfold option_rel in H3.
  destruct (loop (drain_hi_body size (array st1) _) fuel s21) as [s31|],
           (loop (drain_hi_body size (array st2) _) fuel s22) as [s32|];
    try contradiction; [|exact I].
  destruct H3 as (_ & _ & Hd & Hw & Hd0 & Ht).
  unfold same_outcome. cbn [array trace]. rewrite Hd, Hw. split; [|reflexivity].
  intros a. pose proof (u32_le (dest s32) ltac:(lia)) as Hle.
  destruct (Z_lt_ge_dec a (EL size i)) as [Hlt|Hge];
    [rewrite !portMemCopy_out by lia; apply Harr|].
  destruct (Z_lt_ge_dec a (EL size i + u32 (dest s32))) as [Hin|Hout];
    [|rewrite !portMemCopy_out by lia; apply Harr].
  rewrite !portMemCopy_in by lia. apply Ht. lia.
Qed.

Lemma pass_body_rel m s1 s2 :
  fst s1 = fst s2 /\ same_outcome (snd s1) (snd s2) ->
  ctl_rel (fun s t => fst s = fst t /\ same_outcome (snd s) (snd t))
          (fun s t => fst s = fst t /\ same_outcome (snd s) (snd t))
          (pass_body size less fuel n m s1) (pass_body size less fuel n m s2).
Proof.
  destruct s1 as [i1 st1], s2 as [i2 st2]. cbn [fst snd]. intros [<- H].
  unfold pass_body. destruct (i1 <? _); [|cbn [ctl_rel fst snd]; auto].
  pose proof (merge_block_rel m i1 st1 st2 H) as Hm. unfold option_rel in Hm.
  destruct (merge_block size less fuel n m i1 st1) as [st1'|],
           (merge_block size less fuel n m i1 st2) as [st2'|];
    try contradiction; [|exact I].
  cbn [ctl_rel fst snd]. auto.
Qed.

Lemma sort_body_rel s1 s2 :
  fst s1 = fst s2 /\ same_outcome (snd s1) (snd s2) ->
  ctl_rel (fun s t => fst s = fst t /\ same_outcome (snd s) (snd t))
          (fun s t => fst s = fst t /\ same_outcome (snd s) (snd t))
          (sort_body size less fuel n s1) (sort_body size less fuel n s2).
Proof.
  destruct s1 as [m1 st1], s2 as [m2 st2]. cbn [fst snd]. intros [<- H].
  unfold sort_body. destruct (m1 <=? n); [|cbn [ctl_rel fst snd]; auto].
  pose proof (loop_rel _ _ _ _ (pass_body_rel m1) fuel (0, st1) (0, st2)
                (conj eq_refl H)) as Hp.
  unfold option_rel in Hp.
  destruct (loop (pass_body size less fuel n m1) fuel (0, st1)) as [[i1 st1']|],
           (loop (pass_body size less fuel n m1) fuel (0, st2)) as [[i2 st2']|];
    try contradiction; [|exact I].
  cbn [ctl_rel fst snd] in *. split; [reflexivity|apply Hp].
Qed.
End ScratchContentSort.

(** X21: what a call does to the array does not depend on what the
    scratch buffer holds when it starts: two calls on the same array with
    scratch buffers of different content return, or not, together, with
    the same bytes in the array and the same writes.  This holds for
    every [n] and [size]. *)
Theorem nvMergeSort_scratch_content (fuel : nat) (arr : mem) (n : Z)
  (tempBuffer tempBuffer' : mem) (size : Z) (less : list Z -> list Z -> bool) :
  0 <= size ->
  option_rel same_outcome
    (nvMergeSort fuel arr n tempBuffer size less)
    (nvMergeSort fuel arr n tempBuffer' size less)
  /\ (size < 2 ^ 32 -> 0 <= n < 2 ^ 31 -> (Z.to_nat n < fuel)%nat ->
      exists st st',
        nvMergeSort fuel arr n tempBuffer size less = Some st
        /\ nvMergeSort fuel arr n tempBuffer' size less = Some st'
        /\ same_outcome st st').
Proof.
  intros Hsize.
  assert (Hrel : option_rel same_outcome
            (nvMergeSort fuel arr n tempBuffer size less)
            (nvMergeSort fuel arr n tempBuffer' size less)).
  { unfold nvMergeSort.
    pose proof (loop_rel _ _ _ _ (sort_body_rel size less fuel n Hsize) fuel
                  (1, {| array := arr; mergeArray := tempBuffer; trace := [] |})
                  (1, {| array := arr; mergeArray := tempBuffer'; trace := [] |})) as H.
    specialize (H (conj eq_refl (conj (fun a => eq_refl) eq_refl))).
    unfold option_rel in H |- *.
    destruct (loop _ fuel (1, {| array := arr; mergeArray := tempBuffer; trace := [] |}))
      as [[m1 st1]|],
      (loop _ fuel (1, {| array := arr; mergeArray := tempBuffer'; trace := [] |}))
      as [[m2 st2]|]; try contradiction; [apply H|exact I]. }
  split; [exact Hrel|].
  intros Hs Hn Hf.
  destruct (nvMergeSort_total fuel arr n tempBuffer size less) as (st & E & _);
    [lia|lia|lia|].
  destruct (nvMergeSort_total fuel arr n tempBuffer' size less) as (st' & E' & _);
    [lia|lia|lia|].
  exists st, st'. rewrite E, E' in Hrel. auto.
Qed.

Lemma nvMergeSort_scratch_content_witness :
  option_rel same_outcome
    (nvMergeSort 10 array_53142 5 (fun _ => 0) 4 integerLess)
    (nvMergeSort 10 array_53142 5 (fun _ => 9) 4 integerLess)
  /\ (4 < 2 ^ 32 -> 0 <= 5 < 2 ^ 31 -> (Z.to_nat 5 < 10)%nat ->
      exists st st',
        nvMergeSort 10 array_53142 5 (fun _ => 0) 4 integerLess = Some st
        /\ nvMergeSort 10 array_53142 5 (fun _ => 9) 4 integerLess = Some st'
        /\ same_outcome st st').
Proof.
  apply (nvMergeSort_scratch_content 10 array_53142 5 (fun _ => 0) (fun _ => 9) 4 integerLess).
  lia.
Defined.

(** ** [nvMergeSort]: short arrays, ties, and the comparator of the example *)

(** X22: on an array of no element or of one, a call returns at once:
    it writes nothing, neither to the array nor to the scratch buffer,
    whatever [size] and the comparator are. *)
Theorem nvMergeSort_at_most_one (fuel : nat) (arr : mem) (n : Z)
  (tempBuffer : mem) (size : Z) (less : list Z -> list Z -> bool) :
  0 <= n <= 1 -> (2 <= fuel)%nat ->
  nvMergeSort fuel arr n tempBuffer size less
  = Some {| array := arr; mergeArray := tempBuffer; trace := [] |}.
Proof.
  intros Hn Hf. destruct fuel as [|[|f]]; try lia.
  assert (E : n = 0 \/ n = 1) by lia.
  destruct E as [-> | ->]; reflexivity.
Qed.

Lemma nvMergeSort_at_most_one_witness :
  nvMergeSort 2 array_53142 1 (fun _ => 0) 4 integerLess
  = Some {| array := array_53142; mergeArray := fun _ => 0; trace := [] |}.
Proof. apply (nvMergeSort_at_most_one 2 array_53142 1 (fun _ => 0) 4 integerLess); lia. Defined.

(** X23: ties are allowed.  For an array smaller than [2^32] bytes and a
    comparator that is asymmetric on its elements (no two elements are
    each less than the other; elements that compare equal may differ),
    the array a call returns with has [less(a[i+1], a[i])] false for
    every adjacent pair, and holds the elements it held.  The call
    returns when [n < 2^31]. *)
Theorem nvMergeSort_ascending_with_ties (fuel : nat) (arr : mem) (n : Z)
  (tempBuffer : mem) (size : Z) (less : list Z -> list Z -> bool) :
  0 <= size < 2 ^ 32 -> 0 <= n < 2 ^ 32 -> n * size < 2 ^ 32 ->
  asym_on less (elems size arr n) ->
  (forall st, nvMergeSort fuel arr n tempBuffer size less = Some st ->
     (forall i, 0 <= i -> i + 1 < n ->
        less (elem size (array st) (i + 1)) (elem size (array st) i) = false)
     /\ Permutation (elems size (array st) n) (elems size arr n))
  /\ (n < 2 ^ 31 -> (Z.to_nat n < fuel)%nat ->
      exists st, nvMergeSort fuel arr n tempBuffer size less = Some st).
Proof.
  intros Hsize Hn Hnw Hasym. split.
  - intros st Hret.
    destruct (nvMergeSort_returns _ _ _ _ _ _ _ Hsize Hn Hret) as (_ & _ & Hc).
    destruct (Hc Hnw) as (_ & [Hperm _] & Hasc). split; [|exact Hperm].
    intros i Hi Hi'.
    apply (ascending_adjacent less (elem size (array st)) n i); [|lia|lia].
    apply Hasc. exact Hasym.
  - intros Hn' Hf.
    destruct (nvMergeSort_total fuel arr n tempBuffer size less) as (st & E & _);
      [lia|lia|lia|]. exists st. exact E.
Qed.

Lemma firstByteLess_asym (D : list (list Z)) : asym_on firstByteLess D.
Proof.
  intros x y _ _ H. unfold firstByteLess in *.
  apply Z.ltb_lt in H. apply Z.ltb_ge. lia.
Qed.

Lemma nvMergeSort_ascending_with_ties_witness :
  exists st,
    nvMergeSort 3 tied_pair 2 (fun _ => 0) 2 firstByteLess = Some st
    /\ (forall i, 0 <= i -> i + 1 < 2 ->
          firstByteLess (elem 2 (array st) (i + 1)) (elem 2 (array st) i) = false)
    /\ Permutation (elems 2 (array st) 2) (elems 2 tied_pair 2).
Proof.
  destruct (nvMergeSort_ascending_with_ties 3 tied_pair 2 (fun _ => 0) 2 firstByteLess)
    as [Hsorted Hret]; [lia | lia | lia | apply firstByteLess_asym |].
  destruct Hret as [st E]; [lia | simpl; lia |].
  exists st. split; [exact E|]. apply (Hsorted st E).
Defined.

Lemma integerLess_asym (D : list (list Z)) : asym_on integerLess D.
Proof.
  intros x y _ _ H. unfold integerLess in *.
  apply Z.ltb_lt in H. apply Z.ltb_ge. lia.
Qed.

(** X24: with the comparator [integerLess] of the usage example in the
    source, on an array of [n] 4-byte integers, [4 * n < 2^32], the
    integers of the array a call returns with are in non-decreasing
    order, and they are the integers the array held.  The call returns
    when [n < 2^31]. *)
Theorem nvMergeSort_integerLess (fuel : nat) (arr : mem) (n : Z)
  (tempBuffer : mem) :
  0 <= n -> n * 4 < 2 ^ 32 ->
  (forall st, nvMergeSort fuel arr n tempBuffer 4 integerLess = Some st ->
     (forall i, 0 <= i -> i + 1 < n ->
        as_u32 (elem 4 (array st) i) <= as_u32 (elem 4 (array st) (i + 1)))
     /\ Permutation (map as_u32 (elems 4 (array st) n)) (map as_u32 (elems 4 arr n)))
  /\ ((Z.to_nat n < fuel)%nat ->
      exists st, nvMergeSort fuel arr n tempBuffer 4 integerLess = Some st).
Proof.
  intros Hn Hnw. split.
  - intros st Hret.
    destruct (nvMergeSort_returns fuel arr n tempBuffer 4 integerLess st
                ltac:(lia) ltac:(lia) Hret) as (_ & _ & Hc).
    destruct (Hc Hnw) as (_ & [Hperm _] & Hasc). split.
    + intros i Hi Hi'.
      pose proof (ascending_adjacent integerLess (elem 4 (array st)) n i
                    (Hasc (integerLess_asym _)) Hi Hi') as H.
      unfold integerLess in H. apply Z.ltb_ge in H. exact H.
    + apply Permutation_map. exact Hperm.
  - intros Hf.
    destruct (nvMergeSort_total fuel arr n tempBuffer 4 integerLess) as (st & E & _);
      [lia|lia|lia|]. exists st. exact E.
Qed.

Lemma nvMergeSort_integerLess_witness :
  exists st,
    nvMergeSort 10 array_53142 5 (fun _ => 0) 4 integerLess = Some st
    /\ (forall i, 0 <= i -> i + 1 < 5 ->
          as_u32 (elem 4 (array st) i) <= as_u32 (elem 4 (array st) (i + 1)))
    /\ Permutation (map as_u32 (elems 4 (array st) 5)) (map as_u32 (elems 4 array_53142 5)).
Proof.
  destruct (nvMergeSort_integerLess 10 array_53142 5 (fun _ => 0))
    as [Hsorted Hret]; [lia | lia |].
  destruct Hret as [st E]; [simpl; lia |].
  exists st. split; [exact E|]. apply (Hsorted st E).
Defined.
(** X25: on an array of two elements a call is one comparison and one
    merge: the array it returns with holds the two elements in the order
    they had when [less(a[0], a[1])], and exchanged otherwise, so also
    when they tie. *)
Theorem nvMergeSort_two (fuel : nat) (arr : mem) (tempBuffer : mem) (size : Z)
  (less : list Z -> list Z -> bool) :
  0 <= size -> 2 * size < 2 ^ 32 -> (3 <= fuel)%nat ->
  exists st,
    nvMergeSort fuel arr 2 tempBuffer size less = Some st
    /\ elems size (array st) 2
       = if less (elem size arr 0) (elem size arr 1)
         then [elem size arr 0; elem size arr 1]
         else [elem size arr 1; elem size arr 0].
Proof.
  intros Hsize Hnw Hf.
  set (st0 := {| array := arr; mergeArray := tempBuffer; trace := [] |}).
  destruct (merge_block_total size less fuel 2 ltac:(lia) ltac:(lia) ltac:(lia) 1 0 st0)
    as (st' & E & _ & Hc); [lia|lia|lia|constructor|intros _; constructor|].
  destruct (Hc Hnw) as (_ & _ & Hm & _).
  exists st'. split.
  - unfold nvMergeSort. fold st0.
    destruct fuel as [|[|[|f]]]; try lia.
    set (F := S (S (S f))) in *.
    assert (Hp1 : loop (pass_body size less F 2 1) F (0, st0) = Some (2, st')).
    { unfold F at 2. rewrite loop_S. unfold pass_body at 1.
      replace (0 <? u32 (2 - 1)) with true by reflexivity.
      rewrite E. rewrite loop_S. unfold pass_body at 1.
      replace (u32 (0 + 2 * 1) <? u32 (2 - 1)) with false by reflexivity.
      reflexivity. }
    assert (Hp2 : loop (pass_body size less F 2 2) F (0, st') = Some (0, st')).
    { unfold F at 2. rewrite loop_S. unfold pass_body at 1.
      replace (0 <? u32 (2 - 2)) with false by reflexivity. reflexivity. }
    unfold F at 2. rewrite loop_S. unfold sort_body at 1.
    replace (1 <=? 2) with true by reflexivity. rewrite Hp1.
    replace (u32 (1 * 2)) with 2 by reflexivity.
    rewrite loop_S. unfold sort_body at 1.
    replace (2 <=? 2) with true by reflexivity. rewrite Hp2.
    replace (u32 (2 * 2)) with 4 by reflexivity.
    rewrite loop_S. unfold sort_body at 1.
    replace (4 <=? 2) with false by reflexivity. reflexivity.
  - change (Z.min 2 (0 + 2 * 1) - 0) with 2 in Hm.
    change (Z.min 2 (0 + 2 * 1) - (0 + 1)) with 1 in Hm.
    change (0 + 1) with 1 in Hm.
    unfold elems. rewrite Hm. unfold st0. cbn [array].
    rewrite (slice_cons size arr 0 1), (slice_cons size arr 1 1) by lia.
    rewrite !slice_nil by lia.
    rewrite spec_merge_cons.
    destruct (less _ _); [rewrite spec_merge_nil_l|rewrite spec_merge_nil_r]; reflexivity.
Qed.

Lemma nvMergeSort_two_witness :
  exists st,
    nvMergeSort 3 tied_pair 2 (fun _ => 0) 2 firstByteLess = Some st
    /\ elems 2 (array st) 2
       = if firstByteLess (elem 2 tied_pair 0) (elem 2 tied_pair 1)
         then [elem 2 tied_pair 0; elem 2 tied_pair 1]
         else [elem 2 tied_pair 1; elem 2 tied_pair 0].
Proof. apply (nvMergeSort_two 3 tied_pair (fun _ => 0) 2 firstByteLess); lia. Defined.
(** ** [nvMergeSort]: the number of element copies *)

Section Count.
Variables (size : Z) (less : list Z -> list Z -> bool) (fuel : nat) (n : Z).
Variables (arr : mem) (i loMax hiMax c0 : Z).

Lemma count_copy_lo s :
  0 <= i -> hiMax < 2 ^ 31 ->
  count_inv i loMax hiMax c0 s -> lo s < loMax ->
  count_inv i loMax hiMax c0 (copy_lo size arr s)
  /\ lo (copy_lo size arr s) = lo s + 1 /\ hi (copy_lo size arr s) = hi s.
Proof.
  intros Hi Hmax (Hlo & Hhi & Hc) Hlt.
  unfold count_inv, copy_lo. cbn [lo hi wlog scratch_writes].
  rewrite u32_small by lia. repeat split; lia.
Qed.

Lemma count_copy_hi s :
  0 <= i -> hiMax < 2 ^ 31 ->
  count_inv i loMax hiMax c0 s -> hi s < hiMax ->
  count_inv i loMax hiMax c0 (copy_hi size arr s)
  /\ lo (copy_hi size arr s) = lo s /\ hi (copy_hi size arr s) = hi s + 1.
Proof.
  intros Hi Hmax (Hlo & Hhi & Hc) Hlt.
  unfold count_inv, copy_hi. cbn [lo hi wlog scratch_writes].
  rewrite u32_small by lia. repeat split; lia.
Qed.

Lemma count_merge s r :
  0 <= i -> hiMax < 2 ^ 31 ->
  count_inv i loMax hiMax c0 s -> lo s < loMax -> hi s < hiMax ->
  loop (merge_body size less arr loMax hiMax) fuel s = Some r ->
  count_inv i loMax hiMax c0 r.
Proof.
  intros Hi Hmax H0 Hl0 Hh0.
  apply (loop_inv _
           (fun s => count_inv i loMax hiMax c0 s /\ lo s < loMax /\ hi s < hiMax)
           (count_inv i loMax hiMax c0)); [|auto].
  clear s H0 Hl0 Hh0. intros s x (Hs & Hl & Hh) Hx.
  unfold merge_body in Hx. cbv zeta in Hx.
  destruct (less _ _).
  - destruct (count_copy_lo s Hi Hmax Hs Hl) as (Hs' & El & Eh).
    destruct (Z.leb_spec loMax (lo (copy_lo size arr s))); injection Hx as <-;
      [exact Hs'|]. split; [exact Hs'|lia].
  - destruct (count_copy_hi s Hi Hmax Hs Hh) as (Hs' & El & Eh).
    destruct (Z.leb_spec hiMax (hi (copy_hi size arr s))); injection Hx as <-;
      [exact Hs'|]. split; [exact Hs'|lia].
Qed.

Lemma count_drain_lo s r :
  0 <= i -> hiMax < 2 ^ 31 ->
  count_inv i loMax hiMax c0 s ->
  loop (drain_lo_body size arr loMax) fuel s = Some r ->
  count_inv i loMax hiMax c0 r /\ lo r = loMax.
Proof.
  intros Hi Hmax H0.
  apply (loop_inv _ (count_inv i loMax hiMax c0)
           (fun r => count_inv i loMax hiMax c0 r /\ lo r = loMax)); [|exact H0].
  clear s H0. intros s x Hs Hx. unfold drain_lo_body in Hx.
  destruct (Z.ltb_spec (lo s) loMax); injection Hx as <-.
  - apply count_copy_lo; assumption.
  - split; [exact Hs|]. destruct Hs as (Hlo & _). lia.
Qed.

Lemma count_drain_hi s r :
  0 <= i -> hiMax < 2 ^ 31 ->
  count_inv i loMax hiMax c0 s -> lo s = loMax ->
  loop (drain_hi_body size arr hiMax) fuel s = Some r ->
  count_inv i loMax hiMax c0 r /\ lo r = loMax /\ hi r = hiMax.
Proof.
  intros Hi Hmax H0 Hl0.
  apply (loop_inv _ (fun s => count_inv i loMax hiMax c0 s /\ lo s = loMax)
           (fun r => count_inv i loMax hiMax c0 r /\ lo r = loMax /\ hi r = hiMax));
    [|auto].
  clear s H0 Hl0. intros s x [Hs Hl] Hx. unfold drain_hi_body in Hx.
  destruct (Z.ltb_spec (hi s) hiMax); injection Hx as <-.
  - destruct (count_copy_hi s Hi Hmax Hs ltac:(assumption)) as (Hs' & El & Eh).
    split; [exact Hs'|lia].
  - split; [exact Hs|]. destruct Hs as (_ & Hhi & _). lia.
Qed.
End Count.

Section CountSort.
Variables (size : Z) (less : list Z -> list Z -> bool) (fuel : nat) (n : Z).

(** A merge writes one element for each element of its two runs. *)
Lemma merge_block_count m i st st' :
  0 <= n < 2 ^ 31 -> 0 <= i -> 1 <= m -> i + m < n ->
  merge_block size less fuel n m i st = Some st' ->
  scratch_writes (trace st')
  = scratch_writes (trace st) + (Z.min n (i + 2 * m) - i).
Proof.
  intros Hn Hi Hm Him H. unfold merge_block in H.
  rewrite (u32_small (i + m)), (u32_small (i + 2 * m)) in H by lia.
  set (hiMax := Z.min n (i + 2 * m)) in *.
  destruct (loop (merge_body _ _ _ _ _) fuel _) as [s1|] eqn:E1; [|discriminate].
  destruct (loop (drain_lo_body _ _ _) fuel s1) as [s2|] eqn:E2; [|discriminate].
  destruct (loop (drain_hi_body _ _ _) fuel s2) as [s3|] eqn:E3; [|discriminate].
  injection H as <-. cbn [trace scratch_writes].
  assert (Hmax : hiMax < 2 ^ 31) by (unfold hiMax; lia).
  apply (count_merge size less fuel (array st) i (i + m) hiMax
           (scratch_writes (trace st)) _ _ Hi Hmax) in E1;
    cbn [lo hi]; try (unfold hiMax; lia).
  - apply (count_drain_lo size fuel (array st) i (i + m) hiMax
             (scratch_writes (trace st)) _ _ Hi Hmax) in E2;
      [|exact E1].
    destruct E2 as [E2 El2].
    apply (count_drain_hi size fuel (array st) i (i + m) hiMax
             (scratch_writes (trace st)) _ _ Hi Hmax) in E3;
      [|exact E2|exact El2].
    destruct E3 as ((_ & _ & Hc) & El3 & Eh3). lia.
  - unfold count_inv. cbn [lo hi wlog]. unfold hiMax. lia.
Qed.

(** A pass writes every element once at most, and nothing when the
    blocks are as long as the array. *)
Lemma pass_count m st r :
  0 <= n < 2 ^ 31 -> 1 <= m <= n ->
  loop (pass_body size less fuel n m) fuel (0, st) = Some r ->
  scratch_writes (trace (snd r))
  <= scratch_writes (trace st) + (if m <? n then n else 0).
Proof.
  intros Hn Hm H.
  apply (loop_inv _
           (fun s => 0 <= fst s
                     /\ scratch_writes (trace (snd s))
                        <= scratch_writes (trace st) + Z.min (fst s) n
                     /\ (n <= m -> fst s = 0))
           (fun s => 0 <= fst s
                     /\ scratch_writes (trace (snd s))
                        <= scratch_writes (trace st) + Z.min (fst s) n
                     /\ (n <= m -> fst s = 0))) in H.
  - destruct H as (H0 & Hc & Hz). destruct (Z.ltb_spec m n); [lia|].
    rewrite Hz in Hc by lia. lia.
  - clear r H. intros [i st1] x (Hi & Hc & Hz) Hx. cbn [fst snd] in *.
    unfold pass_body in Hx. rewrite (u32_small (n - m)) in Hx by lia.
    destruct (Z.ltb_spec i (n - m)); [|injection Hx as <-; cbn [fst snd]; auto].
    destruct (merge_block size less fuel n m i st1) as [st2|] eqn:E; [|discriminate].
    assert (Ex : x = Continue (u32 (i + 2 * m), st2)) by congruence.
    subst x. cbn [fst snd].
    rewrite (merge_block_count m i st1 st2) by (assumption || lia).
    rewrite u32_small by lia. lia.
  - cbn [fst snd]. lia.
Qed.

Lemma sort_count st r :
  0 <= n < 2 ^ 31 -> scratch_writes (trace st) = 0 ->
  loop (sort_body size less fuel n) fuel (1, st) = Some r ->
  scratch_writes (trace (snd r)) <= n * Z.log2_up n.
Proof.
  intros Hn Hst H.
  pose proof (Z.log2_up_nonneg n) as HL.
  apply (loop_inv _
           (fun s => exists k, 0 <= k /\ fst s = 2 ^ k
                      /\ scratch_writes (trace (snd s)) <= n * Z.min k (Z.log2_up n))
           (fun s => scratch_writes (trace (snd s)) <= n * Z.log2_up n)) in H;
    [exact H| |].
  - clear r H. intros [m st1] x (k & Hk & Em & Hc) Hx. cbn [fst snd] in *.
    unfold sort_body in Hx.
    destruct (Z.leb_spec m n); [|injection Hx as <-; cbn [snd]; nia].
    assert (Hm1 : 1 <= m).
    { rewrite Em. pose proof (Z.pow_pos_nonneg 2 k ltac:(lia) Hk). lia. }
    destruct (loop (pass_body size less fuel n m) fuel (0, st1)) as [[i st2]|] eqn:E;
      [|discriminate].
    assert (Ex : x = Continue (u32 (m * 2), st2)) by congruence.
    subst x. cbn [fst snd].
    pose proof (pass_count m st1 (i, st2) Hn ltac:(lia) E) as Hp. cbn [snd] in Hp.
    exists (k + 1). split; [lia|]. split.
    + rewrite u32_small by lia. rewrite Em, Z.pow_add_r by lia. lia.
    + destruct (Z.ltb_spec m n) as [Hlt|Hge].
      * assert (k < Z.log2_up n) by (apply Z.log2_up_lt_pow2; lia). nia.
      * nia.
  - exists 0. cbn [fst snd]. rewrite Hst. split; [lia|]. split; [reflexivity|]. nia.
Qed.
End CountSort.

(** X26: a call that returns has moved at most [n * ceil(log2 n)]
    elements to the scratch buffer: a pass moves each element of the
    array once at most, and the pass whose blocks are as long as the
    array moves none.  The call returns when [n < 2^31]. *)
Theorem nvMergeSort_scratch_writes (fuel : nat) (arr : mem) (n : Z)
  (tempBuffer : mem) (size : Z) (less : list Z -> list Z -> bool) :
  0 <= size < 2 ^ 32 -> 0 <= n < 2 ^ 32 ->
  (forall st, nvMergeSort fuel arr n tempBuffer size less = Some st ->
     scratch_writes (trace st) <= n * Z.log2_up n)
  /\ (n < 2 ^ 31 -> (Z.to_nat n < fuel)%nat ->
      exists st, nvMergeSort fuel arr n tempBuffer size less = Some st).
Proof.
  intros Hsize Hn. split.
  - intros st Hret.
    destruct (nvMergeSort_returns _ _ _ _ _ _ _ Hsize Hn Hret) as (Hn' & _).
    unfold nvMergeSort in Hret.
    destruct (loop (sort_body size less fuel n) fuel _) as [[m st']|] eqn:E; [|discriminate].
    injection Hret as <-.
    apply (sort_count size less fuel n) in E; [exact E|lia|reflexivity].
  - intros Hn' Hf.
    destruct (nvMergeSort_total fuel arr n tempBuffer size less) as (st & E & _);
      [lia|lia|lia|]. exists st. exact E.
Qed.

Lemma nvMergeSort_scratch_writes_witness :
  exists st,
    nvMergeSort 10 array_53142 5 (fun _ => 0) 4 integerLess = Some st
    /\ scratch_writes (trace st) <= 5 * Z.log2_up 5.
Proof.
  destruct (nvMergeSort_scratch_writes 10 array_53142 5 (fun _ => 0) 4 integerLess)
    as [Hcount Hret]; [lia | lia |].
  destruct Hret as [st E]; [lia | simpl; lia |].
  exists st. split; [exact E|]. apply (Hcount st E).
Defined.
